(** * HONE with damped Kuramoto dynamics: a shallow embedding

    This development embeds [HONE+Kuramoto_ensemble_cpu.py] and proves
    properties of its force law, integrator, energy bookkeeping, early
    stopping, history snapshots and ensemble orchestration.

    NumPy's float64 arithmetic is abstracted by the class [Scalar]: the program
    is written once over any carrier with the operations the source uses.  Two
    carriers are provided: binary64 primitive floats (to run the force law on
    literal inputs) and the real numbers (exact arithmetic, for the algebraic
    laws).  Structural results hold for every carrier.

    What the model leaves out: [tqdm] only wraps the [range] of the loop and
    the [print] on convergence only writes a message, so neither appears;
    [np.sum] adds in an order of NumPy's choosing, the model adds from left to
    right, which is the same number in exact arithmetic and on the short
    arrays evaluated in binary64 below; [x ** 2] is [x * x]. *)

From Stdlib Require Import List ZArith Bool Lia Reals Lra Floats.
From stdpp Require Import base list.
Import ListNotations.

Set Default Goal Selector "!".
Set Warnings "-inexact-float".

(** ** Exceptions and results *)

(** The only exception the worker itself can raise: [np.min] applied to an
    empty selection ("zero-size array to reduction operation minimum which has
    no identity"). *)
Inductive exn : Type :=
| ValueError.

Inductive result (A : Type) : Type :=
| Ok (a : A)
| Raise (e : exn).
Arguments Ok {A} a.
Arguments Raise {A} e.

Definition bind {A B : Type} (r : result A) (k : A -> result B) : result B :=
  match r with
  | Ok a => k a
  | Raise e => Raise e
  end.

Declare Scope result_scope.
Delimit Scope result_scope with result.
Notation "'do' x <- r ; k" := (bind r (fun x => k))
  (at level 10, x name, r at level 100, k at level 200) : result_scope.
Local Open Scope result_scope.

(** ** Scalars *)

(** The float64 operations and literals the source uses. [fltb x y] is
    Python's [x < y]; the literals are [0], [1], [0.5] and [1e-6]. *)
Class Scalar (F : Type) : Type := {
  fzero : F;
  fone : F;
  fhalf : F;
  ftiny : F;
  fadd : F -> F -> F;
  fsub : F -> F -> F;
  fmul : F -> F -> F;
  fdiv : F -> F -> F;
  fsqrt : F -> F;
  fltb : F -> F -> bool
}.

(** [np.sin] and [np.pi]. *)
Class Trig (F : Type) : Type := {
  fsin : F -> F;
  fpi : F
}.

(** The legacy global generator of [np.random]: [G] is its state,
    [random_seed] is [np.random.seed], [random_sample] draws one uniform
    double in [0,1) and [standard_normal] one standard Gaussian, each
    advancing the state. *)
Class NumpyRandom (G F : Type) : Type := {
  random_seed : Z -> G;
  random_sample : G -> F * G;
  standard_normal : G -> F * G
}.

#[export] Instance R_Scalar : Scalar R := {|
  fzero := 0%R;
  fone := 1%R;
  fhalf := (/ 2)%R;
  ftiny := (/ 1000000)%R;
  fadd := Rplus;
  fsub := Rminus;
  fmul := Rmult;
  fdiv := Rdiv;
  fsqrt := R_sqrt.sqrt;
  fltb := fun x y => if Rlt_dec x y then true else false
|}.

#[export] Instance R_Trig : Trig R := {|
  fsin := sin;
  fpi := PI
|}.

#[export] Instance float_Scalar : Scalar float := {|
  fzero := 0%float;
  fone := 1%float;
  fhalf := 0.5%float;
  ftiny := 0x1.0c6f7a0b5ed8dp-20%float;
  fadd := PrimFloat.add;
  fsub := PrimFloat.sub;
  fmul := PrimFloat.mul;
  fdiv := PrimFloat.div;
  fsqrt := PrimFloat.sqrt;
  fltb := PrimFloat.ltb
|}.

(** A one-dimensional array is a list; a two-dimensional one is the list of
    its rows. *)
Abbreviation vec F := (list F) (only parsing).
Abbreviation mat F := (list (list F)) (only parsing).

Section Simulation.

Context {F : Type} {Sc : Scalar F}.

(** ** Arrays *)

(** Python's builtin [max(a, b)]: [b] when [b > a], else [a]. *)
Definition py_max (a b : F) : F := if fltb a b then b else a.

(** Element-wise binary operation on two arrays of one shape. *)
Definition vzip (op : F -> F -> F) (u v : vec F) : vec F :=
  map (fun p => op (fst p) (snd p)) (combine u v).

Definition mzip (op : F -> F -> F) (a b : mat F) : mat F :=
  map (fun p => vzip op (fst p) (snd p)) (combine a b).

(** [np.sum] of a one-dimensional array. *)
Definition np_sum (v : vec F) : F := fold_left fadd v fzero.

(** [np.sum(a, axis=0)] of an array with [d] columns. *)
Definition np_sum_axis0 (d : nat) (a : mat F) : vec F :=
  fold_left (vzip fadd) a (repeat fzero d).

(** [np.linalg.norm] of a vector, and along [axis=1] of a matrix. *)
Definition norm (v : vec F) : F := fsqrt (np_sum (map (fun x => fmul x x) v)).

Definition norm_axis1 (a : mat F) : vec F := map norm a.

(** [np.min]: raises [ValueError] on an empty array. *)
Definition np_min (v : vec F) : result F :=
  match v with
  | [] => Raise ValueError
  | x :: v' => Ok (fold_left (fun m y => if fltb y m then y else m) v' x)
  end.

(** Boolean-mask indexing [a[mask]]. *)
Fixpoint select {A : Type} (mask : list bool) (a : list A) : list A :=
  match mask, a with
  | m :: mask', x :: a' => if m then x :: select mask' a' else select mask' a'
  | _, _ => []
  end.

(** Masked assignment [a[~mask] = c]. *)
Definition assign_unmasked (mask : list bool) (a : vec F) (c : F) : vec F :=
  map (fun p : bool * F => if fst p then snd p else c) (combine mask a).

(** Row assignment [a[i] = r]. *)
Definition set_row (i : nat) (r : vec F) (a : mat F) : mat F := <[i:=r]> a.

(** [for x in xs: s = body(x, s)], stopping at the first exception. *)
Fixpoint for_each {A S : Type} (xs : list A) (body : A -> S -> result S) (s : S)
  : result S :=
  match xs with
  | [] => Ok s
  | x :: xs' => do s' <- body x s; for_each xs' body s'
  end.

(** ** The force law and the potential *)

Section Network.

Variable adj_matrix : mat F.
Variable dim : nat.

Definition num_nodes : nat := length adj_matrix.

Definition row (a : mat F) (i : nat) : vec F := nth i a [].
Definition entry (a : mat F) (i j : nat) : F := nth j (row a i) fzero.

(** The body of the [for i] loop of [calculate_forces], up to the value
    stored in [forces[i]]. *)
Definition force_on (positions : mat F) (i : nat) : result (vec F) :=
  let delta := map (fun p => vzip fsub p (row positions i)) positions in
  let distances := norm_axis1 delta in
  let mask := map (fun d => fltb ftiny d) distances in
  do m <- np_min (select mask distances);
  let distances := assign_unmasked mask distances (py_max ftiny m) in
  Ok (np_sum_axis0 dim
        (map (fun t => map (fun x => fmul (fst (fst t)) (fdiv x (snd t))) (snd (fst t)))
             (combine (combine (select mask (row adj_matrix i)) (select mask delta))
                      (select mask distances)))).

Definition calculate_forces (positions : mat F) : result (mat F) :=
  for_each (seq 0 num_nodes)
    (fun i forces => do f <- force_on positions i; Ok (set_row i f forces))
    (map (map (fun _ => fzero)) positions).

Definition compute_potential_energy (positions : mat F) : F :=
  fmul fhalf
    (np_sum
       (flat_map
          (fun i =>
             map (fun j =>
                    let m := py_max (norm (vzip fsub (row positions i) (row positions j))) ftiny in
                    fmul (entry adj_matrix i j) (fmul m m))
                 (seq 0 i))
          (seq 0 num_nodes))).

(** ** One simulation step *)

Section Realization.

Context {Tr : Trig F}.
Variables (tol dt gamma gamma_theta K : F).
Variable intrinsic_frequencies : vec F.

(** The arrays the loop carries from one iteration to the next. *)
Record sim_state : Type := {
  positions : mat F;
  velocities : mat F;
  phases : vec F;
  phase_velocities : vec F
}.

(** What one iteration computes. [new_velocities] and
    [new_phase_velocities] are the contents of [velocities] and
    [phase_velocities] after their [+=]. *)
Record step_out : Type := {
  new_velocities : mat F;
  new_positions : mat F;
  new_phase_velocities : vec F;
  new_phases : vec F;
  kinetic_energy : F;
  potential_energy : F;
  total_energy : F;
  total_movement : F
}.

(** The five lists the worker returns. *)
Record histories : Type := {
  positions_history : list (mat F);
  phase_history : list (vec F);
  potential_energy_history : list F;
  kinetic_energy_history : list F;
  total_energy_history : list F
}.

Definition mmap (f : F -> F) (a : mat F) : mat F := map (map f) a.

(** [np.sum(np.linalg.norm(new_positions - positions, axis=1))] *)
Definition movement (new_positions positions : mat F) : F :=
  np_sum (norm_axis1 (mzip fsub new_positions positions)).

(** [np.array([np.sum(adj_matrix[i] * np.sin(phases - phases[i])) for i in
    range(num_nodes)])] *)
Definition phase_coupling (ph : vec F) : vec F :=
  map (fun i =>
         np_sum (vzip fmul (row adj_matrix i)
                   (map fsin (map (fun p => fsub p (nth i ph fzero)) ph))))
      (seq 0 num_nodes).

(** Lines 90 to 96: the phase velocities after their [+=], and [new_phases]. *)
Definition phase_step (ph pv : vec F) : vec F * vec F :=
  let phase_diffs := phase_coupling ph in
  let phase_accelerations :=
    vzip fsub
      (vzip fadd intrinsic_frequencies (map (fun c => fmul K c) phase_diffs))
      (map (fun v => fmul gamma_theta v) pv) in
  let phase_velocities' :=
    vzip fadd pv (map (fun a => fmul a dt) phase_accelerations) in
  let new_phases := vzip fadd ph (map (fun v => fmul v dt) phase_velocities') in
  (phase_velocities', new_phases).

(** Lines 83 to 110: one iteration, up to the convergence test. *)
Definition sim_step (st : sim_state) : result step_out :=
  do forces <- calculate_forces (positions st);
  let accelerations := forces in
  let velocities' :=
    mzip fadd (velocities st)
      (mzip fsub (mmap (fun a => fmul a dt) accelerations)
                 (mmap (fun v => fmul gamma v) (velocities st))) in
  let new_positions := mzip fadd (positions st) (mmap (fun v => fmul v dt) velocities') in
  let (phase_velocities', new_phases) := phase_step (phases st) (phase_velocities st) in
  let kinetic_energy :=
    fmul fhalf (np_sum (map (fun n => fmul n n) (norm_axis1 velocities'))) in
  let potential_energy := compute_potential_energy new_positions in
  let total_energy := fadd kinetic_energy potential_energy in
  let total_movement := movement new_positions (positions st) in
  Ok {| new_velocities := velocities';
        new_positions := new_positions;
        new_phase_velocities := phase_velocities';
        new_phases := new_phases;
        kinetic_energy := kinetic_energy;
        potential_energy := potential_energy;
        total_energy := total_energy;
        total_movement := total_movement |}.

(** The three [append]s of positions and phases and of the energies. *)
Definition record_step (o : step_out) (h : histories) : histories :=
  {| positions_history := positions_history h ++ [new_positions o];
     phase_history := phase_history h ++ [new_phases o];
     potential_energy_history := potential_energy_history h ++ [potential_energy o];
     kinetic_energy_history := kinetic_energy_history h ++ [kinetic_energy o];
     total_energy_history := total_energy_history h ++ [total_energy o] |}.

(** The state the next iteration starts from when the loop does not break. *)
Definition advance (o : step_out) : sim_state :=
  {| positions := new_positions o;
     velocities := new_velocities o;
     phases := new_phases o;
     phase_velocities := new_phase_velocities o |}.

(** [for step in range(iterations)]: [n] is the number of iterations left. *)
Fixpoint simulation_loop (n : nat) (st : sim_state) (h : histories) : result histories :=
  match n with
  | O => Ok h
  | S n' =>
      do o <- sim_step st;
      let h' := record_step o h in
      if fltb (total_movement o) tol then Ok h'
      else simulation_loop n' (advance o) h'
  end.

(** The outputs of the iterations the loop runs, in order: a trace of the
    run, for stating what each recorded step computed. *)
Fixpoint steps_run (n : nat) (st : sim_state) : list step_out :=
  match n with
  | O => []
  | S n' =>
      match sim_step st with
      | Raise _ => []
      | Ok o => o :: (if fltb (total_movement o) tol then [] else steps_run n' (advance o))
      end
  end.

End Realization.

(** ** The worker *)

Section Worker.

Context {Tr : Trig F} {G : Type} {Rng : NumpyRandom G F}.

Fixpoint draw_vec (draw : G -> F * G) (n : nat) (g : G) : vec F * G :=
  match n with
  | O => ([], g)
  | S n' =>
      let (x, g1) := draw g in
      let (xs, g2) := draw_vec draw n' g1 in
      (x :: xs, g2)
  end.

Fixpoint draw_mat (draw : G -> F * G) (rows cols : nat) (g : G) : mat F * G :=
  match rows with
  | O => ([], g)
  | S rows' =>
      let (r, g1) := draw_vec draw cols g in
      let (rs, g2) := draw_mat draw rows' cols g1 in
      (r :: rs, g2)
  end.

(** [np.random.rand(n, d)], [np.random.uniform(low, high, n)] and
    [np.random.normal(loc, scale, n)] on the generator state [g]. *)
Definition np_random_rand (n d : nat) (g : G) : mat F * G :=
  draw_mat random_sample n d g.

Definition np_random_uniform (low high : F) (n : nat) (g : G) : vec F * G :=
  draw_vec (fun g => let (u, g') := random_sample g in
                     (fadd low (fmul (fsub high low) u), g')) n g.

Definition np_random_normal (loc scale : F) (n : nat) (g : G) : vec F * G :=
  draw_vec (fun g => let (z, g') := standard_normal g in
                     (fadd loc (fmul scale z), g')) n g.

(** The random initial condition of a realization. *)
Record draws : Type := {
  drawn_positions : mat F;
  drawn_phases : vec F;
  drawn_frequencies : vec F
}.

(** Lines 37 to 45 run on the generator state [g] without interruption. *)
Definition draw_initial (g : G) : draws * G :=
  let (pos, g1) := np_random_rand num_nodes dim g in
  let (ph, g2) := np_random_uniform fzero (fmul (fadd fone fone) fpi) num_nodes g1 in
  let (fr, g3) := np_random_normal fzero fone num_nodes g2 in
  ({| drawn_positions := pos; drawn_phases := ph; drawn_frequencies := fr |}, g3).

(** Lines 38 to 52: the state and the histories before the first step. *)
Definition initial_state (d : draws) : sim_state :=
  let positions := drawn_positions d in
  let velocities := mmap (fun _ => fzero) positions in
  let phases := drawn_phases d in
  let phase_velocities := repeat fzero num_nodes in
  {| positions := positions; velocities := velocities;
     phases := phases; phase_velocities := phase_velocities |}.

Definition initial_histories (d : draws) : histories :=
  {| positions_history := [drawn_positions d];
     phase_history := [drawn_phases d];
     potential_energy_history := [];
     kinetic_energy_history := [];
     total_energy_history := [] |}.

(** The worker from line 38 on, given its draws. *)
Definition simulate (iterations : Z) (tol dt gamma gamma_theta K : F) (d : draws)
  : result histories :=
  simulation_loop tol dt gamma gamma_theta K (drawn_frequencies d)
    (Z.to_nat iterations) (initial_state d) (initial_histories d).

(** The worker run on its own: nothing else touches the generator between
    [np.random.seed(seed)] and the last draw. *)
Definition HONE_worker_with_damped_kuramoto
    (iterations : Z) (tol : F) (seed : Z) (dt gamma gamma_theta K : F)
  : result histories :=
  simulate iterations tol dt gamma gamma_theta K
    (fst (draw_initial (random_seed seed))).

(** The trace of the worker run on its own. *)
Definition worker_steps
    (iterations : Z) (tol : F) (seed : Z) (dt gamma gamma_theta K : F)
  : list step_out :=
  let d := fst (draw_initial (random_seed seed)) in
  steps_run tol dt gamma gamma_theta K (drawn_frequencies d)
    (Z.to_nat iterations) (initial_state d).

(** ** The thread pool

    The workers run on threads of one process and [np.random] is one
    process-wide generator.  Each call into [np.random] is atomic (the
    generator is locked for the call), and a thread switch may fall between
    any two of them.  After its last draw a worker touches no shared state
    ([adj_matrix] is only read), so an interleaving is determined by the
    order of the [np.random] calls. *)

Inductive rng_call : Type :=
| CallSeed      (* line 33: np.random.seed(seed) *)
| CallRand      (* line 37: np.random.rand(num_nodes, dim) *)
| CallUniform   (* line 41: np.random.uniform(0, 2 * np.pi, num_nodes) *)
| CallNormal.   (* line 45: np.random.normal(0, 1, num_nodes) *)

Definition worker_calls : list rng_call :=
  [CallSeed; CallRand; CallUniform; CallNormal].

(** One call of the worker with seed [seed] on the shared generator. *)
Definition do_call (seed : Z) (c : rng_call) (d : draws) (g : G) : draws * G :=
  match c with
  | CallSeed => (d, random_seed seed)
  | CallRand =>
      let (pos, g') := np_random_rand num_nodes dim g in
      ({| drawn_positions := pos; drawn_phases := drawn_phases d;
          drawn_frequencies := drawn_frequencies d |}, g')
  | CallUniform =>
      let (ph, g') :=
        np_random_uniform fzero (fmul (fadd fone fone) fpi) num_nodes g in
      ({| drawn_positions := drawn_positions d; drawn_phases := ph;
          drawn_frequencies := drawn_frequencies d |}, g')
  | CallNormal =>
      let (fr, g') := np_random_normal fzero fone num_nodes g in
      ({| drawn_positions := drawn_positions d; drawn_phases := drawn_phases d;
          drawn_frequencies := fr |}, g')
  end.

(** A worker thread: the calls it has still to make, and what it has drawn. *)
Record thread : Type := {
  pending : list rng_call;
  drawn : draws
}.

Definition new_thread : thread :=
  {| pending := worker_calls;
     drawn := {| drawn_positions := []; drawn_phases := []; drawn_frequencies := [] |} |}.

(** The pool: thread [i] runs the worker for seed [i]; [generator] is the
    state of [np.random]. *)
Record pool : Type := {
  threads : list thread;
  generator : G
}.

(** Thread [t] makes its next call, if it has one. *)
Definition pool_step (p : pool) (t : nat) : pool :=
  match threads p !! t with
  | Some {| pending := c :: rest; drawn := d |} =>
      let (d', g') := do_call (Z.of_nat t) c d (generator p) in
      {| threads := <[t := {| pending := rest; drawn := d' |}]> (threads p);
         generator := g' |}
  | _ => p
  end.

Definition run_schedule (sched : list nat) (p : pool) : pool :=
  fold_left pool_step sched p.

(** Every thread in turn makes all the calls it has left. *)
Definition serial (n : nat) : list nat :=
  flat_map (fun t => repeat t (length worker_calls)) (seq 0 n).

(** The draws of the [n] workers when their [np.random] calls are interleaved
    as [sched] says and the calls then left are made thread after thread. *)
Definition pool_draws (sched : list nat) (n : nat) (g0 : G) : list draws :=
  map drawn
    (threads (run_schedule (sched ++ serial n)
                {| threads := repeat new_thread n; generator := g0 |})).

End Worker.

End Network.

(** ** The orchestrator *)

Section Ensemble.

Context {Tr : Trig F} {G : Type} {Rng : NumpyRandom G F}.

(** [adj_matrix[adj_matrix > 0] = 1] *)
Definition binarize (a : mat F) : mat F :=
  mmap (fun x => if fltb fzero x then fone else x) a.

(** The five lists the orchestrator returns. *)
Record ensemble : Type := {
  ensemble_positions : list (list (mat F));
  ensemble_phases : list (list (vec F));
  ensemble_potential_energies : list (list F);
  ensemble_kinetic_energies : list (list F);
  ensemble_total_energies : list (list F)
}.

(** [for i, future in enumerate(futures): results[i] = future.result()]:
    the first exception in index order propagates. *)
Fixpoint join {A : Type} (futures : list (result A)) : result (list A) :=
  match futures with
  | [] => Ok []
  | f :: futures' => do r <- f; do rs <- join futures'; Ok (r :: rs)
  end.

(** [is_weighted] is [nx.is_weighted(G)] and [to_numpy_array] is the matrix
    [nx.to_numpy_array] returns for [G] (both calls of the source pass the
    same weight attribute).  [sched] is the interleaving of the workers'
    [np.random] calls and [g0] the state of the generator at entry. *)
Definition HONE_kuramoto_ensemble
    (sched : list nat) (g0 : G)
    (is_weighted : bool) (to_numpy_array : mat F)
    (dim : nat) (iterations ensemble_size : Z)
    (tol dt gamma gamma_theta K : F) : result ensemble :=
  let adj_matrix := if is_weighted then to_numpy_array else binarize to_numpy_array in
  let futures :=
    map (simulate adj_matrix dim iterations tol dt gamma gamma_theta K)
        (pool_draws adj_matrix dim sched (Z.to_nat ensemble_size) g0) in
  do results <- join futures;
  Ok {| ensemble_positions := map positions_history results;
        ensemble_phases := map phase_history results;
        ensemble_potential_energies := map potential_energy_history results;
        ensemble_kinetic_energies := map kinetic_energy_history results;
        ensemble_total_energies := map total_energy_history results |}.

End Ensemble.

(** ** The worker with arrays as heap objects

    [velocities += ...] and [phase_velocities += ...] update an array in
    place, and names such as [positions] are rebound from one array to
    another.  To follow which array a history entry is, the worker is written a
    second time over a store of array objects: a name holds a reference, an
    arithmetic expression or [.copy()] allocates a fresh array, and [+=]
    overwrites the array its left-hand side refers to. *)

Section Heap.

Context {Tr : Trig F}.
Variable adj_matrix : mat F.
Variable dim : nat.
Variables (tol dt gamma gamma_theta K : F).

Inductive ndarray : Type :=
| Arr1 (v : vec F)
| Arr2 (m : mat F).

(** The store holds the array objects in the order of their creation; a
    reference is the position of an object in it. *)
Definition ref : Type := nat.
Local Abbreviation store := (list ndarray) (only parsing).

Definition get1 (s : store) (r : ref) : vec F :=
  match s !! r with
  | Some (Arr1 v) => v
  | _ => []
  end.

Definition get2 (s : store) (r : ref) : mat F :=
  match s !! r with
  | Some (Arr2 m) => m
  | _ => []
  end.

(** A new array object, with a reference no earlier object has. *)
Definition alloc (a : ndarray) (s : store) : ref * store := (length s, s ++ [a]).

(** The names of the worker's frame.  The energy histories hold floats, which
    are immutable. *)
Record frame : Type := {
  v_positions : ref;
  v_velocities : ref;
  v_phases : ref;
  v_phase_velocities : ref;
  v_intrinsic_frequencies : ref;
  v_positions_history : list ref;
  v_phase_history : list ref;
  v_potential_energy_history : list F;
  v_kinetic_energy_history : list F;
  v_total_energy_history : list F
}.

(** Lines 38 to 52. *)
Definition heap_init (d : draws) : store * frame :=
  let s : store := [] in
  let (positions, s) := alloc (Arr2 (drawn_positions d)) s in
  let (velocities, s) := alloc (Arr2 (mmap (fun _ => fzero) (get2 s positions))) s in
  let (phases, s) := alloc (Arr1 (drawn_phases d)) s in
  let (phase_velocities, s) := alloc (Arr1 (repeat fzero (num_nodes adj_matrix))) s in
  let (intrinsic_frequencies, s) := alloc (Arr1 (drawn_frequencies d)) s in
  let (c1, s) := alloc (Arr2 (get2 s positions)) s in
  let (c2, s) := alloc (Arr1 (get1 s phases)) s in
  (s, {| v_positions := positions;
         v_velocities := velocities;
         v_phases := phases;
         v_phase_velocities := phase_velocities;
         v_intrinsic_frequencies := intrinsic_frequencies;
         v_positions_history := [c1];
         v_phase_history := [c2];
         v_potential_energy_history := [];
         v_kinetic_energy_history := [];
         v_total_energy_history := [] |}).

(** One iteration of the loop, lines 83 to 117; the boolean is [true] when
    the iteration ends in [break]. *)
Definition heap_step (s : store) (fr : frame) : result (store * frame * bool) :=
  do f <- calculate_forces adj_matrix dim (get2 s (v_positions fr));
  let (forces, s) := alloc (Arr2 f) s in
  let accelerations := forces in
  let (rhs, s) :=
    alloc (Arr2 (mzip fsub (mmap (fun a => fmul a dt) (get2 s accelerations))
                           (mmap (fun v => fmul gamma v) (get2 s (v_velocities fr))))) s in
  let s := <[v_velocities fr :=
               Arr2 (mzip fadd (get2 s (v_velocities fr)) (get2 s rhs))]> s in
  let (new_positions, s) :=
    alloc (Arr2 (mzip fadd (get2 s (v_positions fr))
                           (mmap (fun v => fmul v dt) (get2 s (v_velocities fr))))) s in
  let (c1, s) := alloc (Arr2 (get2 s new_positions)) s in
  let positions_history := v_positions_history fr ++ [c1] in
  let (phase_diffs, s) :=
    alloc (Arr1 (phase_coupling adj_matrix (get1 s (v_phases fr)))) s in
  let (phase_accelerations, s) :=
    alloc (Arr1 (vzip fsub
                   (vzip fadd (get1 s (v_intrinsic_frequencies fr))
                              (map (fun c => fmul K c) (get1 s phase_diffs)))
                   (map (fun v => fmul gamma_theta v) (get1 s (v_phase_velocities fr))))) s in
  let s := <[v_phase_velocities fr :=
               Arr1 (vzip fadd (get1 s (v_phase_velocities fr))
                               (map (fun a => fmul a dt) (get1 s phase_accelerations)))]> s in
  let (new_phases, s) :=
    alloc (Arr1 (vzip fadd (get1 s (v_phases fr))
                           (map (fun v => fmul v dt) (get1 s (v_phase_velocities fr))))) s in
  let (c2, s) := alloc (Arr1 (get1 s new_phases)) s in
  let phase_history := v_phase_history fr ++ [c2] in
  let kinetic_energy :=
    fmul fhalf (np_sum (map (fun n => fmul n n) (norm_axis1 (get2 s (v_velocities fr))))) in
  let potential_energy := compute_potential_energy adj_matrix (get2 s new_positions) in
  let total_energy := fadd kinetic_energy potential_energy in
  let total_movement := movement (get2 s new_positions) (get2 s (v_positions fr)) in
  let stop := fltb total_movement tol in
  Ok (s,
      {| v_positions := if stop then v_positions fr else new_positions;
         v_velocities := v_velocities fr;
         v_phases := if stop then v_phases fr else new_phases;
         v_phase_velocities := v_phase_velocities fr;
         v_intrinsic_frequencies := v_intrinsic_frequencies fr;
         v_positions_history := positions_history;
         v_phase_history := phase_history;
         v_potential_energy_history := v_potential_energy_history fr ++ [potential_energy];
         v_kinetic_energy_history := v_kinetic_energy_history fr ++ [kinetic_energy];
         v_total_energy_history := v_total_energy_history fr ++ [total_energy] |},
      stop).

Fixpoint heap_loop (n : nat) (s : store) (fr : frame) : result (store * frame) :=
  match n with
  | O => Ok (s, fr)
  | S n' =>
      do r <- heap_step s fr;
      if snd r then Ok (fst r) else heap_loop n' (fst (fst r)) (snd (fst r))
  end.

Definition heap_simulate (iterations : Z) (d : draws) : result (store * frame) :=
  let (s, fr) := heap_init d in heap_loop (Z.to_nat iterations) s fr.

(** What the caller reads through the returned lists. *)
Definition returned (r : store * frame) : histories :=
  {| positions_history := map (get2 (fst r)) (v_positions_history (snd r));
     phase_history := map (get1 (fst r)) (v_phase_history (snd r));
     potential_energy_history := v_potential_energy_history (snd r);
     kinetic_energy_history := v_kinetic_energy_history (snd r);
     total_energy_history := v_total_energy_history (snd r) |}.

End Heap.

End Simulation.

Arguments sim_state F : clear implicits.
Arguments step_out F : clear implicits.
Arguments histories F : clear implicits.
Arguments draws F : clear implicits.
Arguments ensemble F : clear implicits.
Arguments thread F : clear implicits.
Arguments pool F G : clear implicits.
Arguments ndarray F : clear implicits.
Arguments frame F : clear implicits.

Abbreviation store F := (list (ndarray F)) (only parsing).


(** ** Worked inputs *)

(** A stand-in for the generator behind [np.random], which is not part of the
    repository: its state is a counter, seeding sets the counter, and a draw
    reads a value off the counter and advances it.  It is used only to run the
    program on literal inputs. *)
Definition counter_random : NumpyRandom Z R :=
  {| random_seed := fun s => s;
     random_sample := fun g => ((IZR g / 8)%R, (g + 1)%Z);
     standard_normal := fun g => (IZR g, (g + 1)%Z) |}.

(** The same stand-in with uniform draws in [0,1), as [np.random]'s are: the
    counter is reduced modulo 8 before it is scaled. *)
Definition cyclic_random : NumpyRandom Z R :=
  {| random_seed := fun s => s;
     random_sample := fun g => ((IZR (g mod 8) / 8)%R, (g + 1)%Z);
     standard_normal := fun g => (IZR g, (g + 1)%Z) |}.

(** Two nodes joined by one edge of weight [w]. *)
Definition pair_network {F : Type} {Sc : Scalar F} (w : F) : mat F :=
  [[fzero; w]; [w; fzero]].

(** Two nodes on a line, one unit apart, at rest. *)
Definition unit_pair : sim_state R :=
  {| positions := [[0%R]; [1%R]];
     velocities := [[0%R]; [0%R]];
     phases := [0%R; 0%R];
     phase_velocities := [0%R; 0%R] |}.

(** The same two nodes, the first one moving at unit speed. *)
Definition moving_pair : sim_state R :=
  {| positions := [[0%R]; [1%R]];
     velocities := [[1%R]; [0%R]];
     phases := [0%R; 0%R];
     phase_velocities := [0%R; 0%R] |}.

Local Open Scope nat_scope.

(** * Vocabulary of the statements *)

Section Vocabulary.

Context {F : Type} {Sc : Scalar F} {Tr : Trig F}.

(** An [n] by [d] array. *)
Definition shape (n d : nat) (a : mat F) : Prop :=
  length a = n /\ Forall (fun r => length r = d) a.

(** The shape of the five lists: one energy entry per step, one more snapshot
    than steps, and the newest position snapshot is the current position. *)
Definition recorded (m : nat) (st : sim_state F) (h : histories F) : Prop :=
  length (total_energy_history h) = m /\
  length (kinetic_energy_history h) = m /\
  length (potential_energy_history h) = m /\
  length (phase_history h) = m + 1 /\
  length (positions_history h) = m + 1 /\
  nth m (positions_history h) [] = positions st.

(** The rows summed into [forces[i]]: one per selected node. *)
Definition force_terms (adj_matrix positions : mat F) (i : nat) : mat F :=
  let delta := map (fun p => vzip fsub p (row positions i)) positions in
  let distances := norm_axis1 delta in
  let mask := map (fun d => fltb ftiny d) distances in
  map (fun t : F * vec F * F => map (fun x => fmul (fst (fst t)) (fdiv x (snd t))) (snd (fst t)))
      (select mask (combine (combine (row adj_matrix i) delta) distances)).

(** The distances from node [i] that pass the mask. *)
Definition far_distances (positions : mat F) (i : nat) : vec F :=
  let distances := norm_axis1 (map (fun p => vzip fsub p (row positions i)) positions) in
  select (map (fun d => fltb ftiny d) distances) distances.

(** A thread that has made all its calls, having drawn from the generator
    seeded with [seed] and touched by nobody else. *)
Definition finished {G : Type} {Rng : NumpyRandom G F}
    (adj_matrix : mat F) (dim : nat) (seed : Z) : thread F :=
  {| pending := []; drawn := fst (draw_initial adj_matrix dim (random_seed seed)) |}.

(** The pure state and frequencies a store and a frame stand for. *)
Definition state_of (s : store F) (fr : frame F) : sim_state F :=
  {| positions := get2 s (v_positions fr);
     velocities := get2 s (v_velocities fr);
     phases := get1 s (v_phases fr);
     phase_velocities := get1 s (v_phase_velocities fr) |}.

Definition frequencies_of (s : store F) (fr : frame F) : vec F :=
  get1 s (v_intrinsic_frequencies fr).

(** The references of the frame are objects of the store, and the two arrays
    that are updated in place are referred to by no other name and by no
    history entry. *)
Definition frame_ok (s : store F) (fr : frame F) : Prop :=
  v_positions fr < length s /\
  v_velocities fr < length s /\
  v_phases fr < length s /\
  v_phase_velocities fr < length s /\
  v_intrinsic_frequencies fr < length s /\
  Forall (fun r => r < length s) (v_positions_history fr ++ v_phase_history fr) /\
  v_velocities fr <> v_positions fr /\
  v_velocities fr <> v_phases fr /\
  v_velocities fr <> v_phase_velocities fr /\
  v_velocities fr <> v_intrinsic_frequencies fr /\
  v_phase_velocities fr <> v_positions fr /\
  v_phase_velocities fr <> v_phases fr /\
  v_phase_velocities fr <> v_intrinsic_frequencies fr /\
  ~ In (v_velocities fr) (v_positions_history fr ++ v_phase_history fr) /\
  ~ In (v_phase_velocities fr) (v_positions_history fr ++ v_phase_history fr).

(** What one heap iteration does, in terms of the pure step. *)
Definition step_agrees (adj_matrix : mat F) (dim : nat) (tol dt gamma gamma_theta K : F)
    (s : store F) (fr : frame F) : Prop :=
  match heap_step adj_matrix dim tol dt gamma gamma_theta K s fr with
  | Raise e =>
      sim_step adj_matrix dim dt gamma gamma_theta K (frequencies_of s fr) (state_of s fr)
      = Raise e
  | Ok (s', fr', stop) =>
      exists o,
        sim_step adj_matrix dim dt gamma gamma_theta K (frequencies_of s fr) (state_of s fr)
        = Ok o /\
        stop = fltb (total_movement o) tol /\
        frame_ok s' fr' /\
        frequencies_of s' fr' = frequencies_of s fr /\
        (stop = false -> state_of s' fr' = advance o) /\
        returned (s', fr') = record_step o (returned (s, fr)) /\
        (forall r, In r (v_positions_history fr ++ v_phase_history fr) -> s' !! r = s !! r) /\
        (exists c, v_positions_history fr' = v_positions_history fr ++ [c]) /\
        (exists c, v_phase_history fr' = v_phase_history fr ++ [c])
  end.

End Vocabulary.

Section RealVocabulary.

Local Open Scope R_scope.

(** The potential in the words of the specification: over the pairs
    [i < j], half the sum of [adjacency[i,j] * max(‖p_i − p_j‖, 1e-6)²]. *)
Definition potential_spec (adj : mat R) (positions : mat R) : R :=
  / 2 *
  np_sum
    (flat_map
       (fun i =>
          map (fun j =>
                 entry adj i j *
                 (Rmax (norm (vzip fsub (row positions i) (row positions j))) (/ 1000000)) ^ 2)
              (seq (S i) (num_nodes adj - S i)))
       (seq 0 (num_nodes adj))).

Definition symmetric (adj : mat R) : Prop :=
  forall i j, (i < num_nodes adj)%nat -> (j < num_nodes adj)%nat ->
    entry adj i j = entry adj j i.

Definition nonnegative (adj : mat R) : Prop :=
  forall i j, 0 <= entry adj i j.

Definition zero_vector (v : vec R) : Prop := Forall (fun x => x = 0) v.
Definition zero_matrix (a : mat R) : Prop := Forall zero_vector a.

(** [Δ_j = position_j − position_i] and [d_j = ‖Δ_j‖]. *)
Definition displacement (positions : mat R) (i j : nat) : vec R :=
  vzip fsub (row positions j) (row positions i).
Definition distance (positions : mat R) (i j : nat) : R := norm (displacement positions i j).

(** The force on node [i] in the words of the specification: the sum, over
    the nodes [j] with [d_j > 1e-6], of
    [adjacency[i,j] * (Δ_j / max(d_j, 1e-6))]. *)
Definition force_spec (adj : mat R) (dim : nat) (positions : mat R) (i : nat) : vec R :=
  np_sum_axis0 dim
    (map (fun j => map (fun x => entry adj i j * (x / Rmax (distance positions i j) (/ 1000000)))
                       (displacement positions i j))
         (List.filter (fun j => fltb (/ 1000000) (distance positions i j))
            (seq 0 (num_nodes adj)))).

End RealVocabulary.

Section SizeVocabulary.

Context {F : Type} {Sc : Scalar F}.

(** The arrays a worker has drawn have the sizes lines 37, 41 and 45 ask
    for. *)
Definition draws_ok (adj_matrix : mat F) (dim : nat) (d : draws F) : Prop :=
  shape (num_nodes adj_matrix) dim (drawn_positions d) /\
  length (drawn_phases d) = num_nodes adj_matrix /\
  length (drawn_frequencies d) = num_nodes adj_matrix.

(** A thread that has made the first [k] of its four calls: from the second
    call on it holds its positions, from the third its phases and after the
    fourth its frequencies. *)
Definition stage (adj_matrix : mat F) (dim : nat) (k : nat) (th : thread F) : Prop :=
  pending th = skipn k worker_calls /\
  (2 <= k -> shape (num_nodes adj_matrix) dim (drawn_positions (drawn th))) /\
  (3 <= k -> length (drawn_phases (drawn th)) = num_nodes adj_matrix) /\
  (4 <= k -> length (drawn_frequencies (drawn th)) = num_nodes adj_matrix).

(** The arrays a step starts from have the sizes of the network. *)
Definition state_ok (adj_matrix : mat F) (dim : nat) (st : sim_state F) : Prop :=
  shape (num_nodes adj_matrix) dim (positions st) /\
  shape (num_nodes adj_matrix) dim (velocities st) /\
  length (phases st) = num_nodes adj_matrix /\
  length (phase_velocities st) = num_nodes adj_matrix.

(** Every snapshot of the two array histories has the sizes of the network. *)
Definition snapshots_ok (adj_matrix : mat F) (dim : nat) (h : histories F) : Prop :=
  Forall (shape (num_nodes adj_matrix) dim) (positions_history h) /\
  Forall (fun p => length p = num_nodes adj_matrix) (phase_history h).

End SizeVocabulary.

(** * Properties *)

(** ** Lists and arrays *)

Section ArrayFacts.

Context {F : Type} {Sc : Scalar F}.

Lemma vzip_length (op : F -> F -> F) (u v : vec F) :
  length (vzip op u v) = Nat.min (length u) (length v).
Proof. unfold vzip. now rewrite length_map, length_combine. Qed.

Lemma nth_vzip (op : F -> F -> F) (u v : vec F) (i : nat) (d : F) :
  i < length u -> i < length v ->
  nth i (vzip op u v) d = op (nth i u d) (nth i v d).
Proof.
  revert v i. induction u as [|x u IH]; intros [|y v] [|i]; simpl; intros; try lia.
  - reflexivity.
  - apply IH; lia.
Qed.

Lemma nth_map_in {A B : Type} (f : A -> B) (l : list A) (i : nat) (da : A) (db : B) :
  i < length l -> nth i (map f l) db = f (nth i l da).
Proof.
  revert i. induction l as [|x l IH]; intros [|i]; simpl; intros; try lia.
  - reflexivity.
  - apply IH; lia.
Qed.

Lemma nth_combine_in {A B : Type} (a : list A) (b : list B) (i : nat) (da : A) (db : B) :
  i < length a -> i < length b ->
  nth i (combine a b) (da, db) = (nth i a da, nth i b db).
Proof.
  revert b i. induction a as [|x a IH]; intros [|y b] [|i]; simpl; intros; try lia.
  - reflexivity.
  - apply IH; lia.
Qed.

Lemma last_snoc {A : Type} (l : list A) (x d : A) : List.last (l ++ [x]) d = x.
Proof. apply last_last. Qed.

Lemma select_map {A B : Type} (f : A -> B) (m : list bool) (l : list A) :
  select m (map f l) = map f (select m l).
Proof.
  revert l. induction m as [|b m IH]; intros [|x l]; simpl; try reflexivity.
  destruct b; simpl; now rewrite IH.
Qed.

Lemma select_combine {A B : Type} (m : list bool) (a : list A) (b : list B) :
  combine (select m a) (select m b) = select m (combine a b).
Proof.
  revert a b. induction m as [|c m IH]; intros [|x a] [|y b]; simpl; try reflexivity.
  - now destruct c, (select m a).
  - destruct c; simpl; now rewrite IH.
Qed.

Lemma select_assign_unmasked (m : list bool) (ds : vec F) (c : F) :
  select m (assign_unmasked m ds c) = select m ds.
Proof.
  unfold assign_unmasked. revert ds. induction m as [|b m IH]; intros [|d ds]; simpl; try reflexivity.
  destruct b; simpl; now rewrite IH.
Qed.

Lemma select_Forall {A : Type} (P : A -> Prop) (m : list bool) (l : list A) :
  Forall P l -> Forall P (select m l).
Proof.
  intros Hl. revert m. induction Hl as [|x l Hx Hl IH]; intros [|b m]; simpl; try constructor.
  destruct b; [constructor|]; auto.
Qed.

(** A loop that stores a computed row at each index of a range. *)
Lemma for_each_rows_ok (g : nat -> result (vec F)) (n : nat) :
  forall (a : nat) (s s' : mat F),
    for_each (seq a n) (fun i forces => do f <- g i; Ok (set_row i f forces)) s = Ok s' ->
    length s' = length s /\
    (forall i, a <= i < a + n -> exists v, g i = Ok v /\ (i < length s -> s' !! i = Some v)) /\
    (forall i, ~ a <= i < a + n -> s' !! i = s !! i).
Proof.
  induction n as [|n IH]; intros a s s' Hrun; simpl in Hrun.
  - injection Hrun as <-. split; [reflexivity|]. split; [intros; lia | reflexivity].
  - destruct (g a) as [v|e] eqn:Hg; cbn [bind] in Hrun; [|discriminate].
    apply IH in Hrun as (Hlen & Hin & Hout). unfold set_row in *.
    rewrite length_insert in Hlen, Hin. split; [exact Hlen|]. split.
    + intros i Hi. destruct (Nat.eq_dec i a) as [->|Hne].
      * exists v. split; [exact Hg|]. intros Hlt.
        rewrite Hout by lia. now apply list_lookup_insert_eq.
      * apply Hin. lia.
    + intros i Hi. rewrite Hout by lia. apply list_lookup_insert_ne. lia.
Qed.

Lemma for_each_rows_total (g : nat -> result (vec F)) (n : nat) :
  forall (a : nat) (s : mat F),
    (forall i, a <= i < a + n -> exists v, g i = Ok v) ->
    exists s', for_each (seq a n) (fun i forces => do f <- g i; Ok (set_row i f forces)) s = Ok s'.
Proof.
  induction n as [|n IH]; intros a s Hg; simpl.
  - now exists s.
  - destruct (Hg a) as [v ->]; [lia|]. cbn [bind]. apply IH. intros i Hi. apply Hg. lia.
Qed.

Lemma for_each_rows_raise (g : nat -> result (vec F)) (n : nat) :
  forall (a : nat) (s : mat F) (i : nat),
    a <= i < a + n -> g i = Raise ValueError ->
    for_each (seq a n) (fun i forces => do f <- g i; Ok (set_row i f forces)) s = Raise ValueError.
Proof.
  induction n as [|n IH]; intros a s i Hi Hg; [lia|]. simpl.
  destruct (g a) as [v|[]] eqn:Ha; cbn [bind]; [|reflexivity].
  apply (IH _ _ i); [|exact Hg]. destruct (Nat.eq_dec i a) as [->|]; [congruence | lia].
Qed.

End ArrayFacts.

(** ** The loop: how many steps run *)

Section LoopFacts.

Context {F : Type} {Sc : Scalar F} {Tr : Trig F}.
Variable adj_matrix : mat F.
Variable dim : nat.
Variables (tol dt gamma gamma_theta K : F).
Variable intrinsic_frequencies : vec F.

Local Abbreviation step := (sim_step adj_matrix dim dt gamma gamma_theta K intrinsic_frequencies).
Local Abbreviation loop := (simulation_loop adj_matrix dim tol dt gamma gamma_theta K intrinsic_frequencies).

(** What a step that returns has computed. *)
Lemma sim_step_inv (st : sim_state F) (o : step_out F) :
  step st = Ok o ->
  exists forces : mat F,
    calculate_forces adj_matrix dim (positions st) = Ok forces /\
    new_velocities o =
      mzip fadd (velocities st)
        (mzip fsub (mmap (fun a => fmul a dt) forces)
                   (mmap (fun v => fmul gamma v) (velocities st))) /\
    new_positions o =
      mzip fadd (positions st) (mmap (fun v => fmul v dt) (new_velocities o)) /\
    (new_phase_velocities o, new_phases o) =
      phase_step adj_matrix dt gamma_theta K intrinsic_frequencies
        (phases st) (phase_velocities st) /\
    kinetic_energy o =
      fmul fhalf (np_sum (map (fun n => fmul n n) (norm_axis1 (new_velocities o)))) /\
    potential_energy o = compute_potential_energy adj_matrix (new_positions o) /\
    total_energy o = fadd (kinetic_energy o) (potential_energy o) /\
    total_movement o = movement (new_positions o) (positions st).
Proof.
  unfold sim_step.
  destruct (calculate_forces adj_matrix dim (positions st)) as [f|e]; cbn [bind]; [|discriminate].
  destruct (phase_step adj_matrix dt gamma_theta K intrinsic_frequencies
              (phases st) (phase_velocities st)) as [pv' ph'].
  intros [= <-]. exists f. cbn. repeat split; reflexivity.
Qed.

Lemma step_movement (st : sim_state F) (o : step_out F) :
  step st = Ok o -> total_movement o = movement (new_positions o) (positions st).
Proof. intros Hs. apply sim_step_inv in Hs as (f & _ & _ & _ & _ & _ & _ & _ & Hm). exact Hm. Qed.

Lemma recorded_step (m : nat) (st : sim_state F) (h : histories F) (o : step_out F) :
  recorded m st h -> recorded (m + 1) (advance o) (record_step o h).
Proof.
  intros (Ht & Hk & Hp & Hph & Hpos & _). unfold recorded, record_step; simpl.
  rewrite !length_app; simpl. repeat split; try lia.
  rewrite app_nth2 by lia. now replace (m + 1 - length (positions_history h)) with 0 by lia.
Qed.

Lemma loop_steps (n : nat) :
  forall (m : nat) (st : sim_state F) (h h' : histories F),
    recorded m st h ->
    loop n st h = Ok h' ->
    exists (m' : nat) (st' : sim_state F),
      recorded m' st' h' /\ m <= m' <= m + n /\
      (forall s, s <= m -> nth s (positions_history h') [] = nth s (positions_history h) []) /\
      (forall s, m <= s < m' ->
         fltb (movement (nth (s + 1) (positions_history h') []) (nth s (positions_history h') [])) tol = true ->
         m' = s + 1) /\
      (m' < m + n ->
         exists s, m' = s + 1 /\ m <= s /\
           fltb (movement (nth (s + 1) (positions_history h') []) (nth s (positions_history h') [])) tol = true).
Proof.
  induction n as [|n IH]; intros m st h h' Hrec Hloop; simpl in Hloop.
  - injection Hloop as <-. exists m, st.
    split; [exact Hrec|]. split; [lia|]. split; [reflexivity|].
    split; intros; lia.
  - destruct (step st) as [o|e] eqn:Hstep; cbn [bind] in Hloop; [|discriminate].
    pose proof (recorded_step m st h o Hrec) as Hrec'.
    pose proof (step_movement st o Hstep) as Hmov.
    assert (Hold : forall s, s <= m ->
              nth s (positions_history (record_step o h)) [] = nth s (positions_history h) []).
    { intros s Hs. simpl. destruct Hrec as (_ & _ & _ & _ & Hlen & _).
      apply app_nth1. lia. }
    assert (Hnew : nth (m + 1) (positions_history (record_step o h)) [] = new_positions o).
    { destruct Hrec' as (_ & _ & _ & _ & _ & Hlast). exact Hlast. }
    assert (Hcur : nth m (positions_history (record_step o h)) [] = positions st).
    { rewrite Hold by lia. now destruct Hrec as (_ & _ & _ & _ & _ & Hlast). }
    destruct (fltb (total_movement o) tol) eqn:Hconv.
    + injection Hloop as <-. exists (m + 1), (advance o).
      split; [exact Hrec'|]. split; [lia|]. split; [exact Hold|]. split.
      * intros s Hs _. lia.
      * intros _. exists m. split; [reflexivity|]. split; [lia|].
        rewrite Hnew, Hcur, <- Hmov. exact Hconv.
    + destruct (IH (m + 1) (advance o) (record_step o h) h' Hrec' Hloop)
        as (m' & st' & Hrec'' & Hm' & Hpre & Hfirst & Hlast).
      exists m', st'.
      split; [exact Hrec''|]. split; [lia|]. split; [|split].
      * intros s Hs. rewrite Hpre by lia. apply Hold. lia.
      * intros s Hs Hc. destruct (Nat.eq_dec s m) as [->|Hne].
        -- rewrite (Hpre (m + 1)), (Hpre m), Hnew, Hcur, <- Hmov in Hc by lia. congruence.
        -- apply Hfirst; [lia | exact Hc].
      * intros Hlt. destruct Hlast as (s & Hs1 & Hs2 & Hs3); [lia|].
        exists s. split; [exact Hs1|]. split; [lia | exact Hs3].
Qed.

Local Abbreviation trace := (steps_run adj_matrix dim tol dt gamma gamma_theta K intrinsic_frequencies).

(** The histories of a run that returns are the histories it started with,
    followed by what the steps of its trace recorded. *)
Lemma loop_trace (n : nat) :
  forall (st : sim_state F) (h h' : histories F),
    loop n st h = Ok h' ->
    positions_history h' = positions_history h ++ map new_positions (trace n st) /\
    phase_history h' = phase_history h ++ map new_phases (trace n st) /\
    potential_energy_history h' =
      potential_energy_history h ++ map potential_energy (trace n st) /\
    kinetic_energy_history h' =
      kinetic_energy_history h ++ map kinetic_energy (trace n st) /\
    total_energy_history h' =
      total_energy_history h ++ map total_energy (trace n st).
Proof.
  induction n as [|n IH]; intros st h h' Hloop; simpl in Hloop |- *.
  - injection Hloop as <-. now rewrite !app_nil_r.
  - destruct (step st) as [o|e]; cbn [bind] in Hloop; [|discriminate].
    destruct (fltb (total_movement o) tol).
    + injection Hloop as <-. simpl. repeat split; reflexivity.
    + apply IH in Hloop as (Hp & Hph & Hpe & Hke & Hte).
      rewrite Hp, Hph, Hpe, Hke, Hte. simpl. rewrite <- !app_assoc. repeat split; reflexivity.
Qed.

(** Every entry of the trace is the output of a step; the first one starts
    from the state the loop was entered with. *)
Lemma trace_steps (n : nat) :
  forall st : sim_state F,
    Forall (fun o => exists st', step st' = Ok o) (trace n st).
Proof.
  induction n as [|n IH]; intros st; simpl; [constructor|].
  destruct (step st) as [o|e] eqn:Hstep; [|constructor].
  constructor; [eauto|]. destruct (fltb (total_movement o) tol); [constructor | apply IH].
Qed.

End LoopFacts.

(** ** The initial draws *)

Section DrawFacts.

Context {F : Type} {Sc : Scalar F} {Tr : Trig F} {G : Type} {Rng : NumpyRandom G F}.

Lemma draw_vec_length (draw : G -> F * G) (n : nat) (g : G) :
  length (fst (draw_vec draw n g)) = n.
Proof.
  revert g. induction n as [|n IH]; intros g; simpl; [reflexivity|].
  destruct (draw g) as [x g1]. specialize (IH g1).
  destruct (draw_vec draw n g1) as [xs g2]. simpl in *. now rewrite IH.
Qed.

Lemma draw_mat_rows (draw : G -> F * G) (rows cols : nat) (g : G) :
  length (fst (draw_mat draw rows cols g)) = rows /\
  Forall (fun r => length r = cols) (fst (draw_mat draw rows cols g)).
Proof.
  revert g. induction rows as [|rows IH]; intros g; simpl.
  - split; [reflexivity | constructor].
  - pose proof (draw_vec_length draw cols g) as Hr.
    destruct (draw_vec draw cols g) as [r g1]. specialize (IH g1).
    destruct (draw_mat draw rows cols g1) as [rs g2]. simpl in *.
    destruct IH as [Hlen Hrows]. split; [now rewrite Hlen | now constructor].
Qed.

(** The drawn positions are a [num_nodes] by [dim] array. *)
Lemma drawn_positions_rows (adj : mat F) (dim : nat) (g : G) :
  length (drawn_positions (fst (draw_initial adj dim g))) = num_nodes adj /\
  Forall (fun r => length r = dim) (drawn_positions (fst (draw_initial adj dim g))).
Proof.
  unfold draw_initial, np_random_rand.
  pose proof (draw_mat_rows random_sample (num_nodes adj) dim g) as Hm.
  destruct (draw_mat random_sample (num_nodes adj) dim g) as [pos g1].
  destruct (np_random_uniform _ _ _ g1) as [ph g2].
  destruct (np_random_normal _ _ _ g2) as [fr g3]. exact Hm.
Qed.

End DrawFacts.

(** ** The force law *)

Section ForceFacts.

Context {F : Type} {Sc : Scalar F}.
Variable adj_matrix : mat F.
Variable dim : nat.

Lemma shape_row (n d : nat) (a : mat F) (i : nat) :
  shape n d a -> i < n -> length (row a i) = d.
Proof.
  intros [Hn Hrows] Hi. unfold row.
  rewrite List.Forall_forall in Hrows. apply Hrows, nth_In. lia.
Qed.

Lemma shape_mzip (op : F -> F -> F) (n d : nat) (a b : mat F) :
  shape n d a -> shape n d b -> shape n d (mzip op a b).
Proof.
  intros [Ha Hra] [Hb Hrb]. unfold mzip. split.
  - rewrite length_map, length_combine. lia.
  - rewrite List.Forall_forall in *. intros r Hr. apply in_map_iff in Hr as ([u v] & <- & Hin).
    simpl. rewrite vzip_length.
    rewrite (Hra u), (Hrb v); [lia | | ].
    + eapply in_combine_r, Hin.
    + eapply in_combine_l, Hin.
Qed.

Lemma shape_mmap (f : F -> F) (n d : nat) (a : mat F) :
  shape n d a -> shape n d (mmap f a).
Proof.
  intros [Ha Hra]. unfold mmap. split.
  - now rewrite length_map.
  - rewrite List.Forall_forall in *. intros r Hr. apply in_map_iff in Hr as (u & <- & Hin).
    rewrite length_map. auto.
Qed.

Lemma row_mzip (op : F -> F -> F) (a b : mat F) (i : nat) :
  i < length a -> i < length b ->
  row (mzip op a b) i = vzip op (row a i) (row b i).
Proof.
  intros Ha Hb. unfold row, mzip.
  rewrite (nth_map_in _ _ _ ([], []) []) by (rewrite length_combine; lia).
  now rewrite nth_combine_in by lia.
Qed.

Lemma row_mmap (f : F -> F) (a : mat F) (i : nat) :
  i < length a -> row (mmap f a) i = map f (row a i).
Proof. intros Ha. unfold row, mmap. now rewrite (nth_map_in _ _ _ [] []). Qed.

Lemma entry_mzip (op : F -> F -> F) (n d : nat) (a b : mat F) (i j : nat) :
  shape n d a -> shape n d b -> i < n -> j < d ->
  entry (mzip op a b) i j = op (entry a i j) (entry b i j).
Proof.
  intros Ha Hb Hi Hj. unfold entry.
  rewrite row_mzip by (destruct Ha, Hb; lia).
  apply nth_vzip; [rewrite (shape_row n d a) | rewrite (shape_row n d b)]; auto.
Qed.

Lemma entry_mmap (f : F -> F) (n d : nat) (a : mat F) (i j : nat) :
  shape n d a -> i < n -> j < d -> entry (mmap f a) i j = f (entry a i j).
Proof.
  intros Ha Hi Hj. unfold entry.
  rewrite row_mmap by (destruct Ha; lia).
  apply nth_map_in. now rewrite (shape_row n d a).
Qed.

(** The floor assigned to the masked-out distances never reaches the sum:
    [forces[i]] is the sum of the selected rows, or the exception of [np.min]. *)
Lemma force_on_eq (positions : mat F) (i : nat) :
  force_on adj_matrix dim positions i =
  match far_distances positions i with
  | [] => Raise ValueError
  | _ :: _ => Ok (np_sum_axis0 dim (force_terms adj_matrix positions i))
  end.
Proof.
  unfold force_on, far_distances, force_terms.
  set (delta := map (fun p => vzip fsub p (row positions i)) positions).
  set (distances := norm_axis1 delta).
  set (mask := map (fun d => fltb ftiny d) distances).
  destruct (select mask distances) as [|d0 ds] eqn:Hsel; cbn [np_min bind]; [reflexivity|].
  now rewrite select_assign_unmasked, !select_combine.
Qed.

Lemma np_sum_axis0_length (d : nat) (a : mat F) :
  Forall (fun r => length r = d) a -> length (np_sum_axis0 d a) = d.
Proof.
  unfold np_sum_axis0. intros Ha.
  assert (Hacc : length (repeat fzero d) = d) by apply repeat_length.
  revert Hacc. generalize (repeat fzero d).
  induction Ha as [|r a Hr Ha IH]; intros acc Hacc; simpl; [exact Hacc|].
  apply IH. rewrite vzip_length. lia.
Qed.

Lemma force_terms_rows (n : nat) (positions : mat F) (i : nat) :
  shape n dim positions -> i < n ->
  Forall (fun r => length r = dim) (force_terms adj_matrix positions i).
Proof.
  intros Hpos Hi. unfold force_terms.
  rewrite <- select_map. apply select_Forall.
  rewrite List.Forall_forall. intros r Hr.
  apply in_map_iff in Hr as ([[w dl] ds] & <- & Hin). simpl. rewrite length_map.
  apply in_combine_l, in_combine_r in Hin.
  apply in_map_iff in Hin as (p & <- & Hp).
  rewrite vzip_length, (shape_row n dim positions i) by assumption.
  destruct Hpos as [_ Hrows]. rewrite List.Forall_forall in Hrows. rewrite (Hrows p Hp). lia.
Qed.

(** The forces of a call that returns: an array of the shape of [positions]
    whose row [i] is what the loop body computed for [i]. *)
Lemma calculate_forces_inv (positions forces : mat F) :
  calculate_forces adj_matrix dim positions = Ok forces ->
  shape (num_nodes adj_matrix) dim positions ->
  shape (num_nodes adj_matrix) dim forces /\
  forall i, i < num_nodes adj_matrix ->
    far_distances positions i <> [] /\
    row forces i = np_sum_axis0 dim (force_terms adj_matrix positions i).
Proof.
  unfold calculate_forces. intros Hrun Hpos.
  apply for_each_rows_ok in Hrun as (Hlen & Hin & _).
  rewrite !length_map in Hlen. rewrite !length_map in Hin.
  assert (Hrows : forall i, i < num_nodes adj_matrix ->
            far_distances positions i <> [] /\
            row forces i = np_sum_axis0 dim (force_terms adj_matrix positions i)).
  { intros i Hi. destruct (Hin i) as (v & Hv & Hlook); [lia|].
    rewrite force_on_eq in Hv. destruct (far_distances positions i); [discriminate|].
    injection Hv as <-. split; [discriminate|].
    unfold row. apply nth_lookup_Some with (d := []) in Hlook; [exact Hlook|].
    destruct Hpos; lia. }
  split; [|exact Hrows]. destruct Hpos as [Hn Hr]. split; [lia|].
  rewrite List.Forall_forall. intros r Hr'.
  apply In_nth with (d := []) in Hr' as (i & Hi & <-).
  fold (row forces i). destruct (Hrows i) as [_ ->]; [lia|].
  apply np_sum_axis0_length, (force_terms_rows (num_nodes adj_matrix)); [split; auto | lia].
Qed.

(** [calculate_forces] returns exactly when every node has a node further
    than [1e-6] away. *)
Lemma calculate_forces_returns (positions : mat F) :
  (forall i, i < num_nodes adj_matrix -> far_distances positions i <> []) ->
  exists forces, calculate_forces adj_matrix dim positions = Ok forces.
Proof.
  intros Hfar. unfold calculate_forces. apply for_each_rows_total.
  intros i Hi. rewrite force_on_eq. specialize (Hfar i ltac:(lia)).
  destruct (far_distances positions i); [congruence|]. eauto.
Qed.

Lemma calculate_forces_raises (positions : mat F) (i : nat) :
  i < num_nodes adj_matrix -> far_distances positions i = [] ->
  calculate_forces adj_matrix dim positions = Raise ValueError.
Proof.
  intros Hi Hfar. unfold calculate_forces.
  apply (for_each_rows_raise _ _ _ _ i); [lia|]. now rewrite force_on_eq, Hfar.
Qed.

End ForceFacts.

(** ** One step, entry by entry *)

Section StepFacts.

Context {F : Type} {Sc : Scalar F} {Tr : Trig F}.
Variable adj_matrix : mat F.
Variable dim : nat.
Variables (dt gamma gamma_theta K : F).
Variable intrinsic_frequencies : vec F.

Local Abbreviation N := (num_nodes adj_matrix).

Lemma phase_coupling_length (ph : vec F) : length (phase_coupling adj_matrix ph) = N.
Proof. unfold phase_coupling. now rewrite length_map, length_seq. Qed.

Lemma phase_step_lengths (ph pv : vec F) :
  length ph = N -> length pv = N -> length intrinsic_frequencies = N ->
  length (fst (phase_step adj_matrix dt gamma_theta K intrinsic_frequencies ph pv)) = N /\
  length (snd (phase_step adj_matrix dt gamma_theta K intrinsic_frequencies ph pv)) = N.
Proof.
  intros Hph Hpv Hfr. unfold phase_step; cbn [fst snd].
  rewrite !vzip_length, !length_map, !vzip_length, !length_map, !vzip_length,
    !length_map, phase_coupling_length. lia.
Qed.

(** The phase update of node [i], with the association of the source. *)
Lemma phase_step_nth (ph pv : vec F) (i : nat) :
  length ph = N -> length pv = N -> length intrinsic_frequencies = N -> i < N ->
  let pv' := fst (phase_step adj_matrix dt gamma_theta K intrinsic_frequencies ph pv) in
  let ph' := snd (phase_step adj_matrix dt gamma_theta K intrinsic_frequencies ph pv) in
  nth i pv' fzero =
    fadd (nth i pv fzero)
      (fmul (fsub (fadd (nth i intrinsic_frequencies fzero)
                        (fmul K (nth i (phase_coupling adj_matrix ph) fzero)))
                  (fmul gamma_theta (nth i pv fzero))) dt) /\
  nth i ph' fzero = fadd (nth i ph fzero) (fmul (nth i pv' fzero) dt).
Proof.
  intros Hph Hpv Hfr Hi pv' ph'.
  assert (Hpv' : nth i pv' fzero =
    fadd (nth i pv fzero)
      (fmul (fsub (fadd (nth i intrinsic_frequencies fzero)
                        (fmul K (nth i (phase_coupling adj_matrix ph) fzero)))
                  (fmul gamma_theta (nth i pv fzero))) dt)).
  { unfold pv', phase_step; cbn [fst].
    pose proof (phase_coupling_length ph) as Hc.
    rewrite nth_vzip;
      [| lia | rewrite length_map, vzip_length, vzip_length, !length_map; lia].
    rewrite (nth_map_in _ _ _ fzero fzero)
      by (rewrite vzip_length, vzip_length, !length_map; lia).
    rewrite nth_vzip by (rewrite ?vzip_length, ?length_map; lia).
    rewrite nth_vzip by (rewrite ?length_map; lia).
    rewrite !(nth_map_in _ _ _ fzero fzero) by lia. reflexivity. }
  split; [exact Hpv'|].
  clear Hpv'. unfold ph', pv', phase_step; cbn [fst snd].
  destruct (phase_step_lengths ph pv Hph Hpv Hfr) as [Hl _].
  unfold phase_step in Hl; cbn [fst] in Hl.
  rewrite nth_vzip by (rewrite ?length_map; lia).
  now rewrite (nth_map_in _ _ _ fzero fzero) by lia.
Qed.

(** The velocity and position update of coordinate [c] of node [i], with the
    association of the source. *)
Lemma spatial_step_entry (st : sim_state F) (o : step_out F) (forces : mat F) (i c : nat) :
  sim_step adj_matrix dim dt gamma gamma_theta K intrinsic_frequencies st = Ok o ->
  calculate_forces adj_matrix dim (positions st) = Ok forces ->
  shape N dim (positions st) -> shape N dim (velocities st) ->
  i < N -> c < dim ->
  shape N dim (new_velocities o) /\ shape N dim (new_positions o) /\
  entry (new_velocities o) i c =
    fadd (entry (velocities st) i c)
         (fsub (fmul (entry forces i c) dt) (fmul gamma (entry (velocities st) i c))) /\
  entry (new_positions o) i c =
    fadd (entry (positions st) i c) (fmul (entry (new_velocities o) i c) dt).
Proof.
  intros Hstep Hf Hpos Hvel Hi Hc.
  apply sim_step_inv in Hstep as (f' & Hf' & Hv & Hp & _).
  rewrite Hf in Hf'. injection Hf' as <-.
  destruct (calculate_forces_inv _ _ _ _ Hf Hpos) as [Hfs _].
  assert (Hrhs : shape N dim (mzip fsub (mmap (fun a => fmul a dt) forces)
                                        (mmap (fun v => fmul gamma v) (velocities st))))
    by (apply shape_mzip; apply shape_mmap; assumption).
  assert (Hv' : shape N dim (new_velocities o))
    by (rewrite Hv; apply shape_mzip; assumption).
  assert (Hscaled : shape N dim (mmap (fun v => fmul v dt) (new_velocities o)))
    by (apply shape_mmap; assumption).
  split; [exact Hv'|]. split; [rewrite Hp; apply shape_mzip; assumption|]. split.
  - rewrite Hv.
    rewrite (entry_mzip _ N dim) by assumption.
    rewrite (entry_mzip _ N dim) by (try apply shape_mmap; assumption).
    now rewrite !(entry_mmap _ N dim) by assumption.
  - rewrite Hp.
    rewrite (entry_mzip _ N dim) by assumption.
    now rewrite (entry_mmap _ N dim) by assumption.
Qed.

End StepFacts.

(** ** Exact arithmetic: the real-number carrier *)

Section RealFacts.

Local Open Scope R_scope.

Lemma fltb_R_true (x y : R) : x < y -> fltb x y = true.
Proof. intros Hlt. simpl. now destruct (Rlt_dec x y). Qed.

Lemma fltb_R_false (x y : R) : ~ x < y -> fltb x y = false.
Proof. intros Hge. simpl. now destruct (Rlt_dec x y). Qed.

Lemma fltb_R_iff (x y : R) : fltb x y = true <-> x < y.
Proof. simpl. destruct (Rlt_dec x y); split; auto; discriminate. Qed.

Lemma ftiny_R_pos : 0 < @ftiny R _.
Proof. simpl. lra. Qed.

Lemma fold_left_Rplus (l : list R) (a : R) :
  fold_left Rplus l a = a + fold_left Rplus l 0.
Proof.
  revert a. induction l as [|x l IH]; intros a; simpl; [lra|].
  rewrite (IH (a + x)), (IH (0 + x)). lra.
Qed.

Lemma np_sum_cons (x : R) (l : list R) : np_sum (x :: l) = x + np_sum l.
Proof. unfold np_sum. simpl. rewrite fold_left_Rplus. lra. Qed.

Lemma np_sum_nil : @np_sum R _ [] = 0.
Proof. reflexivity. Qed.

Lemma np_sum_app (l1 l2 : list R) : np_sum (l1 ++ l2) = np_sum l1 + np_sum l2.
Proof.
  induction l1 as [|x l1 IH]; simpl.
  - rewrite np_sum_nil. lra.
  - rewrite !np_sum_cons, IH. lra.
Qed.

Lemma np_sum_nonneg (l : list R) : Forall (fun x => 0 <= x) l -> 0 <= np_sum l.
Proof.
  induction 1 as [|x l Hx Hl IH]; [rewrite np_sum_nil; lra|].
  rewrite np_sum_cons. lra.
Qed.

Lemma np_sum_zeros (l : list R) : Forall (fun x => x = 0) l -> np_sum l = 0.
Proof.
  induction 1 as [|x l Hx Hl IH]; [apply np_sum_nil|].
  rewrite np_sum_cons. lra.
Qed.

Lemma np_sum_map_ext {A : Type} (f g : A -> R) (l : list A) :
  (forall x, In x l -> f x = g x) -> np_sum (map f l) = np_sum (map g l).
Proof. intros Hfg. f_equal. now apply map_ext_in. Qed.

Lemma squares_nonneg (v : vec R) : 0 <= np_sum (map (fun x => x * x) v).
Proof.
  apply np_sum_nonneg, List.Forall_forall. intros y Hy.
  apply in_map_iff in Hy as (x & <- & _). nra.
Qed.

Lemma norm_nonneg (v : vec R) : 0 <= norm v.
Proof. unfold norm. simpl. apply sqrt_pos. Qed.

Lemma norm_sq (v : vec R) : norm v * norm v = np_sum (map (fun x => x * x) v).
Proof. unfold norm. simpl. apply sqrt_sqrt, squares_nonneg. Qed.

(** [‖u − v‖ = ‖v − u‖]. *)
Lemma norm_sub_sym (u v : vec R) : norm (vzip fsub u v) = norm (vzip fsub v u).
Proof.
  unfold norm. f_equal. f_equal. unfold vzip. rewrite !map_map.
  revert v. induction u as [|x u IH]; intros [|y v]; simpl; try reflexivity.
  f_equal; [lra | apply IH].
Qed.

Lemma norm_sub_self (v : vec R) : norm (vzip fsub v v) = 0.
Proof.
  unfold norm. replace (np_sum _) with 0; [apply sqrt_0|]. symmetry.
  apply np_sum_zeros, List.Forall_forall. intros y Hy.
  apply in_map_iff in Hy as (x & <- & Hx). unfold vzip in Hx.
  apply in_map_iff in Hx as ([a b] & <- & Hab). simpl.
  assert (a = b) as ->; [|lra].
  clear -Hab. induction v as [|c v IH]; simpl in Hab; [contradiction|].
  destruct Hab as [[= -> ->]|Hab]; auto.
Qed.

(** Python's [max] on reals. *)
Lemma py_max_R (a b : R) : py_max a b = Rmax a b.
Proof.
  unfold py_max, Rmax. simpl.
  destruct (Rlt_dec a b), (Rle_dec a b); try reflexivity; lra.
Qed.

End RealFacts.

(** ** The integrator *)

Section Integrator.

Local Open Scope R_scope.

Lemma select_mask_nonempty {A : Type} (f : A -> bool) (l : list A) (x : A) :
  In x l -> f x = true -> select (map f l) l <> [].
Proof.
  induction l as [|y l IH]; simpl; [contradiction|].
  intros [->|Hin] Hx.
  - rewrite Hx. discriminate.
  - destruct (f y); [discriminate | auto].
Qed.

(** A node further than [1e-6] from node [i] keeps the selection non-empty. *)
Lemma far_distances_nonempty (positions : mat R) (i j : nat) :
  (j < length positions)%nat ->
  ftiny < norm (vzip fsub (row positions j) (row positions i)) ->
  far_distances positions i <> [].
Proof.
  intros Hj Hfar. unfold far_distances, norm_axis1.
  apply (select_mask_nonempty _ _ (norm (vzip fsub (row positions j) (row positions i)))).
  - rewrite map_map. apply in_map_iff. exists (row positions j). split; [reflexivity|].
    apply nth_In. exact Hj.
  - now apply fltb_R_true.
Qed.

Lemma sim_step_returns (adj : mat R) (dim : nat) (dt gamma gamma_theta K : R)
    (freqs : vec R) (st : sim_state R) :
  (forall i, (i < num_nodes adj)%nat -> far_distances (positions st) i <> []) ->
  exists o, sim_step adj dim dt gamma gamma_theta K freqs st = Ok o.
Proof.
  intros Hfar. destruct (calculate_forces_returns adj dim _ Hfar) as [f Hf].
  unfold sim_step. rewrite Hf. cbn [bind].
  destruct (phase_step adj dt gamma_theta K freqs (phases st) (phase_velocities st)).
  eauto.
Qed.

Lemma norm_singleton (x : R) : norm [x] = Rabs x.
Proof.
  unfold norm, np_sum. simpl. replace (0 + x * x) with (x²) by (unfold Rsqr; lra).
  apply sqrt_Rsqr_abs.
Qed.

Lemma unit_pair_far (i : nat) :
  (i < 2)%nat -> far_distances (positions unit_pair) i <> [].
Proof.
  intros Hi. destruct i as [|[|i]]; [| |lia].
  - apply (far_distances_nonempty _ 0 1); [simpl; lia|].
    cbn -[norm]. rewrite norm_singleton. replace (1 - 0) with 1 by lra.
    rewrite Rabs_R1. lra.
  - apply (far_distances_nonempty _ 1 0); [simpl; lia|].
    cbn -[norm]. rewrite norm_singleton. replace (0 - 1) with (- (1)) by lra.
    rewrite Rabs_Ropp, Rabs_R1. lra.
Qed.

(** C3. One step of the integrator, for every state: each velocity
    coordinate becomes velocity + force*dt - gamma*velocity and each position
    coordinate becomes position + (new velocity)*dt; the phase acceleration of
    node i is intrinsic_frequency_i + K*coupling_i - gamma_theta*phase_velocity_i,
    the phase velocity becomes phase_velocity + acceleration*dt and the phase
    becomes phase + (new phase velocity)*dt.  Both damping terms multiply the
    velocity the step started from. *)
Theorem integrator_one_step
    (adj : mat R) (dim : nat) (dt gamma gamma_theta K : R) (freqs : vec R)
    (st : sim_state R) (o : step_out R) :
  sim_step adj dim dt gamma gamma_theta K freqs st = Ok o ->
  shape (num_nodes adj) dim (positions st) ->
  shape (num_nodes adj) dim (velocities st) ->
  length (phases st) = num_nodes adj ->
  length (phase_velocities st) = num_nodes adj ->
  length freqs = num_nodes adj ->
  exists force : mat R,
    calculate_forces adj dim (positions st) = Ok force /\
    (forall i c, (i < num_nodes adj)%nat -> (c < dim)%nat ->
       entry (new_velocities o) i c =
         entry (velocities st) i c + entry force i c * dt - gamma * entry (velocities st) i c /\
       entry (new_positions o) i c =
         entry (positions st) i c + entry (new_velocities o) i c * dt) /\
    (forall i, (i < num_nodes adj)%nat ->
       let coupling := nth i (phase_coupling adj (phases st)) 0 in
       let phase_acceleration :=
         nth i freqs 0 + K * coupling - gamma_theta * nth i (phase_velocities st) 0 in
       nth i (new_phase_velocities o) 0 =
         nth i (phase_velocities st) 0 + phase_acceleration * dt /\
       nth i (new_phases o) 0 =
         nth i (phases st) 0 + nth i (new_phase_velocities o) 0 * dt).
Proof.
  intros Hstep Hpos Hvel Hph Hpv Hfr.
  destruct (sim_step_inv _ _ _ _ _ _ _ _ _ Hstep) as (force & Hforce & _ & _ & Hphase & _).
  exists force. split; [exact Hforce|]. split.
  - intros i c Hi Hc.
    destruct (spatial_step_entry _ _ _ _ _ _ _ _ _ _ i c Hstep Hforce Hpos Hvel Hi Hc)
      as (_ & _ & Hv & Hp).
    rewrite Hp, Hv. simpl. split; lra.
  - intros i Hi.
    pose proof (phase_step_nth adj dt gamma_theta K freqs _ _ i Hph Hpv Hfr Hi) as Hnth.
    rewrite <- Hphase in Hnth. cbn [fst snd] in Hnth. exact Hnth.
Qed.

Lemma integrator_one_step_witness :
  exists o force,
    sim_step (pair_network 1) 1 (/ 100) 1 (/ 10) (/ 2) [0; 0] unit_pair = Ok o /\
    calculate_forces (pair_network 1) 1 (positions unit_pair) = Ok force /\
    entry (new_velocities o) 0 0 = 0 + entry force 0 0 * / 100 - 1 * 0.
Proof.
  destruct (sim_step_returns (pair_network 1) 1 (/ 100) 1 (/ 10) (/ 2) [0; 0] unit_pair
              unit_pair_far) as [o Ho].
  destruct (integrator_one_step (pair_network 1) 1 (/ 100) 1 (/ 10) (/ 2) [0; 0] unit_pair o Ho)
    as (force & Hforce & Hspace & _).
  - split; [reflexivity | repeat constructor].
  - split; [reflexivity | repeat constructor].
  - reflexivity.
  - reflexivity.
  - reflexivity.
  - exists o, force. split; [exact Ho|]. split; [exact Hforce|].
    destruct (Hspace 0%nat 0%nat) as [Hv _]; [simpl; lia | lia | exact Hv].
Defined.

End Integrator.

(** ** Early stopping and the lengths of the histories *)

Section Convergence.

Lemma loop_one_returns {F : Type} {Sc : Scalar F} {Tr : Trig F}
    (adj : mat F) (dim : nat) (tol dt gamma gamma_theta K : F) (freqs : vec F)
    (st : sim_state F) (h : histories F) (o : step_out F) :
  sim_step adj dim dt gamma gamma_theta K freqs st = Ok o ->
  exists h', simulation_loop adj dim tol dt gamma gamma_theta K freqs 1 st h = Ok h'.
Proof.
  intros Hstep. simpl. rewrite Hstep. cbn [bind].
  destruct (fltb (total_movement o) tol); eauto.
Qed.


Lemma counter_pair_far (w : R) (i : nat) :
  i < 2 ->
  far_distances
    (drawn_positions (fst (draw_initial (Rng := counter_random) (pair_network w) 1
                             (random_seed (NumpyRandom := counter_random) 0%Z)))) i
  <> [].
Proof.
  intros Hi. destruct i as [|[|i]]; [| |lia].
  - apply (far_distances_nonempty _ 0 1); [simpl; lia|].
    cbn -[norm]. change (IZR (0 + 1)) with 1%R.
    rewrite norm_singleton. rewrite Rabs_pos_eq; lra.
  - apply (far_distances_nonempty _ 1 0); [simpl; lia|].
    cbn -[norm]. change (IZR (0 + 1)) with 1%R. rewrite norm_singleton.
    replace (0 / 8 - 1 / 8)%R with (- (1 / 8))%R by lra.
    rewrite Rabs_Ropp, Rabs_pos_eq; lra.
Qed.

Lemma counter_pair_returns (w tol : R) :
  exists h,
    HONE_worker_with_damped_kuramoto (Rng := counter_random)
      (pair_network w) 1 1 tol 0 (/ 100)%R 1%R (/ 10)%R (/ 2)%R = Ok h.
Proof.
  unfold HONE_worker_with_damped_kuramoto, simulate.
  change (Z.to_nat 1) with 1.
  edestruct (sim_step_returns (pair_network w) 1 (/ 100)%R 1%R (/ 10)%R (/ 2)%R) as [o Ho];
    [| eapply loop_one_returns, Ho].
  exact (counter_pair_far w).
Qed.


End Convergence.

(** ** Energy bookkeeping *)

Section Energy.

Local Open Scope R_scope.

Lemma np_sum_flat_map_snoc {A : Type} (l : A -> list R) (x : A -> R) (xs : list A) :
  np_sum (flat_map (fun i => l i ++ [x i]) xs) =
  np_sum (flat_map l xs) + np_sum (map x xs).
Proof.
  induction xs as [|a xs IH]; simpl.
  - rewrite !np_sum_nil. lra.
  - rewrite !np_sum_app, IH, !np_sum_cons, np_sum_nil. lra.
Qed.

Lemma flat_map_ext_in {A B : Type} (f g : A -> list B) (xs : list A) :
  (forall a, In a xs -> f a = g a) -> flat_map f xs = flat_map g xs.
Proof.
  induction xs as [|a xs IH]; intros Hfg; simpl; [reflexivity|].
  rewrite Hfg by (now left). f_equal. apply IH. intros b Hb. apply Hfg. now right.
Qed.

(** Summing a symmetric function over the pairs below the diagonal, row by
    row, or over the pairs above it, gives the same total. *)
Lemma triangle_sum_swap (g : nat -> nat -> R) (n : nat) :
  (forall i j, (i < n)%nat -> (j < n)%nat -> g i j = g j i) ->
  np_sum (flat_map (fun i => map (g i) (seq 0 i)) (seq 0 n)) =
  np_sum (flat_map (fun i => map (g i) (seq (S i) (n - S i))) (seq 0 n)).
Proof.
  induction n as [|n IH]; intros Hsym; [reflexivity|].
  rewrite seq_S, !flat_map_app, !np_sum_app. cbn [flat_map Nat.add].
  rewrite !app_nil_r. replace (S n - S n)%nat with 0%nat by lia. cbn [seq map].
  rewrite np_sum_nil, Rplus_0_r.
  rewrite (flat_map_ext_in
             (fun i => map (g i) (seq (S i) (S n - S i)))
             (fun i => map (g i) (seq (S i) (n - S i)) ++ [g i n])).
  - rewrite np_sum_flat_map_snoc, IH by (intros; apply Hsym; lia).
    f_equal. apply np_sum_map_ext. intros j Hj. apply in_seq in Hj. apply Hsym; lia.
  - intros i Hi. apply in_seq in Hi.
    replace (S n - S i)%nat with (S (n - S i)) by lia.
    rewrite seq_S, map_app. cbn [map]. repeat f_equal. lia.
Qed.

(** On a symmetric matrix the source's potential is the specified one. *)
Lemma compute_potential_energy_spec (adj positions : mat R) :
  symmetric adj -> compute_potential_energy adj positions = potential_spec adj positions.
Proof.
  intros Hsym. unfold compute_potential_energy, potential_spec.
  change (@fmul R _) with Rmult. change (@fhalf R _) with (/ 2). f_equal.
  rewrite <- (triangle_sum_swap
    (fun i j => entry adj i j *
                (Rmax (norm (vzip fsub (row positions i) (row positions j))) (/ 1000000)) ^ 2)).
  - f_equal. apply flat_map_ext_in. intros i _. apply map_ext. intros j.
    rewrite py_max_R. change (@ftiny R _) with (/ 1000000). cbv zeta. ring.
  - intros i j Hi Hj. rewrite (Hsym i j Hi Hj), (norm_sub_sym (row positions i)). reflexivity.
Qed.

Lemma compute_potential_energy_nonneg (adj positions : mat R) :
  nonnegative adj -> 0 <= compute_potential_energy adj positions.
Proof.
  intros Hpos. unfold compute_potential_energy.
  change (@fmul R _) with Rmult. change (@fhalf R _) with (/ 2).
  apply Rmult_le_pos; [lra|]. apply np_sum_nonneg, List.Forall_forall.
  intros x Hx. apply in_flat_map in Hx as (i & _ & Hx).
  apply in_map_iff in Hx as (j & <- & _). cbv zeta.
  apply Rmult_le_pos; [apply Hpos | nra].
Qed.

(** C7. For every recorded step [t] of a realization that returns, with [o]
    the output of that step: the kinetic energy is half the sum over the nodes
    of the squared norm of the updated velocity, the potential energy is the
    specified sum over the pairs [i < j] at the updated positions (which are
    the snapshot recorded at [t + 1]), it is nonnegative when the adjacency
    is, and the total is kinetic plus potential.  The adjacency is the
    symmetric matrix of an undirected graph. *)
Theorem energy_bookkeeping
    {G : Type} {Rng : NumpyRandom G R}
    (adj : mat R) (dim : nat) (iterations : Z) (tol : R) (seed : Z)
    (dt gamma gamma_theta K : R) (h : histories R) :
  HONE_worker_with_damped_kuramoto (G := G) adj dim iterations tol seed dt gamma gamma_theta K
    = Ok h ->
  symmetric adj ->
  let os := worker_steps (G := G) adj dim iterations tol seed dt gamma gamma_theta K in
  length os = length (total_energy_history h) /\
  forall t o, nth_error os t = Some o ->
    nth (S t) (positions_history h) [] = new_positions o /\
    nth t (kinetic_energy_history h) 0 =
      / 2 * np_sum (map (fun v => norm v ^ 2) (new_velocities o)) /\
    nth t (potential_energy_history h) 0 = potential_spec adj (new_positions o) /\
    (nonnegative adj -> 0 <= nth t (potential_energy_history h) 0) /\
    nth t (total_energy_history h) 0 =
      nth t (kinetic_energy_history h) 0 + nth t (potential_energy_history h) 0.
Proof.
  unfold HONE_worker_with_damped_kuramoto, simulate, worker_steps. intros Hrun Hsym.
  set (d := fst (draw_initial adj dim (random_seed seed))) in *.
  pose proof (trace_steps adj dim tol dt gamma gamma_theta K (drawn_frequencies d)
                (Z.to_nat iterations) (initial_state adj d)) as Hsteps.
  apply loop_trace in Hrun as (Hp & _ & Hpe & Hke & Hte).
  cbn [initial_histories positions_history potential_energy_history
       kinetic_energy_history total_energy_history app] in Hp, Hpe, Hke, Hte.
  cbv zeta. rewrite Hp, Hpe, Hke, Hte, length_map. split; [reflexivity|].
  intros t o Ht.
  rewrite List.Forall_forall in Hsteps.
  destruct (Hsteps o (nth_error_In _ _ Ht)) as (st' & Hstep).
  apply sim_step_inv in Hstep as (_ & _ & _ & _ & _ & Hk & Hpot & Htot & _).
  cbn [nth].
  rewrite (nth_error_nth _ _ [] (map_nth_error new_positions _ _ Ht)).
  rewrite (nth_error_nth _ _ 0 (map_nth_error kinetic_energy _ _ Ht)).
  rewrite (nth_error_nth _ _ 0 (map_nth_error potential_energy _ _ Ht)).
  rewrite (nth_error_nth _ _ 0 (map_nth_error total_energy _ _ Ht)).
  split; [reflexivity|]. split.
  { rewrite Hk. unfold norm_axis1. rewrite map_map.
    change (@fmul R _) with Rmult. change (@fhalf R _) with (/ 2). f_equal.
    apply np_sum_map_ext. intros v _. ring. }
  split; [rewrite Hpot; now apply compute_potential_energy_spec|].
  split; [intros Hnn; rewrite Hpot; now apply compute_potential_energy_nonneg|].
  exact Htot.
Qed.

Lemma pair_network_symmetric (w : R) : symmetric (pair_network w).
Proof.
  intros i j Hi Hj. change (num_nodes (pair_network w)) with 2%nat in Hi, Hj.
  destruct i as [|[|i]], j as [|[|j]]; try lia; reflexivity.
Qed.

Lemma energy_bookkeeping_witness :
  exists h,
    HONE_worker_with_damped_kuramoto (Rng := counter_random)
      (pair_network 1) 1 1 (/ 10000) 0 (/ 100) 1 (/ 10) (/ 2) = Ok h /\
    symmetric (pair_network 1) /\
    length (worker_steps (Rng := counter_random)
              (pair_network 1) 1 1 (/ 10000) 0 (/ 100) 1 (/ 10) (/ 2))
    = length (total_energy_history h).
Proof.
  destruct (counter_pair_returns 1 (/ 10000)) as [h Hh]. exists h.
  split; [exact Hh|]. split; [apply pair_network_symmetric|].
  exact (proj1 (energy_bookkeeping (Rng := counter_random) _ _ _ _ _ _ _ _ _ h Hh
                  (pair_network_symmetric 1))).
Defined.

End Energy.

(** ** Decoupled phases *)

Section Decoupled.

Local Open Scope R_scope.

(** C9, as the program has it. With [K = 0] the phase update of a node reads
    only that node's own phase, phase velocity and intrinsic frequency: the
    phases are independent damped driven oscillators.  From zero phase
    velocity, the phase velocity after the update is [f*h] and the phase is
    its initial value plus [f*h^2]. *)
Theorem decoupled_phase_update
    (adj : mat R) (h g : R) (freqs ph pv : vec R) (i : nat) :
  length ph = num_nodes adj -> length pv = num_nodes adj ->
  length freqs = num_nodes adj -> (i < num_nodes adj)%nat ->
  let pv' := fst (phase_step adj h g 0 freqs ph pv) in
  let ph' := snd (phase_step adj h g 0 freqs ph pv) in
  nth i pv' 0 = nth i pv 0 + (nth i freqs 0 - g * nth i pv 0) * h /\
  nth i ph' 0 = nth i ph 0 + nth i pv' 0 * h /\
  (nth i pv 0 = 0 ->
   nth i pv' 0 = nth i freqs 0 * h /\ nth i ph' 0 = nth i ph 0 + nth i freqs 0 * h ^ 2).
Proof.
  intros Hph Hpv Hfr Hi pv' ph'.
  destruct (phase_step_nth adj h g 0 freqs ph pv i Hph Hpv Hfr Hi) as [Hv Hp].
  fold pv' in Hv, Hp. fold ph' in Hp. simpl in Hv, Hp.
  assert (Hv' : nth i pv' 0 = nth i pv 0 + (nth i freqs 0 - g * nth i pv 0) * h)
    by (rewrite Hv; ring).
  split; [exact Hv'|]. split; [exact Hp|].
  intros Hrest. rewrite Hp, Hv', Hrest. split; ring.
Qed.

Lemma decoupled_phase_update_witness :
  let pv' := fst (phase_step (pair_network 1) (/ 2) (/ 10) 0 [3; 4] [1; 2] [0; 0]) in
  let ph' := snd (phase_step (pair_network 1) (/ 2) (/ 10) 0 [3; 4] [1; 2] [0; 0]) in
  nth 0 pv' 0 = 3 * / 2 /\ nth 0 ph' 0 = 1 + 3 * (/ 2) ^ 2.
Proof.
  exact (proj2 (proj2 (decoupled_phase_update (pair_network 1) (/ 2) (/ 10)
                         [3; 4] [1; 2] [0; 0] 0%nat
                         eq_refl eq_refl eq_refl (Nat.lt_0_succ 1))) eq_refl).
Defined.

(** C9 as stated fails, on a run of the worker.  Two nodes joined by an
    edge, [K = 0], [dt = 1], seed 0: the first step returns; node 0 has
    intrinsic frequency [f = 4], initial phase [pi/2] and zero initial phase
    velocity.  After the step its phase velocity is [f*h = 4], as claimed, but
    its phase, the second entry of the returned phase history, is
    [pi/2 + f*h^2], not [f*h^2]. *)
Lemma pair_phase_counterexample :
  let f := 4 in
  let h := 1 in
  let d := fst (draw_initial (Rng := counter_random) (pair_network 1) 1
                  (random_seed (NumpyRandom := counter_random) 0%Z)) in
  exists (o : step_out R) (hist : histories R),
    sim_step (pair_network 1) 1 h 1 (/ 10) 0 (drawn_frequencies d)
      (initial_state (pair_network 1) d) = Ok o /\
    HONE_worker_with_damped_kuramoto (Rng := counter_random)
      (pair_network 1) 1 1 (/ 10000) 0 h 1 (/ 10) 0 = Ok hist /\
    nth 0 (drawn_frequencies d) 0 = f /\
    nth 0 (phase_velocities (initial_state (pair_network 1) d)) 0 = 0 /\
    nth 0 (nth 0 (phase_history hist) []) 0 = PI / 2 /\
    nth 1 (phase_history hist) [] = new_phases o /\
    nth 0 (new_phase_velocities o) 0 = f * h /\
    nth 0 (nth 1 (phase_history hist) []) 0 = PI / 2 + f * h ^ 2 /\
    nth 0 (nth 1 (phase_history hist) []) 0 <> f * h ^ 2.
Proof.
  cbv zeta.
  set (d := fst (draw_initial (Rng := counter_random) (pair_network 1) 1
                   (random_seed (NumpyRandom := counter_random) 0%Z))).
  destruct (sim_step_returns (pair_network 1) 1 1 1 (/ 10) 0 (drawn_frequencies d)
              (initial_state (pair_network 1) d) (counter_pair_far 1)) as [o Ho].
  destruct (phase_step_nth (pair_network 1) 1 (/ 10) 0 (drawn_frequencies d)
              (phases (initial_state (pair_network 1) d))
              (phase_velocities (initial_state (pair_network 1) d)) 0%nat
              eq_refl eq_refl eq_refl (Nat.lt_0_succ 1)) as [Hv Hp].
  destruct (sim_step_inv _ _ _ _ _ _ _ _ _ Ho) as (_ & _ & _ & _ & Hphase & _).
  rewrite <- Hphase in Hv, Hp. cbn [fst snd] in Hv, Hp.
  assert (Hf : nth 0 (drawn_frequencies d) 0 = 4).
  { change (nth 0 (drawn_frequencies d) 0) with (0 + 1 * IZR 4). lra. }
  assert (Hph0 : nth 0 (phases (initial_state (pair_network 1) d)) 0 = PI / 2).
  { change (nth 0 (phases (initial_state (pair_network 1) d)) 0)
      with (0 + ((1 + 1) * PI - 0) * (IZR 2 / 8)). lra. }
  assert (Hpv0 : nth 0 (phase_velocities (initial_state (pair_network 1) d)) 0 = 0)
    by reflexivity.
  assert (Hv' : nth 0 (new_phase_velocities o) 0 = 4 * 1).
  { etransitivity; [exact Hv|]. change (@fzero R _) with 0 in *.
    rewrite Hpv0, Hf. simpl. lra. }
  assert (Hp' : nth 0 (new_phases o) 0 = PI / 2 + 4 * 1 ^ 2).
  { etransitivity; [exact Hp|]. change (@fzero R _) with 0 in *.
    rewrite Hph0, Hv'. simpl. lra. }
  exists o.
  exists (record_step o (initial_histories d)).
  split; [exact Ho|]. split.
  { unfold HONE_worker_with_damped_kuramoto, simulate. fold d.
    change (Z.to_nat 1) with 1%nat. cbn [simulation_loop]. rewrite Ho. cbn [bind].
    destruct (fltb (total_movement o) (/ 10000)); reflexivity. }
  split; [exact Hf|]. split; [exact Hpv0|]. split; [exact Hph0|].
  split; [reflexivity|]. split; [exact Hv'|].
  change (nth 1 (phase_history (record_step o (initial_histories d))) [])
    with (new_phases o).
  split; [exact Hp'|]. rewrite Hp'. pose proof PI_RGT_0. lra.
Qed.

End Decoupled.

(** ** A network without edges *)

Section ZeroEdges.

Local Open Scope R_scope.

Lemma zero_vector_repeat (v : vec R) : zero_vector v -> v = repeat 0 (length v).
Proof. induction 1 as [|x v -> Hv IH]; simpl; [reflexivity | now rewrite <- IH]. Qed.

Lemma zero_vector_nth (v : vec R) (i : nat) : zero_vector v -> nth i v 0 = 0.
Proof.
  intros Hv. destruct (Nat.lt_ge_cases i (length v)) as [Hi|Hi].
  - unfold zero_vector in Hv. rewrite List.Forall_forall in Hv. apply Hv, nth_In, Hi.
  - now apply nth_overflow.
Qed.

Lemma zero_matrix_row (a : mat R) (i : nat) : zero_matrix a -> zero_vector (row a i).
Proof.
  intros Ha. unfold row. destruct (Nat.lt_ge_cases i (length a)) as [Hi|Hi].
  - unfold zero_matrix in Ha. rewrite List.Forall_forall in Ha. apply Ha, nth_In, Hi.
  - rewrite nth_overflow by exact Hi. constructor.
Qed.

Lemma vzip_add_zero (d : nat) : vzip Rplus (repeat 0 d) (repeat 0 d) = repeat 0 d.
Proof. induction d as [|d IH]; [reflexivity|]. unfold vzip in *. simpl. rewrite IH. f_equal. lra. Qed.

Lemma np_sum_axis0_zero (d : nat) (a : mat R) :
  Forall (fun r => r = repeat 0 d) a -> np_sum_axis0 d a = repeat 0 d.
Proof.
  unfold np_sum_axis0. change (@fzero R _) with 0. change (@fadd R _) with Rplus.
  induction 1 as [|r a -> Ha IH]; simpl; [reflexivity|]. now rewrite vzip_add_zero.
Qed.

(** Without edges every row summed into a force is zero. *)
Lemma force_terms_zero (adj : mat R) (n dim : nat) (positions : mat R) (i : nat) :
  zero_matrix adj -> shape n dim positions -> (i < n)%nat ->
  Forall (fun r => r = repeat 0 dim) (force_terms adj positions i).
Proof.
  intros Hadj Hpos Hi.
  pose proof (force_terms_rows adj dim n positions i Hpos Hi) as Hlen.
  rewrite List.Forall_forall in Hlen |- *. intros r Hr.
  rewrite <- (Hlen r Hr). apply zero_vector_repeat.
  unfold force_terms in Hr. rewrite <- select_map in Hr.
  assert (Hall : Forall zero_vector
            (map (fun t : R * vec R * R =>
                    map (fun x => fmul (fst (fst t)) (fdiv x (snd t))) (snd (fst t)))
                 (combine (combine (row adj i)
                             (map (fun p => vzip fsub p (row positions i)) positions))
                          (norm_axis1 (map (fun p => vzip fsub p (row positions i)) positions))))).
  { apply List.Forall_forall. intros r' Hr'.
    apply in_map_iff in Hr' as ([[w dl] ds] & <- & Hin). simpl.
    apply in_combine_l, in_combine_l in Hin.
    pose proof (zero_matrix_row adj i Hadj) as Hrow.
    unfold zero_vector in Hrow. rewrite List.Forall_forall in Hrow. rewrite (Hrow w Hin).
    apply List.Forall_forall. intros y Hy. apply in_map_iff in Hy as (x & <- & _).
    unfold Rdiv. ring. }
  apply (select_Forall zero_vector) with (m := map (fun d => fltb ftiny d)
           (norm_axis1 (map (fun p => vzip fsub p (row positions i)) positions))) in Hall.
  rewrite List.Forall_forall in Hall. exact (Hall r Hr).
Qed.

Lemma zero_edges_forces (adj : mat R) (dim : nat) (positions forces : mat R) :
  zero_matrix adj -> shape (num_nodes adj) dim positions ->
  calculate_forces adj dim positions = Ok forces ->
  forall i c, entry forces i c = 0.
Proof.
  intros Hadj Hpos Hf i c.
  destruct (calculate_forces_inv adj dim positions forces Hf Hpos) as [[Hn _] Hrows].
  unfold entry. destruct (Nat.lt_ge_cases i (num_nodes adj)) as [Hi|Hi].
  - destruct (Hrows i Hi) as [_ ->].
    rewrite (np_sum_axis0_zero dim)
      by (apply (force_terms_zero adj (num_nodes adj)); assumption).
    apply zero_vector_nth. unfold zero_vector. apply List.Forall_forall.
    intros x Hx. now apply repeat_spec in Hx.
  - unfold row. rewrite (nth_overflow forces) by lia. now destruct c.
Qed.

Lemma zero_edges_coupling (adj : mat R) (ph : vec R) (i : nat) :
  zero_matrix adj -> nth i (phase_coupling adj ph) 0 = 0.
Proof.
  intros Hadj. apply zero_vector_nth. unfold phase_coupling.
  apply List.Forall_forall. intros x Hx. apply in_map_iff in Hx as (k & <- & _).
  apply np_sum_zeros, List.Forall_forall. intros y Hy. unfold vzip in Hy.
  apply in_map_iff in Hy as ([w s] & <- & Hin). apply in_combine_l in Hin. simpl.
  pose proof (zero_matrix_row adj k Hadj) as Hrow.
  unfold zero_vector in Hrow. rewrite List.Forall_forall in Hrow. rewrite (Hrow w Hin). ring.
Qed.

Lemma mat_ext (n d : nat) (a b : mat R) :
  shape n d a -> shape n d b ->
  (forall i c, (i < n)%nat -> (c < d)%nat -> entry a i c = entry b i c) -> a = b.
Proof.
  intros Ha Hb Hentries.
  apply (nth_ext a b [] []); [destruct Ha, Hb; lia|].
  intros i Hi. assert (Hi' : (i < n)%nat) by (destruct Ha; lia).
  apply (nth_ext _ _ 0 0).
  - fold (row a i) (row b i). now rewrite (shape_row n d a), (shape_row n d b).
  - intros c Hc. apply Hentries; [exact Hi'|].
    fold (row a i) in Hc. now rewrite (shape_row n d a) in Hc.
Qed.

Lemma np_sum_scale (c : R) (v : vec R) : np_sum (map (fun x => c * x) v) = c * np_sum v.
Proof.
  induction v as [|x v IH]; simpl.
  - rewrite np_sum_nil. lra.
  - rewrite !np_sum_cons, IH. lra.
Qed.

Lemma norm_scale (c : R) (v : vec R) : norm (map (fun x => c * x) v) = Rabs c * norm v.
Proof.
  unfold norm. simpl. rewrite map_map.
  rewrite (np_sum_map_ext _ (fun x => c² * (x * x))) by (intros; unfold Rsqr; ring).
  rewrite <- (map_map (fun x => x * x) (fun y => c² * y)), np_sum_scale.
  rewrite sqrt_mult by (try apply Rle_0_sqr; apply squares_nonneg).
  now rewrite sqrt_Rsqr_abs.
Qed.

Section Step.

Variable adj : mat R.
Variable dim : nat.
Variables (dt gamma gamma_theta K : R).
Variable freqs : vec R.
Hypothesis no_edges : zero_matrix adj.

(** Without edges a step multiplies every velocity by [1 - gamma]. *)
Lemma zero_edges_step_entry (st : sim_state R) (o : step_out R) (i c : nat) :
  sim_step adj dim dt gamma gamma_theta K freqs st = Ok o ->
  shape (num_nodes adj) dim (positions st) -> shape (num_nodes adj) dim (velocities st) ->
  (i < num_nodes adj)%nat -> (c < dim)%nat ->
  entry (new_velocities o) i c = (1 - gamma) * entry (velocities st) i c /\
  entry (new_positions o) i c = entry (positions st) i c + entry (new_velocities o) i c * dt.
Proof.
  intros Hstep Hpos Hvel Hi Hc.
  destruct (sim_step_inv _ _ _ _ _ _ _ _ _ Hstep) as (f & Hf & _).
  destruct (spatial_step_entry _ _ _ _ _ _ _ _ _ _ i c Hstep Hf Hpos Hvel Hi Hc)
    as (_ & _ & Hv & Hp).
  rewrite Hp, Hv, (zero_edges_forces adj dim _ _ no_edges Hpos Hf). simpl. split; ring.
Qed.

Lemma zero_edges_step_row (st : sim_state R) (o : step_out R) (i : nat) :
  sim_step adj dim dt gamma gamma_theta K freqs st = Ok o ->
  shape (num_nodes adj) dim (positions st) -> shape (num_nodes adj) dim (velocities st) ->
  (i < num_nodes adj)%nat ->
  row (new_velocities o) i = map (fun x => (1 - gamma) * x) (row (velocities st) i).
Proof.
  intros Hstep Hpos Hvel Hi.
  destruct (sim_step_inv _ _ _ _ _ _ _ _ _ Hstep) as (f & Hf & _).
  assert (Hshape : shape (num_nodes adj) dim (new_velocities o)).
  { destruct dim as [|d] eqn:Hd.
    - apply sim_step_inv in Hstep as (f' & Hf' & Hv & _). rewrite Hv.
      rewrite Hf in Hf'. injection Hf' as <-.
      destruct (calculate_forces_inv _ _ _ _ Hf Hpos) as [Hfs _].
      apply shape_mzip; [assumption|]. apply shape_mzip; apply shape_mmap; assumption.
    - now destruct (spatial_step_entry _ _ _ _ _ _ _ _ _ _ i 0%nat Hstep Hf Hpos Hvel Hi
                      ltac:(lia)) as (Hs & _). }
  apply (nth_ext _ _ 0 0).
  - now rewrite length_map, (shape_row _ dim _ i Hshape), (shape_row _ dim _ i Hvel).
  - intros c Hc. rewrite (shape_row _ dim _ i Hshape Hi) in Hc.
    rewrite (nth_map_in _ _ _ 0 0) by (now rewrite (shape_row _ dim _ i Hvel)).
    now destruct (zero_edges_step_entry st o i c Hstep Hpos Hvel Hi Hc) as [Hv _].
Qed.

(** From rest at [p0] the run stays at rest at [p0]. *)
Lemma zero_edges_trace (tol : R) (p0 : mat R) (n : nat) :
  shape (num_nodes adj) dim p0 ->
  forall st : sim_state R,
    positions st = p0 -> velocities st = mmap (fun _ => 0) p0 ->
    Forall (fun o => new_positions o = p0)
           (steps_run adj dim tol dt gamma gamma_theta K freqs n st).
Proof.
  intros Hp0. induction n as [|n IH]; intros st Hpos Hvel; cbn [steps_run]; [constructor|].
  destruct (sim_step adj dim dt gamma gamma_theta K freqs st) as [o|e] eqn:Hstep; [|constructor].
  assert (Hzero : shape (num_nodes adj) dim (mmap (fun _ => 0) p0)) by now apply shape_mmap.
  assert (Hspos : shape (num_nodes adj) dim (positions st)) by now rewrite Hpos.
  assert (Hsvel : shape (num_nodes adj) dim (velocities st)) by now rewrite Hvel.
  assert (Hentries : forall i c, (i < num_nodes adj)%nat -> (c < dim)%nat ->
            entry (new_velocities o) i c = 0 /\ entry (new_positions o) i c = entry p0 i c).
  { intros i c Hi Hc.
    destruct (zero_edges_step_entry st o i c Hstep Hspos Hsvel Hi Hc) as [Hv Hp].
    rewrite Hvel in Hv. rewrite (entry_mmap _ (num_nodes adj) dim) in Hv by assumption.
    rewrite Hp, Hv, Hpos. split; ring. }
  assert (Hshapes : shape (num_nodes adj) dim (new_velocities o) /\
                    shape (num_nodes adj) dim (new_positions o)).
  { destruct (sim_step_inv _ _ _ _ _ _ _ _ _ Hstep) as (f & Hf & Hv & Hp & _).
    destruct (calculate_forces_inv _ _ _ _ Hf Hspos) as [Hfs _].
    assert (Hv' : shape (num_nodes adj) dim (new_velocities o)).
    { rewrite Hv. apply shape_mzip; [assumption|].
      apply shape_mzip; apply shape_mmap; assumption. }
    split; [exact Hv'|]. rewrite Hp. apply shape_mzip; [assumption|]. now apply shape_mmap. }
  destruct Hshapes as [Hsv Hsp].
  assert (Hnewp : new_positions o = p0).
  { apply (mat_ext (num_nodes adj) dim); try assumption.
    intros i c Hi Hc. now destruct (Hentries i c Hi Hc). }
  assert (Hnewv : new_velocities o = mmap (fun _ => 0) p0).
  { apply (mat_ext (num_nodes adj) dim); try assumption.
    intros i c Hi Hc. rewrite (entry_mmap _ (num_nodes adj) dim) by assumption.
    now destruct (Hentries i c Hi Hc). }
  constructor; [exact Hnewp|].
  destruct (fltb (total_movement o) tol); [constructor|]. now apply IH.
Qed.

End Step.

Lemma pair_network_zero : zero_matrix (pair_network 0).
Proof. repeat constructor. Qed.



Lemma moving_pair_far (i : nat) :
  (i < 2)%nat -> far_distances (positions moving_pair) i <> [].
Proof. exact (unit_pair_far i). Qed.


End ZeroEdges.

(** ** Coincident nodes and the force formula *)

Section Degenerate.

Local Open Scope R_scope.

Lemma select_mask_empty {A : Type} (f : A -> bool) (l : list A) :
  Forall (fun x => f x = false) l -> select (map f l) l = [].
Proof. induction 1 as [|x l Hx Hl IH]; simpl; [reflexivity|]. now rewrite Hx. Qed.

(** When every node sits within [1e-6] of node [i], nothing is selected. *)
Lemma far_distances_near (positions : mat R) (i : nat) :
  Forall (fun p => norm (vzip fsub p (row positions i)) <= ftiny) positions ->
  far_distances positions i = [].
Proof.
  intros Hnear. unfold far_distances, norm_axis1. apply select_mask_empty.
  rewrite map_map. apply List.Forall_forall. intros d Hd.
  apply in_map_iff in Hd as (p & <- & Hp).
  rewrite List.Forall_forall in Hnear. apply fltb_R_false. specialize (Hnear p Hp). lra.
Qed.

(** In exact arithmetic: if all nodes coincide with some node, and in
    particular if there is one node only, the force computation raises. *)
Lemma coincident_positions_raise (adj : mat R) (dim : nat) (positions : mat R) (i : nat) :
  (i < num_nodes adj)%nat ->
  Forall (fun p => p = row positions i) positions ->
  calculate_forces adj dim positions = Raise ValueError.
Proof.
  intros Hi Hsame. apply (calculate_forces_raises adj dim positions i Hi).
  apply far_distances_near. apply List.Forall_forall. intros p Hp.
  rewrite List.Forall_forall in Hsame. rewrite (Hsame p Hp), norm_sub_self.
  pose proof ftiny_R_pos. lra.
Qed.

Lemma single_node_raises_R (a : R) (dim : nat) (p : vec R) :
  calculate_forces [[a]] dim [p] = Raise ValueError.
Proof.
  apply (coincident_positions_raise [[a]] dim [p] 0); [simpl; lia|].
  repeat constructor.
Qed.

End Degenerate.

(** C1. The claim fails on the program: for two nodes at identical
    coordinates joined by an edge of positive weight, in binary64 arithmetic,
    the force computation does not return a force at all.  Every distance
    from node 0 is masked out, so [np.min] is applied to an empty array and
    raises [ValueError] before any floor is assigned. *)
Theorem coincident_pair_raises :
  calculate_forces (pair_network 1%float) 2
    [[0.5%float; 0.5%float]; [0.5%float; 0.5%float]]
  = Raise ValueError.
Proof. vm_compute. reflexivity. Qed.

(** C6. The claim fails on the program for a single node, whose position
    array has no pair of nodes at all: the sum over the included nodes is
    empty, and the program raises [ValueError] instead of returning the zero
    force. *)
Theorem single_node_raises :
  calculate_forces [[0%float]] 2 [[0.5%float; 0.25%float]] = Raise ValueError.
Proof. vm_compute. reflexivity. Qed.

(** The literal pair of the specification in binary64 arithmetic:
    [p0 = (0,0)], [p1 = (3,4)], [w = 2]. *)
Example literal_pair_forces :
  calculate_forces (pair_network 2%float) 2
    [[0%float; 0%float]; [3%float; 4%float]]
  = Ok [[1.2%float; 1.6%float]; [(-1.2)%float; (-1.6)%float]].
Proof. vm_compute. reflexivity. Qed.

(** ** The force as a sum over the included nodes *)

Section ForceFormula.

Local Open Scope R_scope.

Lemma list_as_map_seq {A : Type} (l : list A) (d : A) :
  l = map (fun j => nth j l d) (seq 0 (length l)).
Proof.
  apply (nth_ext _ _ d d); [now rewrite length_map, length_seq|].
  intros j Hj. rewrite (nth_map_in _ _ _ 0%nat d) by (now rewrite length_seq).
  now rewrite seq_nth.
Qed.

Lemma combine_map_map {A B C : Type} (f : A -> B) (g : A -> C) (l : list A) :
  combine (map f l) (map g l) = map (fun x => (f x, g x)) l.
Proof. induction l as [|x l IH]; simpl; [reflexivity | now rewrite IH]. Qed.

Lemma select_map_filter {A B : Type} (f : A -> bool) (g : A -> B) (l : list A) :
  select (map f l) (map g l) = map g (List.filter f l).
Proof.
  induction l as [|x l IH]; simpl; [reflexivity|]. destruct (f x); simpl; now rewrite IH.
Qed.

Variable adj : mat R.
Variable dim : nat.
Variable positions : mat R.

Hypothesis positions_shape : shape (num_nodes adj) dim positions.
Hypothesis adj_square : Forall (fun r => length r = num_nodes adj) adj.

Lemma force_terms_indexed (w : nat -> R) (P : nat -> vec R) (q : vec R) (js : list nat) :
  map (fun t : R * vec R * R => map (fun x => fmul (fst (fst t)) (fdiv x (snd t))) (snd (fst t)))
    (select (map (fun d => fltb ftiny d) (norm_axis1 (map (fun p => vzip fsub p q) (map P js))))
       (combine (combine (map w js) (map (fun p => vzip fsub p q) (map P js)))
                (norm_axis1 (map (fun p => vzip fsub p q) (map P js))))) =
  map (fun j => map (fun x => w j * (x / Rmax (norm (vzip fsub (P j) q)) (/ 1000000)))
                    (vzip fsub (P j) q))
      (List.filter (fun j => fltb (/ 1000000) (norm (vzip fsub (P j) q))) js).
Proof.
  unfold norm_axis1. rewrite !map_map, !combine_map_map.
  change (fun x : nat => fltb ftiny (norm (vzip fsub (P x) q)))
    with (fun j : nat => fltb (/ 1000000) (norm (vzip fsub (P j) q))).
  rewrite select_map_filter, map_map. apply map_ext_in. intros j Hj.
  apply filter_In in Hj as [_ Hfar]. apply fltb_R_iff in Hfar.
  cbn [fst snd]. rewrite Rmax_left by lra. reflexivity.
Qed.

Lemma force_terms_spec (i : nat) :
  (i < num_nodes adj)%nat ->
  force_terms adj positions i =
  map (fun j => map (fun x => entry adj i j * (x / Rmax (distance positions i j) (/ 1000000)))
                    (displacement positions i j))
      (List.filter (fun j => fltb (/ 1000000) (distance positions i j)) (seq 0 (num_nodes adj))).
Proof.
  intros Hi. destruct positions_shape as [Hlen _].
  assert (Hrow : length (row adj i) = num_nodes adj).
  { rewrite List.Forall_forall in adj_square. apply adj_square, nth_In. exact Hi. }
  rewrite <- (force_terms_indexed (entry adj i) (row positions) (row positions i)).
  unfold force_terms.
  replace (map (row positions) (seq 0 (num_nodes adj))) with positions
    by (rewrite <- Hlen; apply list_as_map_seq).
  replace (map (entry adj i) (seq 0 (num_nodes adj))) with (row adj i)
    by (rewrite <- Hrow; apply list_as_map_seq).
  reflexivity.
Qed.

(** The forces of a call that returns are the specified sums. *)
Lemma calculate_forces_spec (forces : mat R) (i : nat) :
  calculate_forces adj dim positions = Ok forces ->
  (i < num_nodes adj)%nat ->
  row forces i = force_spec adj dim positions i.
Proof.
  intros Hf Hi.
  destruct (calculate_forces_inv adj dim positions forces Hf positions_shape) as [_ Hrows].
  destruct (Hrows i Hi) as [_ ->]. unfold force_spec. now rewrite force_terms_spec.
Qed.

End ForceFormula.

Section ForceExamples.

Local Open Scope R_scope.

Lemma vzip_add_zero_l (d : nat) (r : vec R) :
  length r = d -> vzip Rplus (repeat 0 d) r = r.
Proof.
  revert r. induction d as [|d IH]; intros [|x r] Hr; simpl in *; try lia; [reflexivity|].
  unfold vzip in *. simpl. rewrite IH by lia. f_equal. lra.
Qed.

Lemma np_sum_axis0_single (d : nat) (r : vec R) :
  length r = d -> np_sum_axis0 d [r] = r.
Proof. intros Hr. unfold np_sum_axis0. simpl. now apply vzip_add_zero_l. Qed.

Lemma vzip_sub_opp (u v : vec R) : vzip fsub u v = map Ropp (vzip fsub v u).
Proof.
  unfold vzip. rewrite map_map. revert v.
  induction u as [|x u IH]; intros [|y v]; simpl; try reflexivity.
  rewrite IH. f_equal. lra.
Qed.

(** The force law on well-separated nodes: when there are at least two nodes
    and all pairwise distances exceed [1e-6], the force computation returns,
    and the force on each node [i] is the sum over the nodes [j] further than
    [1e-6] from it of [adjacency[i,j] * (Δ_j / max(d_j, 1e-6))]. *)
Theorem force_is_sum_over_included
    (adj : mat R) (dim : nat) (positions : mat R) :
  shape (num_nodes adj) dim positions ->
  Forall (fun r => length r = num_nodes adj) adj ->
  (2 <= num_nodes adj)%nat ->
  (forall i j, (i < num_nodes adj)%nat -> (j < num_nodes adj)%nat -> i <> j ->
     / 1000000 < distance positions i j) ->
  exists forces,
    calculate_forces adj dim positions = Ok forces /\
    forall i, (i < num_nodes adj)%nat -> row forces i = force_spec adj dim positions i.
Proof.
  intros Hshape Hsquare Htwo Hfar.
  destruct (calculate_forces_returns adj dim positions) as [forces Hf].
  - intros i Hi. set (j := if Nat.eq_dec i 0%nat then 1%nat else 0%nat).
    assert (Hj : (j < num_nodes adj)%nat /\ i <> j)
      by (unfold j; destruct (Nat.eq_dec i 0%nat); lia).
    apply (far_distances_nonempty positions i j); [destruct Hshape; lia|].
    apply (Hfar i j); tauto.
  - exists forces. split; [exact Hf|]. intros i Hi.
    now apply calculate_forces_spec.
Qed.

Lemma force_is_sum_over_included_witness :
  exists forces,
    calculate_forces (pair_network 2) 1 [[0]; [1]] = Ok forces /\
    row forces 0 = force_spec (pair_network 2) 1 [[0]; [1]] 0.
Proof.
  destruct (force_is_sum_over_included (pair_network 2) 1 [[0]; [1]])
    as (forces & Hf & Hrows).
  - split; [reflexivity | repeat constructor].
  - repeat constructor.
  - simpl. lia.
  - intros i j Hi Hj Hne. change (num_nodes (pair_network 2)) with 2%nat in Hi, Hj.
    unfold distance, displacement.
    destruct i as [|[|i]], j as [|[|j]]; try lia; cbn -[norm]; rewrite norm_singleton.
    + replace (1 - 0) with 1 by lra. rewrite Rabs_R1. lra.
    + replace (0 - 1) with (- (1)) by lra. rewrite Rabs_Ropp, Rabs_R1. lra.
  - exists forces. split; [exact Hf|]. apply Hrows. simpl. lia.
Defined.

(** Two nodes joined by an edge of weight [w], further than [1e-6] apart:
    the force on node 0 is [w * (p1 − p0) / max(‖p1 − p0‖, 1e-6)] and the
    force on node 1 is its negation. *)
Theorem pair_forces (w : R) (dim : nat) (p0 p1 : vec R) :
  length p0 = dim -> length p1 = dim ->
  / 1000000 < norm (vzip fsub p1 p0) ->
  let f0 := map (fun x => w * (x / Rmax (norm (vzip fsub p1 p0)) (/ 1000000)))
                (vzip fsub p1 p0) in
  calculate_forces (pair_network w) dim [p0; p1] = Ok [f0; map Ropp f0].
Proof.
  intros H0 H1 Hfar f0.
  assert (Hshape : shape (num_nodes (pair_network w)) dim [p0; p1])
    by (split; [reflexivity | repeat constructor; assumption]).
  assert (Hsquare : Forall (fun r => length r = num_nodes (pair_network w)) (pair_network w))
    by (repeat constructor).
  assert (Hfar' : / 1000000 < norm (vzip fsub p0 p1)) by (now rewrite norm_sub_sym).
  destruct (calculate_forces_returns (pair_network w) dim [p0; p1]) as [forces Hf].
  { intros i Hi. change (num_nodes (pair_network w)) with 2%nat in Hi.
    destruct i as [|[|i]]; [| |lia].
    - apply (far_distances_nonempty _ 0 1); [simpl; lia | exact Hfar].
    - apply (far_distances_nonempty _ 1 0); [simpl; lia | exact Hfar']. }
  rewrite Hf. f_equal.
  destruct (calculate_forces_inv _ _ _ _ Hf Hshape) as [[Hlen _] _].
  destruct forces as [|r0 [|r1 [|r2 forces]]]; try discriminate Hlen.
  pose proof (calculate_forces_spec _ _ _ Hshape Hsquare _ 0%nat Hf ltac:(simpl; lia)) as Hr0.
  pose proof (calculate_forces_spec _ _ _ Hshape Hsquare _ 1%nat Hf ltac:(simpl; lia)) as Hr1.
  unfold force_spec, distance, displacement in Hr0, Hr1.
  change (num_nodes (pair_network w)) with 2%nat in Hr0, Hr1.
  cbn [seq List.filter row nth] in Hr0, Hr1.
  rewrite norm_sub_self in Hr0, Hr1.
  rewrite (fltb_R_false (/ 1000000) 0) in Hr0, Hr1 by lra.
  rewrite (fltb_R_true _ _ Hfar) in Hr0. rewrite (fltb_R_true _ _ Hfar') in Hr1.
  cbn [map] in Hr0, Hr1.
  rewrite np_sum_axis0_single in Hr0, Hr1 by (rewrite length_map, vzip_length; lia).
  rewrite Hr0, Hr1. unfold f0. f_equal. f_equal.
  rewrite (norm_sub_sym p0 p1), (vzip_sub_opp p0 p1), !map_map.
  apply map_ext. intros x. unfold entry, pair_network, row. simpl. unfold Rdiv. ring.
Qed.

Lemma pair_forces_witness :
  calculate_forces (pair_network 2) 2 [[0; 0]; [3; 4]]
  = Ok [[6 / 5; 8 / 5]; [- (6 / 5); - (8 / 5)]].
Proof.
  assert (Hnorm : norm (vzip fsub [3; 4] [0; 0]) = 5).
  { unfold norm, np_sum, vzip. simpl.
    replace (0 + (3 - 0) * (3 - 0) + (4 - 0) * (4 - 0)) with (5 * 5) by lra.
    apply sqrt_square. lra. }
  rewrite (pair_forces 2 2 [0; 0] [3; 4] eq_refl eq_refl) by (rewrite Hnorm; lra).
  rewrite Hnorm, Rmax_left by lra.
  unfold vzip. simpl. repeat f_equal; lra.
Defined.

End ForceExamples.

(** ** The thread pool and the orchestrator *)

Section PoolFacts.

Context {F : Type} {Sc : Scalar F} {Tr : Trig F} {G : Type} {Rng : NumpyRandom G F}.
Variable adj_matrix : mat F.
Variable dim : nat.

Local Abbreviation step_pool := (pool_step adj_matrix dim).
Local Abbreviation run := (run_schedule adj_matrix dim).

Lemma pool_step_length (p : pool F G) (t : nat) :
  length (threads (step_pool p t)) = length (threads p).
Proof.
  unfold pool_step. destruct (threads p !! t) as [[[|c rest] d]|]; try reflexivity.
  destruct (do_call adj_matrix dim (Z.of_nat t) c d (generator p)) as [d' g'].
  cbn [threads]. apply length_insert.
Qed.

Lemma run_schedule_length (sched : list nat) (p : pool F G) :
  length (threads (run sched p)) = length (threads p).
Proof.
  unfold run_schedule. revert p. induction sched as [|t sched IH]; intros p; simpl; [reflexivity|].
  now rewrite IH, pool_step_length.
Qed.

Lemma pool_draws_length (sched : list nat) (n : nat) (g0 : G) :
  length (pool_draws adj_matrix dim sched n g0) = n.
Proof.
  unfold pool_draws. rewrite length_map, run_schedule_length. cbn [threads].
  apply repeat_length.
Qed.

(** The three draws, made back to back on the state [g], are [draw_initial]. *)
Lemma draws_back_to_back (t : nat) (ths : list (thread F)) (g : G) (d : draws F) :
  ths !! t = Some {| pending := [CallRand; CallUniform; CallNormal]; drawn := d |} ->
  run [t; t; t] {| threads := ths; generator := g |} =
  {| threads := <[t := {| pending := []; drawn := fst (draw_initial adj_matrix dim g) |}]> ths;
     generator := snd (draw_initial adj_matrix dim g) |}.
Proof.
  intros Hlook. pose proof (lookup_lt_Some _ _ _ Hlook) as Hlt.
  unfold run_schedule, draw_initial. cbn [fold_left].
  unfold pool_step at 3. cbn [threads generator]. rewrite Hlook. cbn [do_call].
  destruct (np_random_rand (num_nodes adj_matrix) dim g) as [pos g1].
  unfold pool_step at 2. cbn [threads generator].
  rewrite list_lookup_insert_eq by exact Hlt. cbn [do_call drawn_positions drawn_frequencies].
  destruct (np_random_uniform _ _ _ g1) as [ph g2].
  unfold pool_step at 1. cbn [threads generator].
  rewrite list_lookup_insert_eq by (now rewrite length_insert).
  cbn [do_call drawn_positions drawn_phases].
  destruct (np_random_normal _ _ _ g2) as [fr g3].
  cbn [fst snd]. now rewrite !list_insert_insert_eq.
Qed.

(** A thread that makes its four calls without interruption. *)
Lemma thread_block (t : nat) (ths : list (thread F)) (g : G) :
  ths !! t = Some new_thread ->
  run (repeat t (length worker_calls)) {| threads := ths; generator := g |} =
  {| threads := <[t := finished adj_matrix dim (Z.of_nat t)]> ths;
     generator := snd (draw_initial adj_matrix dim (random_seed (Z.of_nat t))) |}.
Proof.
  intros Hlook. pose proof (lookup_lt_Some _ _ _ Hlook) as Hlt.
  change (run (repeat t (length worker_calls)) {| threads := ths; generator := g |})
    with (run [t; t; t] (step_pool {| threads := ths; generator := g |} t)).
  unfold pool_step. cbn [threads generator]. rewrite Hlook.
  cbn [new_thread pending drawn worker_calls do_call].
  rewrite (draws_back_to_back t _ _ (drawn new_thread))
    by (now apply list_lookup_insert_eq).
  now rewrite list_insert_insert_eq.
Qed.

(** A step of a thread that has no call left changes nothing. *)
Lemma finished_step (p : pool F G) (t : nat) (d : draws F) :
  threads p !! t = Some {| pending := []; drawn := d |} -> step_pool p t = p.
Proof. intros Hlook. unfold pool_step. now rewrite Hlook. Qed.

(** The serial schedule from thread [a] on. *)
Lemma serial_block (k : nat) :
  forall (a : nat) (ths : list (thread F)) (g : G),
    (forall i, a <= i < a + k -> ths !! i = Some new_thread) ->
    let p := run (flat_map (fun t => repeat t (length worker_calls)) (seq a k))
                 {| threads := ths; generator := g |} in
    (forall i, a <= i < a + k -> threads p !! i = Some (finished adj_matrix dim (Z.of_nat i))) /\
    (forall i, ~ a <= i < a + k -> threads p !! i = ths !! i).
Proof.
  induction k as [|k IH]; intros a ths g Hnew; cbn zeta.
  - split; [intros; lia | reflexivity].
  - cbn [seq flat_map]. unfold run_schedule. rewrite fold_left_app.
    fold (run (repeat a (length worker_calls)) {| threads := ths; generator := g |}).
    rewrite thread_block by (apply Hnew; lia).
    match goal with |- context [fold_left _ _ ?p] =>
      destruct (IH (S a) (threads p) (generator p)) as [Hin Hout] end.
    { intros i Hi. cbn [threads]. rewrite list_lookup_insert_ne by lia. apply Hnew. lia. }
    cbn [threads generator] in Hin, Hout. unfold run_schedule in Hin, Hout. split.
    + intros i Hi. destruct (Nat.eq_dec i a) as [->|Hne].
      * rewrite Hout by lia. apply list_lookup_insert_eq.
        apply (lookup_lt_Some _ _ new_thread), Hnew. lia.
      * apply Hin. lia.
    + intros i Hi. rewrite Hout by lia. apply list_lookup_insert_ne. lia.
Qed.

Lemma repeat_lookup {A : Type} (x : A) (n i : nat) : i < n -> repeat x n !! i = Some x.
Proof.
  revert i. induction n as [|n IH]; intros [|i] Hi; simpl; try lia; [reflexivity|].
  apply IH. lia.
Qed.

(** Without interleaving, worker [i] draws what it would draw alone. *)
Lemma serial_draws (n : nat) (g0 : G) :
  pool_draws adj_matrix dim [] n g0 =
  map (fun i => fst (draw_initial adj_matrix dim (random_seed (Z.of_nat i)))) (seq 0 n).
Proof.
  pose proof (pool_draws_length [] n g0) as Hlen.
  unfold pool_draws, serial in *. cbn [app] in *.
  destruct (serial_block n 0 (repeat new_thread n) g0) as [Hin _].
  { intros i Hi. apply repeat_lookup. lia. }
  apply (nth_ext _ _ (drawn new_thread) (drawn new_thread));
    [now rewrite Hlen, length_map, length_seq|].
  intros i Hi. rewrite Hlen in Hi.
  rewrite (nth_map_in _ _ _ new_thread) by (rewrite length_map in Hlen; lia).
  rewrite (nth_map_in _ _ _ 0) by (now rewrite length_seq).
  rewrite seq_nth by exact Hi.
  now rewrite (nth_lookup_Some _ _ new_thread _ (Hin i ltac:(lia))).
Qed.

Lemma run_app (s1 s2 : list nat) (p : pool F G) : run (s1 ++ s2) p = run s2 (run s1 p).
Proof. apply fold_left_app. Qed.

(** The steps of other threads leave a thread as it is. *)
Lemma run_others (t : nat) (sched : list nat) :
  Forall (fun t' => t' <> t) sched ->
  forall p : pool F G, threads (run sched p) !! t = threads p !! t.
Proof.
  induction 1 as [|t' sched Hne Hall IH]; intros p; [reflexivity|].
  change (run (t' :: sched) p) with (run sched (step_pool p t')). rewrite IH.
  unfold pool_step. destruct (threads p !! t') as [[[|c rest] d]|]; try reflexivity.
  destruct (do_call adj_matrix dim (Z.of_nat t') c d (generator p)) as [d' g'].
  cbn [threads]. now apply list_lookup_insert_ne.
Qed.

(** When worker 1 seeds the generator between worker 0's seeding and worker
    0's first draw, worker 0 draws the stream of seed 1. *)
Lemma racy_draws (g0 : G) :
  nth_error (pool_draws adj_matrix dim [0; 1] 2 g0) 0 =
  Some (fst (draw_initial adj_matrix dim (random_seed 1%Z))).
Proof.
  unfold pool_draws, serial.
  change ([0; 1] ++ flat_map (fun t => repeat t (length worker_calls)) (seq 0 2))
    with ([0; 1] ++ [0; 0; 0] ++ [0] ++ [1; 1; 1; 1]).
  rewrite !run_app.
  assert (Hstart :
    run [0; 1] {| threads := repeat new_thread 2; generator := g0 |} =
    {| threads := [ {| pending := [CallRand; CallUniform; CallNormal];
                       drawn := drawn new_thread |};
                    {| pending := [CallRand; CallUniform; CallNormal];
                       drawn := drawn new_thread |} ];
       generator := random_seed 1%Z |}) by reflexivity.
  rewrite Hstart, (draws_back_to_back 0 _ _ (drawn new_thread)) by reflexivity.
  cbn [insert list_insert].
  change (run [0] ?p) with (step_pool p 0).
  rewrite finished_step with (d := fst (draw_initial adj_matrix dim (random_seed 1%Z)))
    by reflexivity.
  rewrite nth_error_map.
  match goal with |- option_map _ (nth_error ?l 0) = _ =>
    replace (nth_error l 0) with (l !! 0) by (now destruct l) end.
  rewrite (run_others 0 [1; 1; 1; 1]) by (repeat constructor; lia).
  reflexivity.
Qed.

End PoolFacts.

Section OrchestratorFacts.

Context {F : Type} {Sc : Scalar F} {Tr : Trig F} {G : Type} {Rng : NumpyRandom G F}.

Lemma join_raise {A B : Type} (f : A -> result B) (l : list A) (e : exn) :
  join (map f l) = Raise e -> exists x, In x l /\ f x = Raise e.
Proof.
  induction l as [|x l IH]; simpl; [discriminate|].
  destruct (f x) as [r|e'] eqn:Hx; cbn [bind].
  - destruct (join (map f l)) as [rs|e'']; cbn [bind]; [discriminate|].
    intros [= ->]. destruct IH as (y & Hy & Hfy); [reflexivity|]. eauto.
  - intros [= ->]. eauto.
Qed.

Lemma join_ok {A B : Type} (f : A -> result B) (l : list A) (rs : list B) :
  join (map f l) = Ok rs -> map f l = map Ok rs.
Proof.
  revert rs. induction l as [|x l IH]; intros rs; simpl.
  - now intros [= <-].
  - destruct (f x) as [r|e]; cbn [bind]; [|discriminate].
    destruct (join (map f l)) as [rs'|e]; cbn [bind]; [|discriminate].
    intros [= <-]. simpl. f_equal. now apply IH.
Qed.

Lemma join_total {A B : Type} (f : A -> result B) (l : list A) :
  (forall x, In x l -> exists r, f x = Ok r) ->
  exists rs, join (map f l) = Ok rs /\ length rs = length l.
Proof.
  induction l as [|x l IH]; intros Hall; simpl.
  - now exists [].
  - destruct (Hall x) as [r ->]; [now left|]. cbn [bind].
    destruct IH as (rs & -> & Hlen); [intros y Hy; apply Hall; now right|].
    cbn [bind]. exists (r :: rs). simpl. now rewrite Hlen.
Qed.

Lemma join_pure {A B : Type} (g : A -> B) (l : list A) :
  join (map (fun x => Ok (g x)) l) = Ok (map g l).
Proof. induction l as [|x l IH]; simpl; [reflexivity|]. now rewrite IH. Qed.

(** With no iteration to run, the worker returns its initial snapshot. *)
Lemma simulate_no_iterations (adj : mat F) (dim : nat) (iterations : Z)
    (tol dt gamma gamma_theta K : F) (d : draws F) :
  (iterations <= 0)%Z ->
  simulate adj dim iterations tol dt gamma gamma_theta K d = Ok (initial_histories d).
Proof.
  intros Hle. unfold simulate. now replace (Z.to_nat iterations) with 0 by lia.
Qed.

(** C5, as the program has it. The orchestrator validates nothing. Whatever
    the matrix and the configuration, it starts one realization per seed
    below [ensemble_size] (worker [i] seeds with [i]; without interleaving
    its draws are those of seed [i]); it raises only what a realization
    raised (the [ValueError] of the force computation); when every
    realization returns, with histories [hs] in the order of the seeds, it
    returns the five sequences of [hs], slot by slot, and nothing else; a
    non-positive [ensemble_size] gives five empty lists, and a non-positive
    [iterations] gives, per seed, the initial snapshot alone and empty energy
    histories.  [dt] and [tol] are passed on as they are. *)
Theorem orchestrator_validates_nothing
    (sched : list nat) (g0 : G) (is_weighted : bool) (to_numpy_array : mat F)
    (dim : nat) (iterations ensemble_size : Z) (tol dt gamma gamma_theta K : F) :
  let adj := if is_weighted then to_numpy_array else binarize to_numpy_array in
  let ds := pool_draws adj dim sched (Z.to_nat ensemble_size) g0 in
  let run := HONE_kuramoto_ensemble sched g0 is_weighted to_numpy_array dim
               iterations ensemble_size tol dt gamma gamma_theta K in
  length ds = Z.to_nat ensemble_size /\
  (forall e, run = Raise e ->
     exists d, In d ds /\ simulate adj dim iterations tol dt gamma gamma_theta K d = Raise e) /\
  (sched = [] ->
   ds = map (fun i => fst (draw_initial adj dim (random_seed (Z.of_nat i))))
            (seq 0 (Z.to_nat ensemble_size))) /\
  ((forall d, In d ds ->
      exists h, simulate adj dim iterations tol dt gamma gamma_theta K d = Ok h) ->
   exists hs,
     map (simulate adj dim iterations tol dt gamma gamma_theta K) ds = map Ok hs /\
     length hs = Z.to_nat ensemble_size /\
     run = Ok {| ensemble_positions := map positions_history hs;
                 ensemble_phases := map phase_history hs;
                 ensemble_potential_energies := map potential_energy_history hs;
                 ensemble_kinetic_energies := map kinetic_energy_history hs;
                 ensemble_total_energies := map total_energy_history hs |}) /\
  ((ensemble_size <= 0)%Z ->
   run = Ok {| ensemble_positions := []; ensemble_phases := [];
               ensemble_potential_energies := []; ensemble_kinetic_energies := [];
               ensemble_total_energies := [] |}) /\
  ((iterations <= 0)%Z ->
   run = Ok {| ensemble_positions := map (fun d => [drawn_positions d]) ds;
               ensemble_phases := map (fun d => [drawn_phases d]) ds;
               ensemble_potential_energies := map (fun _ => []) ds;
               ensemble_kinetic_energies := map (fun _ => []) ds;
               ensemble_total_energies := map (fun _ => []) ds |}).
Proof.
  cbv zeta. unfold HONE_kuramoto_ensemble.
  set (adj := if is_weighted then to_numpy_array else binarize to_numpy_array).
  set (ds := pool_draws adj dim sched (Z.to_nat ensemble_size) g0).
  assert (Hlen : length ds = Z.to_nat ensemble_size) by apply pool_draws_length.
  split; [exact Hlen|]. split; [|split; [|split; [|split]]].
  - intros e Hrun.
    destruct (join (map (simulate adj dim iterations tol dt gamma gamma_theta K) ds))
      as [rs|e'] eqn:Hjoin; cbn [bind] in Hrun; [discriminate|].
    injection Hrun as ->. now apply join_raise.
  - intros Hserial. unfold ds. rewrite Hserial. apply serial_draws.
  - intros Hall. destruct (join_total _ ds Hall) as (hs & Hjoin & Hhs).
    exists hs. split; [apply join_ok, Hjoin|]. split; [lia|].
    rewrite Hjoin. reflexivity.
  - intros Hle. destruct ds as [|d ds']; [reflexivity|]. simpl in Hlen. lia.
  - intros Hle.
    rewrite (map_ext _ (fun d => Ok (initial_histories d)))
      by (intros d; now apply simulate_no_iterations).
    rewrite join_pure. cbn [bind]. now rewrite !map_map.
Qed.

End OrchestratorFacts.

(** C5 as stated fails: with negative weights, [iterations = 0],
    [tol = -1] and [dt = 0], the orchestrator raises nothing; it runs the
    realization of seed 0 and returns its histories. *)
Lemma invalid_input_is_accepted :
  exists r,
    HONE_kuramoto_ensemble (Rng := counter_random) [] 0%Z true
      [[0; -1]; [-1; 0]]%R 1 0 1 (-1)%R 0%R 1%R (/ 10)%R (/ 2)%R = Ok r /\
    ensemble_positions r = [[ [[0 / 8]; [1 / 8]]%R ]] /\
    ensemble_total_energies r = [[]].
Proof. eexists. split; [reflexivity|]. split; reflexivity. Qed.

(** ** Seeds and interleavings *)

Section Reproducibility.

Context {F : Type} {Sc : Scalar F} {Tr : Trig F} {G : Type} {Rng : NumpyRandom G F}.

Lemma ensemble_slots
    (sched : list nat) (g0 : G) (is_weighted : bool) (to_numpy_array : mat F)
    (dim : nat) (iterations ensemble_size : Z) (tol dt gamma gamma_theta K : F)
    (r : ensemble F) (i : nat) (d : draws F) :
  let adj := if is_weighted then to_numpy_array else binarize to_numpy_array in
  HONE_kuramoto_ensemble sched g0 is_weighted to_numpy_array dim
    iterations ensemble_size tol dt gamma gamma_theta K = Ok r ->
  nth_error (pool_draws adj dim sched (Z.to_nat ensemble_size) g0) i = Some d ->
  exists h,
    simulate adj dim iterations tol dt gamma gamma_theta K d = Ok h /\
    nth_error (ensemble_positions r) i = Some (positions_history h) /\
    nth_error (ensemble_phases r) i = Some (phase_history h) /\
    nth_error (ensemble_potential_energies r) i = Some (potential_energy_history h) /\
    nth_error (ensemble_kinetic_energies r) i = Some (kinetic_energy_history h) /\
    nth_error (ensemble_total_energies r) i = Some (total_energy_history h).
Proof.
  cbv zeta. unfold HONE_kuramoto_ensemble.
  set (adj := if is_weighted then to_numpy_array else binarize to_numpy_array).
  set (ds := pool_draws adj dim sched (Z.to_nat ensemble_size) g0).
  intros Hrun Hd.
  destruct (join (map (simulate adj dim iterations tol dt gamma gamma_theta K) ds))
    as [rs|e] eqn:Hjoin; cbn [bind] in Hrun; [|discriminate].
  injection Hrun as <-. cbn [ensemble_positions ensemble_phases ensemble_potential_energies
                              ensemble_kinetic_energies ensemble_total_energies].
  apply join_ok in Hjoin.
  assert (Hi : nth_error (map (simulate adj dim iterations tol dt gamma gamma_theta K) ds) i
               = Some (simulate adj dim iterations tol dt gamma gamma_theta K d))
    by (now apply map_nth_error).
  rewrite Hjoin, nth_error_map in Hi.
  destruct (nth_error rs i) as [h|] eqn:Hh; [|discriminate].
  injection Hi as Hi. exists h. split; [now symmetry|].
  repeat split; now apply map_nth_error.
Qed.

(** C4. The claim fails on the program when the workers' calls into the
    shared generator interleave.  With two seeds, if worker 1 runs
    [np.random.seed(1)] after worker 0 has run [np.random.seed(0)] and before
    worker 0 draws, slot 0 of a returned ensemble holds the histories of the
    worker run alone with seed 1, not with seed 0. *)
Theorem interleaved_seeding_swaps_streams
    (g0 : G) (is_weighted : bool) (to_numpy_array : mat F)
    (dim : nat) (iterations : Z) (tol dt gamma gamma_theta K : F) (r : ensemble F) :
  let adj := if is_weighted then to_numpy_array else binarize to_numpy_array in
  HONE_kuramoto_ensemble [0; 1] g0 is_weighted to_numpy_array dim
    iterations 2 tol dt gamma gamma_theta K = Ok r ->
  exists h,
    HONE_worker_with_damped_kuramoto (G := G) adj dim iterations tol 1 dt gamma gamma_theta K
      = Ok h /\
    nth_error (ensemble_positions r) 0 = Some (positions_history h) /\
    nth_error (ensemble_phases r) 0 = Some (phase_history h) /\
    nth_error (ensemble_total_energies r) 0 = Some (total_energy_history h).
Proof.
  cbv zeta. intros Hrun.
  destruct (ensemble_slots _ _ _ _ _ _ _ _ _ _ _ _ r 0 _ Hrun (racy_draws _ dim g0))
    as (h & Hh & Hp & Hph & _ & _ & Ht).
  exists h. unfold HONE_worker_with_damped_kuramoto. auto.
Qed.

(** Without interleaving, slot [i] of a returned ensemble holds the histories
    of the worker run alone with seed [i], whatever the state of the
    generator at entry. *)
Theorem serial_ensemble_by_seed
    (g0 : G) (is_weighted : bool) (to_numpy_array : mat F)
    (dim : nat) (iterations ensemble_size : Z) (tol dt gamma gamma_theta K : F)
    (r : ensemble F) (i : nat) :
  let adj := if is_weighted then to_numpy_array else binarize to_numpy_array in
  HONE_kuramoto_ensemble [] g0 is_weighted to_numpy_array dim
    iterations ensemble_size tol dt gamma gamma_theta K = Ok r ->
  i < Z.to_nat ensemble_size ->
  exists h,
    HONE_worker_with_damped_kuramoto (G := G) adj dim iterations tol (Z.of_nat i)
      dt gamma gamma_theta K = Ok h /\
    nth_error (ensemble_positions r) i = Some (positions_history h) /\
    nth_error (ensemble_phases r) i = Some (phase_history h) /\
    nth_error (ensemble_potential_energies r) i = Some (potential_energy_history h) /\
    nth_error (ensemble_kinetic_energies r) i = Some (kinetic_energy_history h) /\
    nth_error (ensemble_total_energies r) i = Some (total_energy_history h).
Proof.
  cbv zeta. intros Hrun Hi.
  apply (ensemble_slots _ _ _ _ _ _ _ _ _ _ _ _ r i _ Hrun).
  rewrite serial_draws.
  rewrite (map_nth_error _ i (seq 0 (Z.to_nat ensemble_size)) (d := i)); [reflexivity|].
  rewrite nth_error_nth' with (d := 0) by (now rewrite length_seq). now rewrite seq_nth.
Qed.

End Reproducibility.

Lemma interleaved_seeding_swaps_streams_witness :
  exists r h,
    HONE_kuramoto_ensemble (Rng := counter_random) [0; 1] 0%Z true
      (pair_network 1%R) 1 0 2 (/ 10000)%R (/ 100)%R 1%R (/ 10)%R (/ 2)%R = Ok r /\
    HONE_worker_with_damped_kuramoto (Rng := counter_random)
      (pair_network 1%R) 1 0 (/ 10000)%R 1 (/ 100)%R 1%R (/ 10)%R (/ 2)%R = Ok h /\
    nth_error (ensemble_positions r) 0 = Some (positions_history h).
Proof.
  eexists.
  destruct (interleaved_seeding_swaps_streams (Rng := counter_random) 0%Z true
              (pair_network 1%R) 1 0 (/ 10000)%R (/ 100)%R 1%R (/ 10)%R (/ 2)%R _ eq_refl)
    as (h & Hh & Hp & _).
  exists h. split; [reflexivity|]. split; [exact Hh | exact Hp].
Defined.

Lemma serial_ensemble_by_seed_witness :
  exists r h,
    HONE_kuramoto_ensemble (Rng := counter_random) [] 5%Z true
      (pair_network 1%R) 1 0 2 (/ 10000)%R (/ 100)%R 1%R (/ 10)%R (/ 2)%R = Ok r /\
    HONE_worker_with_damped_kuramoto (Rng := counter_random)
      (pair_network 1%R) 1 0 (/ 10000)%R 1 (/ 100)%R 1%R (/ 10)%R (/ 2)%R = Ok h /\
    nth_error (ensemble_positions r) 1 = Some (positions_history h).
Proof.
  eexists.
  destruct (serial_ensemble_by_seed (Rng := counter_random) 5%Z true
              (pair_network 1%R) 1 0 2 (/ 10000)%R (/ 100)%R 1%R (/ 10)%R (/ 2)%R _ 1
              eq_refl ltac:(simpl; lia))
    as (h & Hh & Hp & _).
  exists h. split; [reflexivity|]. split; [exact Hh | exact Hp].
Defined.

(** The same call of the orchestrator under the two interleavings: slot 0
    starts from different positions. *)
Example interleaving_changes_slot_0 :
  exists r_serial r_racy,
    HONE_kuramoto_ensemble (Rng := counter_random) [] 0%Z true
      (pair_network 1%R) 1 0 2 (/ 10000)%R (/ 100)%R 1%R (/ 10)%R (/ 2)%R = Ok r_serial /\
    HONE_kuramoto_ensemble (Rng := counter_random) [0; 1] 0%Z true
      (pair_network 1%R) 1 0 2 (/ 10000)%R (/ 100)%R 1%R (/ 10)%R (/ 2)%R = Ok r_racy /\
    nth_error (ensemble_positions r_serial) 0 = Some [[[0 / 8]; [1 / 8]]%R] /\
    nth_error (ensemble_positions r_racy) 0 = Some [[[1 / 8]; [2 / 8]]%R] /\
    nth_error (ensemble_positions r_serial) 0 <> nth_error (ensemble_positions r_racy) 0.
Proof.
  do 2 eexists. split; [reflexivity|]. split; [reflexivity|].
  split; [reflexivity|]. split; [reflexivity|].
  cbn. intros [= Heq _]. change (0 / 8 = 1 / 8)%R in Heq. lra.
Qed.

(** ** History entries are independent copies *)

Section HeapFacts.

Context {F : Type} {Sc : Scalar F} {Tr : Trig F}.
Variable adj_matrix : mat F.
Variable dim : nat.
Variables (tol dt gamma gamma_theta K : F).

Lemma get2_old (s : store F) (a : ndarray F) (r : ref) :
  r < length s -> get2 (s ++ [a]) r = get2 s r.
Proof. intros Hr. unfold get2. now rewrite lookup_app_l. Qed.

Lemma get1_old (s : store F) (a : ndarray F) (r : ref) :
  r < length s -> get1 (s ++ [a]) r = get1 s r.
Proof. intros Hr. unfold get1. now rewrite lookup_app_l. Qed.

Lemma get2_new (s : store F) (m : mat F) : get2 (s ++ [Arr2 m]) (length s) = m.
Proof. unfold get2. now rewrite list_lookup_middle. Qed.

Lemma get1_new (s : store F) (v : vec F) : get1 (s ++ [Arr1 v]) (length s) = v.
Proof. unfold get1. now rewrite list_lookup_middle. Qed.

Lemma get2_written (s : store F) (m : mat F) (r : ref) :
  r < length s -> get2 (<[r := Arr2 m]> s) r = m.
Proof. intros Hr. unfold get2. now rewrite list_lookup_insert_eq. Qed.

Lemma get1_written (s : store F) (v : vec F) (r : ref) :
  r < length s -> get1 (<[r := Arr1 v]> s) r = v.
Proof. intros Hr. unfold get1. now rewrite list_lookup_insert_eq. Qed.

Lemma get2_other (s : store F) (a : ndarray F) (r r' : ref) :
  r <> r' -> get2 (<[r := a]> s) r' = get2 s r'.
Proof. intros Hr. unfold get2. now rewrite list_lookup_insert_ne. Qed.

Lemma get1_other (s : store F) (a : ndarray F) (r r' : ref) :
  r <> r' -> get1 (<[r := a]> s) r' = get1 s r'.
Proof. intros Hr. unfold get1. now rewrite list_lookup_insert_ne. Qed.

Lemma alloc2_inv (m : mat F) (s s' : store F) (r : ref) :
  alloc (Arr2 m) s = (r, s') ->
  r = length s /\ length s' = S (length s) /\ get2 s' r = m /\
  (forall x, x < length s -> get2 s' x = get2 s x) /\
  (forall x, x < length s -> get1 s' x = get1 s x) /\
  (forall x, x < length s -> s' !! x = s !! x).
Proof.
  unfold alloc. intros [= <- <-]. rewrite length_app. cbn [length].
  split; [reflexivity|]. split; [lia|]. split; [apply get2_new|].
  split; [intros; now apply get2_old|]. split; [intros; now apply get1_old|].
  intros. now apply lookup_app_l.
Qed.

Lemma alloc1_inv (v : vec F) (s s' : store F) (r : ref) :
  alloc (Arr1 v) s = (r, s') ->
  r = length s /\ length s' = S (length s) /\ get1 s' r = v /\
  (forall x, x < length s -> get2 s' x = get2 s x) /\
  (forall x, x < length s -> get1 s' x = get1 s x) /\
  (forall x, x < length s -> s' !! x = s !! x).
Proof.
  unfold alloc. intros [= <- <-]. rewrite length_app. cbn [length].
  split; [reflexivity|]. split; [lia|]. split; [apply get1_new|].
  split; [intros; now apply get2_old|]. split; [intros; now apply get1_old|].
  intros. now apply lookup_app_l.
Qed.

Lemma write2_inv (m : mat F) (s : store F) (r : ref) :
  r < length s ->
  length (<[r := Arr2 m]> s) = length s /\ get2 (<[r := Arr2 m]> s) r = m /\
  (forall x, x <> r -> get2 (<[r := Arr2 m]> s) x = get2 s x) /\
  (forall x, x <> r -> get1 (<[r := Arr2 m]> s) x = get1 s x) /\
  (forall x, x <> r -> <[r := Arr2 m]> s !! x = s !! x).
Proof.
  intros Hr. split; [apply length_insert|]. split; [now apply get2_written|].
  split; [intros; now apply get2_other|]. split; [intros; now apply get1_other|].
  intros. now apply list_lookup_insert_ne.
Qed.

Lemma write1_inv (v : vec F) (s : store F) (r : ref) :
  r < length s ->
  length (<[r := Arr1 v]> s) = length s /\ get1 (<[r := Arr1 v]> s) r = v /\
  (forall x, x <> r -> get2 (<[r := Arr1 v]> s) x = get2 s x) /\
  (forall x, x <> r -> get1 (<[r := Arr1 v]> s) x = get1 s x) /\
  (forall x, x <> r -> <[r := Arr1 v]> s !! x = s !! x).
Proof.
  intros Hr. split; [apply length_insert|]. split; [now apply get1_written|].
  split; [intros; now apply get2_other|]. split; [intros; now apply get1_other|].
  intros. now apply list_lookup_insert_ne.
Qed.

Lemma heap_step_agrees (s : store F) (fr : frame F) :
  frame_ok s fr -> step_agrees adj_matrix dim tol dt gamma gamma_theta K s fr.
Proof.
  intros (Hp & Hv & Hph & Hpv & Hfr & Hhist & Hvp & Hvph & Hvpv & Hvfr & Hpvp & Hpvph & Hpvfr
          & Hvh & Hpvh).
  unfold step_agrees, heap_step, sim_step, phase_step.
  cbn [state_of frequencies_of positions velocities phases phase_velocities].
  destruct (calculate_forces adj_matrix dim (get2 s (v_positions fr))) as [f|e];
    cbn [bind]; [|reflexivity].
  cbv zeta.
  destruct (alloc (Arr2 f) s) as [r1 s1] eqn:E1.
  apply alloc2_inv in E1 as (-> & L1 & N1 & O21 & O11 & Ol1).
  rewrite ?N1. rewrite ?O21 by lia.
  destruct (alloc _ s1) as [r2 s2] eqn:E2.
  apply alloc2_inv in E2 as (-> & L2 & N2 & O22 & O12 & Ol2).
  rewrite ?N2. rewrite ?O22 by lia. rewrite ?O21 by lia.
  match goal with |- context [<[v_velocities fr := Arr2 ?m]> s2] =>
    destruct (write2_inv m s2 (v_velocities fr) ltac:(lia)) as (L3 & N3 & O23 & O13 & Ol3);
    set (s3 := <[v_velocities fr := Arr2 m]> s2) in *; clearbody s3 end.
  rewrite ?N3. rewrite ?O23 by lia. rewrite ?O22 by lia. rewrite ?O21 by lia.
  destruct (alloc _ s3) as [r4 s4] eqn:E4.
  apply alloc2_inv in E4 as (-> & L4 & N4 & O24 & O14 & Ol4).
  rewrite ?N4.
  destruct (alloc _ s4) as [r5 s5] eqn:E5.
  apply alloc2_inv in E5 as (-> & L5 & N5 & O25 & O15 & Ol5).
  rewrite ?O15 by lia. rewrite ?O14 by lia. rewrite ?O13 by lia. rewrite ?O12 by lia.
  rewrite ?O11 by lia.
  destruct (alloc _ s5) as [r6 s6] eqn:E6.
  apply alloc1_inv in E6 as (-> & L6 & N6 & O26 & O16 & Ol6).
  rewrite ?N6. rewrite ?O16 by lia. rewrite ?O15 by lia. rewrite ?O14 by lia.
  rewrite ?O13 by lia. rewrite ?O12 by lia. rewrite ?O11 by lia.
  destruct (alloc _ s6) as [r7 s7] eqn:E7.
  apply alloc1_inv in E7 as (-> & L7 & N7 & O27 & O17 & Ol7).
  rewrite ?N7. rewrite ?O17 by lia. rewrite ?O16 by lia. rewrite ?O15 by lia.
  rewrite ?O14 by lia. rewrite ?O13 by lia. rewrite ?O12 by lia. rewrite ?O11 by lia.
  match goal with |- context [<[v_phase_velocities fr := Arr1 ?v]> s7] =>
    destruct (write1_inv v s7 (v_phase_velocities fr) ltac:(lia)) as (L8 & N8 & O28 & O18 & Ol8);
    set (s8 := <[v_phase_velocities fr := Arr1 v]> s7) in *; clearbody s8 end.
  rewrite ?N8. rewrite ?O18 by lia. rewrite ?O17 by lia. rewrite ?O16 by lia.
  rewrite ?O15 by lia. rewrite ?O14 by lia. rewrite ?O13 by lia. rewrite ?O12 by lia.
  rewrite ?O11 by lia.
  destruct (alloc _ s8) as [r9 s9] eqn:E9.
  apply alloc1_inv in E9 as (-> & L9 & N9 & O29 & O19 & Ol9).
  rewrite ?N9.
  destruct (alloc _ s9) as [r10 s10] eqn:E10.
  apply alloc1_inv in E10 as (-> & L10 & N10 & O210 & O110 & Ol10).
  assert (K2 : forall x, x < length s -> x <> v_velocities fr -> x <> v_phase_velocities fr ->
                 get2 s10 x = get2 s x).
  { intros x Hx Hxv Hxpv.
    rewrite O210, O29, O28, O27, O26, O25, O24, O23, O22, O21 by lia. reflexivity. }
  assert (K1 : forall x, x < length s -> x <> v_velocities fr -> x <> v_phase_velocities fr ->
                 get1 s10 x = get1 s x).
  { intros x Hx Hxv Hxpv.
    rewrite O110, O19, O18, O17, O16, O15, O14, O13, O12, O11 by lia. reflexivity. }
  assert (Kl : forall x, x < length s -> x <> v_velocities fr -> x <> v_phase_velocities fr ->
                 s10 !! x = s !! x).
  { intros x Hx Hxv Hxpv.
    rewrite Ol10, Ol9, Ol8, Ol7, Ol6, Ol5, Ol4, Ol3, Ol2, Ol1 by lia. reflexivity. }
  assert (Rv : get2 s10 (v_velocities fr) = get2 s3 (v_velocities fr))
    by (rewrite O210, O29, O28, O27, O26, O25, O24 by lia; reflexivity).
  assert (Rpv : get1 s10 (v_phase_velocities fr) = get1 s8 (v_phase_velocities fr))
    by (rewrite O110, O19 by lia; reflexivity).
  assert (Rnp : get2 s10 (length s3) = get2 s4 (length s3))
    by (rewrite O210, O29, O28, O27, O26, O25 by lia; reflexivity).
  assert (Rc1 : get2 s10 (length s4) = get2 s5 (length s4))
    by (rewrite O210, O29, O28, O27, O26 by lia; reflexivity).
  assert (Rnph : get1 s10 (length s8) = get1 s9 (length s8))
    by (rewrite O110 by lia; reflexivity).
  rewrite N3 in Rv. rewrite N8 in Rpv. rewrite N4 in Rnp. rewrite N5 in Rc1.
  rewrite N9 in Rnph.
  assert (Hin : forall r, In r (v_positions_history fr ++ v_phase_history fr) ->
                  r < length s /\ r <> v_velocities fr /\ r <> v_phase_velocities fr).
  { intros r Hr. rewrite List.Forall_forall in Hhist.
    split; [now apply Hhist|]. split; intros ->; contradiction. }
  rewrite ?Rnp, ?Rv, ?(K2 (v_positions fr)) by lia.
  eexists. split; [reflexivity|].
  cbn [total_movement new_positions new_velocities new_phases new_phase_velocities
       kinetic_energy potential_energy total_energy].
  split; [reflexivity|].
  set (stop := fltb _ tol).
  split; [|split; [|split; [|split; [|split; [|split]]]]].
  - unfold frame_ok. cbn [v_positions v_velocities v_phases v_phase_velocities
                          v_intrinsic_frequencies v_positions_history v_phase_history].
    assert (Hall : Forall (fun r => r < length s10)
              ((v_positions_history fr ++ [length s4]) ++ v_phase_history fr ++ [length s9])).
    { apply Forall_app in Hhist as [H1 H2].
      assert (Hle : forall x, x < length s -> x < length s10) by (intros; lia).
      apply Forall_app; split; apply Forall_app; split.
      - eapply Forall_impl; [exact H1 | exact Hle].
      - constructor; [lia | constructor].
      - eapply Forall_impl; [exact H2 | exact Hle].
      - constructor; [lia | constructor]. }
    assert (Hnotv : forall x, x < length s ->
              ~ In x (v_positions_history fr ++ v_phase_history fr) ->
              ~ In x ((v_positions_history fr ++ [length s4]) ++ v_phase_history fr ++ [length s9])).
    { intros x Hx Hnot Hinx. apply Hnot. apply in_app_iff.
      apply in_app_iff in Hinx as [Hinx|Hinx]; apply in_app_iff in Hinx as [Hinx|Hinx].
      - now left.
      - destruct Hinx as [Heq|[]]. lia.
      - now right.
      - destruct Hinx as [Heq|[]]. lia. }
    destruct stop; repeat split; try lia; auto.
  - unfold frequencies_of. cbn [v_intrinsic_frequencies]. apply K1; lia.
  - intros Hstop. rewrite Hstop. unfold state_of, advance.
    cbn [v_positions v_velocities v_phases v_phase_velocities new_positions new_velocities
         new_phases new_phase_velocities].
    now rewrite Rnp, Rv, Rnph, Rpv.
  - unfold returned, record_step.
    cbn [fst snd v_positions_history v_phase_history v_potential_energy_history
         v_kinetic_energy_history v_total_energy_history positions_history phase_history
         potential_energy_history kinetic_energy_history total_energy_history
         new_positions new_phases potential_energy kinetic_energy total_energy].
    rewrite !map_app. cbn [map]. rewrite Rc1, N10.
    f_equal; f_equal; apply map_ext_in; intros r Hr.
    + destruct (Hin r) as (? & ? & ?); [apply in_app_iff; now left|]. now apply K2.
    + destruct (Hin r) as (? & ? & ?); [apply in_app_iff; now right|]. now apply K1.
  - intros r Hr. destruct (Hin r Hr) as (? & ? & ?). now apply Kl.
  - cbn [v_positions_history]. eauto.
  - cbn [v_phase_history]. eauto.
Qed.


Local Abbreviation hloop := (heap_loop adj_matrix dim tol dt gamma gamma_theta K).

(** The heap loop and the pure loop agree, and the loop leaves every entry
    recorded before it as it was. *)
Lemma heap_loop_agrees (n : nat) :
  forall (s : store F) (fr : frame F),
    frame_ok s fr ->
    match hloop n s fr with
    | Raise e =>
        simulation_loop adj_matrix dim tol dt gamma gamma_theta K (frequencies_of s fr)
          n (state_of s fr) (returned (s, fr)) = Raise e
    | Ok (s', fr') =>
        simulation_loop adj_matrix dim tol dt gamma gamma_theta K (frequencies_of s fr)
          n (state_of s fr) (returned (s, fr)) = Ok (returned (s', fr')) /\
        frame_ok s' fr' /\
        (forall r, In r (v_positions_history fr ++ v_phase_history fr) -> s' !! r = s !! r) /\
        (exists l, v_positions_history fr' = v_positions_history fr ++ l) /\
        (exists l, v_phase_history fr' = v_phase_history fr ++ l)
    end.
Proof.
  induction n as [|n IH]; intros s fr Hok; cbn [heap_loop simulation_loop].
  - split; [reflexivity|]. split; [exact Hok|]. split; [reflexivity|].
    split; exists []; now rewrite app_nil_r.
  - pose proof (heap_step_agrees s fr Hok) as Hstep. unfold step_agrees in Hstep.
    destruct (heap_step adj_matrix dim tol dt gamma gamma_theta K s fr)
      as [[[s1 fr1] stop]|e]; cbn [bind fst snd].
    + destruct Hstep as (o & Ho & Hstop & Hok1 & Hfreq & Hadv & Hret & Hkeep & [c1 Hc1] & [c2 Hc2]).
      rewrite Ho. cbn [bind]. rewrite <- Hstop.
      destruct stop.
      * split; [now rewrite Hret|]. split; [exact Hok1|]. split; [exact Hkeep|].
        split; eauto.
      * specialize (IH s1 fr1 Hok1). rewrite Hfreq, (Hadv eq_refl), Hret in IH.
        destruct (hloop n s1 fr1) as [[s' fr']|e]; [|exact IH].
        destruct IH as (Hrun & Hok' & Hkeep' & [l1 Hl1] & [l2 Hl2]).
        split; [exact Hrun|]. split; [exact Hok'|]. split.
        -- intros r Hr. rewrite Hkeep'; [now apply Hkeep|].
           rewrite Hc1, Hc2. apply in_app_iff in Hr as [Hr|Hr]; apply in_app_iff;
             [left | right]; apply in_app_iff; now left.
        -- split.
           ++ exists (c1 :: l1). rewrite Hl1, Hc1, <- app_assoc. reflexivity.
           ++ exists (c2 :: l2). rewrite Hl2, Hc2, <- app_assoc. reflexivity.
    + now rewrite Hstep.
Qed.

(** A run with a larger budget continues the run with a smaller one. *)
Lemma heap_loop_split (k : nat) :
  forall (s sk : store F) (fr frk : frame F) (j : nat),
    hloop k s fr = Ok (sk, frk) ->
    exists j', hloop (k + j) s fr = hloop j' sk frk.
Proof.
  induction k as [|k IH]; intros s sk fr frk j Hrun; cbn [heap_loop Nat.add] in *.
  - injection Hrun as <- <-. now exists j.
  - destruct (heap_step adj_matrix dim tol dt gamma gamma_theta K s fr)
      as [[[s1 fr1] stop]|e]; cbn [bind fst snd] in *; [|discriminate].
    destruct stop.
    + injection Hrun as <- <-. now exists 0.
    + now apply IH.
Qed.

Lemma heap_init_ok (d : draws F) :
  let s := fst (heap_init adj_matrix d) in
  let fr := snd (heap_init adj_matrix d) in
  frame_ok s fr /\
  state_of s fr = initial_state adj_matrix d /\
  frequencies_of s fr = drawn_frequencies d /\
  returned (s, fr) = initial_histories d.
Proof.
  cbv zeta. unfold heap_init, alloc. cbn [fst snd length app].
  split; [|split; [|split]]; try reflexivity.
  unfold frame_ok. cbn.
  repeat split; try lia; try (intros Hin; intuition lia).
  repeat constructor.
Qed.

End HeapFacts.

(** C10. The worker run over a store of array objects returns exactly when
    the worker on values does, and the arrays its two history lists refer to
    hold, in the final store, the values the worker on values recorded step by
    step.  Moreover the entries recorded by the time [k] iterations have run
    are still entries of the final lists, and the final store holds in them
    what the store held then: no later in-place update reaches a recorded
    snapshot. *)
Theorem history_entries_are_snapshots
    {F : Type} {Sc : Scalar F} {Tr : Trig F}
    (adj : mat F) (dim : nat) (iterations : Z) (tol dt gamma gamma_theta K : F)
    (d : draws F) :
  match heap_simulate adj dim tol dt gamma gamma_theta K iterations d with
  | Raise e => simulate adj dim iterations tol dt gamma gamma_theta K d = Raise e
  | Ok (s, fr) =>
      simulate adj dim iterations tol dt gamma gamma_theta K d = Ok (returned (s, fr)) /\
      forall k sk frk,
        k <= Z.to_nat iterations ->
        heap_loop adj dim tol dt gamma gamma_theta K k
          (fst (heap_init adj d)) (snd (heap_init adj d)) = Ok (sk, frk) ->
        (exists l, v_positions_history fr = v_positions_history frk ++ l) /\
        (exists l, v_phase_history fr = v_phase_history frk ++ l) /\
        forall r, In r (v_positions_history frk ++ v_phase_history frk) ->
          s !! r = sk !! r
  end.
Proof.
  unfold heap_simulate, simulate.
  destruct (heap_init_ok adj d) as (Hok & Hst & Hfr & Hret). cbv zeta in *.
  destruct (heap_init adj d) as [s0 fr0] eqn:Hinit. cbn [fst snd] in *.
  pose proof (heap_loop_agrees adj dim tol dt gamma gamma_theta K (Z.to_nat iterations)
                s0 fr0 Hok) as Hrun.
  rewrite Hst, Hfr, Hret in Hrun.
  destruct (heap_loop adj dim tol dt gamma gamma_theta K (Z.to_nat iterations) s0 fr0)
    as [[s fr]|e] eqn:Hfull; [|exact Hrun].
  destruct Hrun as (Hrun & _). split; [exact Hrun|].
  intros k sk frk Hk Hprefix.
  pose proof (heap_loop_agrees adj dim tol dt gamma gamma_theta K k s0 fr0 Hok) as Hk_ok.
  rewrite Hprefix in Hk_ok. destruct Hk_ok as (_ & Hokk & _).
  destruct (heap_loop_split adj dim tol dt gamma gamma_theta K k s0 sk fr0 frk
              (Z.to_nat iterations - k) Hprefix) as [j' Hj'].
  replace (k + (Z.to_nat iterations - k)) with (Z.to_nat iterations) in Hj' by lia.
  rewrite Hfull in Hj'.
  pose proof (heap_loop_agrees adj dim tol dt gamma gamma_theta K j' sk frk Hokk) as Hrest.
  rewrite <- Hj' in Hrest. destruct Hrest as (_ & _ & Hkeep & Hl1 & Hl2).
  split; [exact Hl1|]. split; [exact Hl2 | exact Hkeep].
Qed.

(** * Further properties of the program *)

(** ** The coercion of an unweighted graph *)

Section Binarize.

Local Open Scope R_scope.

Lemma binarize_row (a : mat R) (i : nat) :
  row (binarize a) i = map (fun x => if fltb 0 x then 1 else x) (row a i).
Proof.
  unfold row, binarize, mmap.
  change (@nil R) with (map (fun x : R => if fltb 0 x then 1 else x) []) at 1.
  apply map_nth.
Qed.

(** Lines 150 and 151: on an unweighted graph every positive entry of the
    matrix becomes 1 and every other entry stays as it is; the array keeps its
    shape, and coercing a second time changes nothing. *)
Theorem binarize_coerces (a : mat R) :
  length (binarize a) = length a /\
  (forall i, length (row (binarize a) i) = length (row a i)) /\
  (forall i j, 0 < entry a i j -> entry (binarize a) i j = 1) /\
  (forall i j, entry a i j <= 0 -> entry (binarize a) i j = entry a i j) /\
  binarize (binarize a) = binarize a.
Proof.
  assert (Hentry : forall i j,
            entry (binarize a) i j = if fltb 0 (entry a i j) then 1 else entry a i j).
  { intros i j. unfold entry. rewrite binarize_row.
    destruct (Nat.lt_ge_cases j (length (row a i))) as [Hj|Hj].
    - rewrite (nth_map_in _ _ _ 0 fzero) by exact Hj. reflexivity.
    - rewrite !nth_overflow by (rewrite ?length_map; exact Hj).
      simpl. destruct (Rlt_dec 0 0); [lra | reflexivity]. }
  split; [unfold binarize, mmap; apply length_map|].
  split; [intros i; rewrite binarize_row; apply length_map|].
  split; [intros i j Hpos; rewrite Hentry, fltb_R_true by exact Hpos; reflexivity|].
  split; [intros i j Hneg; rewrite Hentry, fltb_R_false by lra; reflexivity|].
  unfold binarize, mmap. rewrite map_map. apply map_ext. intros r.
  rewrite map_map. apply map_ext. intros x. simpl.
  destruct (Rlt_dec 0 x) as [Hx|Hx].
  - destruct (Rlt_dec 0 1); [reflexivity | lra].
  - destruct (Rlt_dec 0 x); [contradiction | reflexivity].
Qed.

End Binarize.

(** ** When the force computation fails *)

Section FailureCondition.

Local Open Scope R_scope.

Lemma select_mask_inv {A : Type} (f : A -> bool) (l : list A) :
  select (map f l) l = [] -> Forall (fun x => f x = false) l.
Proof.
  induction l as [|x l IH]; simpl; intros Hsel; [constructor|].
  destruct (f x) eqn:Hfx; [discriminate|].
  constructor; auto.
Qed.

Lemma far_distances_empty_iff (positions : mat R) (i : nat) :
  far_distances positions i = [] <->
  Forall (fun p => norm (vzip fsub p (row positions i)) <= / 1000000) positions.
Proof.
  split.
  - intros Hfar. unfold far_distances, norm_axis1 in Hfar.
    apply select_mask_inv in Hfar.
    rewrite !List.Forall_map in Hfar.
    eapply List.Forall_impl; [|exact Hfar].
    intros p Hp. cbv beta in Hp.
    destruct (Rle_dec (norm (vzip fsub p (row positions i))) (/ 1000000)) as [Hle|Hgt];
      [exact Hle|].
    apply Rnot_le_lt in Hgt.
    rewrite fltb_R_true in Hp; [discriminate | exact Hgt].
  - intros Hall. apply far_distances_near.
    eapply List.Forall_impl; [|exact Hall].
    intros p Hp. exact Hp.
Qed.

Lemma far_distances_nonempty_iff (positions : mat R) (i : nat) :
  far_distances positions i <> [] <->
  exists j, (j < length positions)%nat /\ / 1000000 < distance positions i j.
Proof.
  split.
  - intros Hfar.
    destruct (List.Exists_dec
                (fun p => / 1000000 < norm (vzip fsub p (row positions i))) positions
                (fun p => Rlt_dec (/ 1000000) (norm (vzip fsub p (row positions i)))))
      as [Hex|Hno].
    + apply List.Exists_exists in Hex as (p & Hin & Hp).
      apply (In_nth _ _ []) in Hin as (j & Hj & <-).
      exists j. split; [exact Hj | exact Hp].
    + exfalso. apply Hfar, far_distances_empty_iff.
      apply List.Forall_forall. intros p Hin.
      destruct (Rle_dec (norm (vzip fsub p (row positions i))) (/ 1000000)) as [Hle|Hgt]; [exact Hle|].
      exfalso. apply Hno, List.Exists_exists. exists p.
      split; [exact Hin | apply Rnot_le_lt, Hgt].
  - intros (j & Hj & Hd). apply (far_distances_nonempty positions i j Hj).
    exact Hd.
Qed.

Lemma isolated_node_dec (positions : mat R) (n : nat) :
  (forall i, (i < n)%nat -> far_distances positions i <> []) \/
  (exists i, (i < n)%nat /\ far_distances positions i = []).
Proof.
  induction n as [|n [IH|(i & Hi & Hfar)]].
  - left. intros i Hi. lia.
  - destruct (far_distances positions n) eqn:Hn.
    + right. exists n. split; [lia | exact Hn].
    + left. intros i Hi. destruct (Nat.eq_dec i n) as [->|Hne].
      * rewrite Hn. discriminate.
      * apply IH. lia.
  - right. exists i. split; [lia | exact Hfar].
Qed.

(** [calculate_forces] raises [ValueError] exactly when some node has every
    node of the array within 1e-6 of it (the masked array whose minimum line
    65 takes is then empty), and returns exactly when every node has a node
    further than 1e-6 away. *)
Theorem calculate_forces_fails_iff (adj : mat R) (dim : nat) (positions : mat R) :
  (calculate_forces adj dim positions = Raise ValueError <->
   exists i, (i < num_nodes adj)%nat /\
     Forall (fun p => norm (vzip fsub p (row positions i)) <= / 1000000) positions) /\
  ((exists forces, calculate_forces adj dim positions = Ok forces) <->
   forall i, (i < num_nodes adj)%nat ->
     exists j, (j < length positions)%nat /\ / 1000000 < distance positions i j).
Proof.
  destruct (isolated_node_dec positions (num_nodes adj)) as [Hfar|(i & Hi & Hnear)].
  - destruct (calculate_forces_returns adj dim positions Hfar) as [forces Hok].
    split; split.
    + rewrite Hok. discriminate.
    + intros (i & Hi & Hall). exfalso.
      apply (Hfar i Hi), far_distances_empty_iff, Hall.
    + intros _ i Hi. apply far_distances_nonempty_iff, Hfar, Hi.
    + intros _. exists forces. exact Hok.
  - pose proof (calculate_forces_raises adj dim positions i Hi Hnear) as Hraise.
    split; split.
    + intros _. exists i. split; [exact Hi|]. apply far_distances_empty_iff, Hnear.
    + intros _. exact Hraise.
    + intros [forces Hok]. rewrite Hok in Hraise. discriminate.
    + intros Hall. exfalso.
      apply (proj2 (far_distances_nonempty_iff positions i) (Hall i Hi)), Hnear.
Qed.

End FailureCondition.

(** ** The movement measure and the stopping rule *)

Section Movement.

Local Open Scope R_scope.

Lemma step_displacement (dt : R) (p v : vec R) :
  length p = length v ->
  vzip fsub (vzip fadd p (map (fun x => fmul x dt) v)) p = map (fun x => dt * x) v.
Proof.
  unfold vzip. revert v.
  induction p as [|x p IH]; intros [|y v] Hlen; simpl in *; try discriminate.
  - reflexivity.
  - rewrite IH by lia. f_equal. lra.
Qed.

Lemma movement_of_step (n d : nat) (dt : R) (p v : mat R) :
  shape n d p -> shape n d v ->
  movement (mzip fadd p (mmap (fun x => fmul x dt) v)) p = Rabs dt * np_sum (norm_axis1 v).
Proof.
  intros [Hn Hp] [Hm Hv]. unfold movement.
  rewrite <- np_sum_scale. f_equal. subst n. revert v Hm Hv.
  induction p as [|r p IH]; intros [|u v] Hm Hv; simpl in *; try discriminate; [reflexivity|].
  inversion Hp as [|? ? Hr Hp']; subst. inversion Hv as [|? ? Hu Hv']; subst.
  unfold mzip, mmap, norm_axis1 in *. cbn [map combine fst snd].
  rewrite step_displacement by lia. f_equal.
  - exact (norm_scale dt u).
  - apply IH; [exact Hp' | lia | exact Hv'].
Qed.

Lemma movement_nonneg (a b : mat R) : 0 <= movement a b.
Proof.
  unfold movement, norm_axis1. apply np_sum_nonneg.
  apply List.Forall_forall. intros x Hx. apply in_map_iff in Hx as (r & <- & _).
  apply norm_nonneg.
Qed.

Lemma sim_step_shapes {F : Type} {Sc : Scalar F} {Tr : Trig F}
    (adj : mat F) (dim : nat) (dt gamma gamma_theta K : F) (freqs : vec F)
    (st : sim_state F) (o : step_out F) :
  sim_step adj dim dt gamma gamma_theta K freqs st = Ok o ->
  shape (num_nodes adj) dim (positions st) ->
  shape (num_nodes adj) dim (velocities st) ->
  shape (num_nodes adj) dim (new_velocities o) /\
  shape (num_nodes adj) dim (new_positions o).
Proof.
  intros Hstep Hpos Hvel.
  destruct (sim_step_inv _ _ _ _ _ _ _ _ _ Hstep) as (forces & Hforces & Hv & Hp & _).
  destruct (calculate_forces_inv _ _ _ _ Hforces Hpos) as [Hshape _].
  assert (Hnv : shape (num_nodes adj) dim (new_velocities o)).
  { rewrite Hv. apply shape_mzip; [exact Hvel|].
    apply shape_mzip; apply shape_mmap; assumption. }
  split; [exact Hnv|]. rewrite Hp. apply shape_mzip; [exact Hpos|].
  apply shape_mmap, Hnv.
Qed.

(** The quantity compared with [tol] on line 111 is [|dt|] times the sum of
    the nodes' speeds after the velocity update: the loop stops on the total
    speed, scaled by the time step. *)
Theorem movement_is_scaled_speed
    (adj : mat R) (dim : nat) (dt gamma gamma_theta K : R) (freqs : vec R)
    (st : sim_state R) (o : step_out R) :
  sim_step adj dim dt gamma gamma_theta K freqs st = Ok o ->
  shape (num_nodes adj) dim (positions st) ->
  shape (num_nodes adj) dim (velocities st) ->
  total_movement o = Rabs dt * np_sum (norm_axis1 (new_velocities o)).
Proof.
  intros Hstep Hpos Hvel.
  destruct (sim_step_shapes _ _ _ _ _ _ _ _ _ Hstep Hpos Hvel) as [Hnv _].
  destruct (sim_step_inv _ _ _ _ _ _ _ _ _ Hstep) as (_ & _ & _ & Hp & _ & _ & _ & _ & Hm).
  rewrite Hm, Hp. apply (movement_of_step (num_nodes adj) dim); assumption.
Qed.

Lemma movement_is_scaled_speed_witness :
  exists o,
    sim_step (pair_network 1) 1 (/ 100) 1 (/ 10) (/ 2) [0; 0] moving_pair = Ok o /\
    total_movement o = Rabs (/ 100) * np_sum (norm_axis1 (new_velocities o)).
Proof.
  destruct (sim_step_returns (pair_network 1) 1 (/ 100) 1 (/ 10) (/ 2) [0; 0] moving_pair
              moving_pair_far) as [o Ho].
  exists o. split; [exact Ho|].
  apply (movement_is_scaled_speed (pair_network 1) 1 (/ 100) 1 (/ 10) (/ 2) [0; 0] moving_pair o Ho).
  - split; [reflexivity | repeat constructor].
  - split; [reflexivity | repeat constructor].
Defined.

Lemma drawn_lengths {F : Type} {Sc : Scalar F} {Tr : Trig F} {G : Type}
    {Rng : NumpyRandom G F} (adj : mat F) (dim : nat) (g : G) :
  let d := fst (draw_initial adj dim g) in
  shape (num_nodes adj) dim (drawn_positions d) /\
  length (drawn_phases d) = num_nodes adj /\
  length (drawn_frequencies d) = num_nodes adj.
Proof.
  cbn zeta. split; [exact (drawn_positions_rows adj dim g)|].
  unfold draw_initial.
  destruct (np_random_rand (num_nodes adj) dim g) as [pos g1].
  pose proof (draw_vec_length
                (fun g => let (u, g') := random_sample g in
                          (fadd fzero (fmul (fsub (fmul (fadd fone fone) fpi) fzero) u), g'))
                (num_nodes adj) g1) as Hph.
  fold (np_random_uniform fzero (fmul (fadd fone fone) fpi) (num_nodes adj) g1) in Hph.
  destruct (np_random_uniform fzero (fmul (fadd fone fone) fpi) (num_nodes adj) g1) as [ph g2].
  pose proof (draw_vec_length
                (fun g => let (z, g') := standard_normal g in
                          (fadd fzero (fmul fone z), g'))
                (num_nodes adj) g2) as Hfr.
  fold (np_random_normal fzero fone (num_nodes adj) g2) in Hfr.
  destruct (np_random_normal fzero fone (num_nodes adj) g2) as [fr g3].
  cbn [fst drawn_phases drawn_frequencies]. split; [exact Hph | exact Hfr].
Qed.

Lemma initial_state_shapes {F : Type} {Sc : Scalar F} {Tr : Trig F} {G : Type}
    {Rng : NumpyRandom G F} (adj : mat F) (dim : nat) (g : G) :
  let st := initial_state adj (fst (draw_initial adj dim g)) in
  shape (num_nodes adj) dim (positions st) /\
  shape (num_nodes adj) dim (velocities st) /\
  length (phases st) = num_nodes adj /\
  length (phase_velocities st) = num_nodes adj.
Proof.
  destruct (drawn_lengths adj dim g) as (Hpos & Hph & _). cbn zeta.
  unfold initial_state. cbn [positions velocities phases phase_velocities].
  split; [exact Hpos|]. split; [apply shape_mmap, Hpos|].
  split; [exact Hph | apply repeat_length].
Qed.

Lemma initial_recorded {F : Type} {Sc : Scalar F} (adj : mat F) (d : draws F) :
  recorded 0 (initial_state adj d) (initial_histories d).
Proof. unfold recorded, initial_histories, initial_state. simpl. tauto. Qed.

(** With [tol <= 0] the test of line 111 never succeeds (the movement is a
    sum of norms), so a run that returns has made every one of its
    [iterations] steps. *)
Theorem nonpositive_tol_never_stops {G : Type} {Rng : NumpyRandom G R}
    (adj : mat R) (dim : nat) (iterations : Z) (tol : R) (seed : Z)
    (dt gamma gamma_theta K : R) (h : histories R) :
  tol <= 0 ->
  HONE_worker_with_damped_kuramoto adj dim iterations tol seed dt gamma gamma_theta K = Ok h ->
  length (total_energy_history h) = Z.to_nat iterations /\
  length (positions_history h) = (Z.to_nat iterations + 1)%nat /\
  length (phase_history h) = (Z.to_nat iterations + 1)%nat.
Proof.
  intros Htol Hrun. unfold HONE_worker_with_damped_kuramoto, simulate in Hrun.
  destruct (loop_steps _ _ _ _ _ _ _ _ _ 0 _ _ _ (initial_recorded adj _) Hrun)
    as (m' & st' & Hrec & Hle & _ & _ & Hstop).
  assert (Hm : m' = Z.to_nat iterations).
  { destruct (Nat.lt_ge_cases m' (0 + Z.to_nat iterations)) as [Hlt|Hge]; [|lia].
    destruct (Hstop Hlt) as (s & _ & _ & Hconv).
    apply fltb_R_iff in Hconv.
    pose proof (movement_nonneg (nth (s + 1) (positions_history h) [])
                  (nth s (positions_history h) [])).
    lra. }
  destruct Hrec as (Ht & _ & _ & Hph & Hp & _). rewrite <- Hm. auto.
Qed.

Lemma nonpositive_tol_never_stops_witness :
  exists h,
    HONE_worker_with_damped_kuramoto (Rng := counter_random)
      (pair_network 1) 1 1 0 0 (/ 100) 1 (/ 10) (/ 2) = Ok h /\
    length (total_energy_history h) = 1%nat.
Proof.
  destruct (counter_pair_returns 1 0) as [h Hh].
  exists h. split; [exact Hh|].
  apply (nonpositive_tol_never_stops (Rng := counter_random)
           (pair_network 1) 1 1 0 0 (/ 100) 1 (/ 10) (/ 2) h); [lra | exact Hh].
Defined.

(** With [dt = 0] nothing moves: the first step leaves positions and phases
    as drawn, its movement is 0, and for a positive [tol] the run stops there,
    with two equal snapshots and one entry in each energy list. *)
Theorem zero_time_step_stops_at_once {G : Type} {Rng : NumpyRandom G R}
    (adj : mat R) (dim : nat) (iterations : Z) (tol : R) (seed : Z)
    (gamma gamma_theta K : R) (h : histories R) :
  0 < tol -> (0 < iterations)%Z ->
  HONE_worker_with_damped_kuramoto adj dim iterations tol seed 0 gamma gamma_theta K = Ok h ->
  let d := fst (draw_initial adj dim (random_seed seed)) in
  positions_history h = [drawn_positions d; drawn_positions d] /\
  phase_history h = [drawn_phases d; drawn_phases d] /\
  length (potential_energy_history h) = 1%nat /\
  length (kinetic_energy_history h) = 1%nat /\
  length (total_energy_history h) = 1%nat.
Proof.
  intros Htol Hit Hrun. cbn zeta.
  unfold HONE_worker_with_damped_kuramoto, simulate in Hrun.
  destruct (Z.to_nat iterations) as [|n] eqn:Hn; [lia|].
  destruct (initial_state_shapes adj dim (random_seed seed)) as (Hpos & Hvel & Hph & Hpv).
  destruct (drawn_lengths adj dim (random_seed seed)) as (_ & _ & Hfr).
  set (d := fst (draw_initial adj dim (random_seed seed))) in *.
  cbn [simulation_loop] in Hrun.
  destruct (sim_step adj dim 0 gamma gamma_theta K (drawn_frequencies d) (initial_state adj d))
    as [o|e] eqn:Hstep; [|discriminate].
  cbn [bind] in Hrun.
  destruct (sim_step_shapes _ _ _ _ _ _ _ _ _ Hstep Hpos Hvel) as [Hnv Hnp].
  destruct (sim_step_inv _ _ _ _ _ _ _ _ _ Hstep)
    as (_ & _ & _ & Hp & Hphase & _ & _ & _ & Hm).
  assert (Hsame : new_positions o = drawn_positions d).
  { apply (mat_ext (num_nodes adj) dim); [exact Hnp | exact Hpos|].
    intros i c Hi Hc. rewrite Hp.
    rewrite (entry_mzip _ (num_nodes adj) dim) by (try apply shape_mmap; assumption).
    rewrite (entry_mmap _ (num_nodes adj) dim) by assumption.
    change (positions (initial_state adj d)) with (drawn_positions d). simpl. lra. }
  assert (Hphases : new_phases o = drawn_phases d).
  { pose proof (phase_step_lengths adj 0 gamma_theta K _ _ _ Hph Hpv Hfr) as [Hl1 Hl2].
    rewrite <- Hphase in Hl1, Hl2. cbn [fst snd] in Hl1, Hl2.
    apply (nth_ext _ _ 0 0); [rewrite Hl2; symmetry; exact Hph|].
    intros i Hi. rewrite Hl2 in Hi.
    pose proof (phase_step_nth adj 0 gamma_theta K _ _ _ i Hph Hpv Hfr Hi) as [_ Hnth].
    rewrite <- Hphase in Hnth. cbn [fst snd] in Hnth.
    etransitivity; [exact Hnth|].
    change (phases (initial_state adj d)) with (drawn_phases d). simpl. lra. }
  assert (Hzero : total_movement o = 0).
  { rewrite Hm, Hp.
    rewrite (movement_of_step (num_nodes adj) dim) by assumption.
    rewrite Rabs_R0. lra. }
  rewrite Hzero, (fltb_R_true 0 tol Htol) in Hrun. inversion Hrun; subst h.
  unfold record_step, initial_histories. cbn. rewrite Hsame, Hphases. auto.
Qed.

Lemma zero_time_step_stops_at_once_witness :
  exists h,
    HONE_worker_with_damped_kuramoto (Rng := counter_random)
      (pair_network 1) 1 1 (/ 10000) 0 0 1 (/ 10) (/ 2) = Ok h /\
    positions_history h = [[[0 / 8]; [1 / 8]]; [[0 / 8]; [1 / 8]]].
Proof.
  pose (d := fst (draw_initial (Rng := counter_random) (pair_network 1) 1
                    (random_seed (NumpyRandom := counter_random) 0%Z))).
  destruct (sim_step_returns (pair_network 1) 1 0 1 (/ 10) (/ 2)
              (drawn_frequencies d) (initial_state (pair_network 1) d)
              (counter_pair_far 1)) as [o Ho].
  destruct (loop_one_returns (pair_network 1) 1 (/ 10000) 0 1 (/ 10) (/ 2) _ _
              (initial_histories d) o Ho) as [h Hh].
  exists h. split; [exact Hh|].
  destruct (zero_time_step_stops_at_once (Rng := counter_random)
              (pair_network 1) 1 1 (/ 10000) 0 1 (/ 10) (/ 2) h) as [Hp _];
    [lra | lia | exact Hh | exact Hp].
Defined.

End Movement.

(** ** Size and balance of the forces *)

Section ForceBounds.

Local Open Scope R_scope.

Lemma nth_fold_vzip (d c : nat) (rows : mat R) (acc : vec R) :
  length acc = d -> Forall (fun r => length r = d) rows -> (c < d)%nat ->
  nth c (fold_left (vzip fadd) rows acc) 0 =
  nth c acc 0 + np_sum (map (fun r => nth c r 0) rows).
Proof.
  intros Hacc Hrows Hc. revert acc Hacc.
  induction Hrows as [|r rows Hr Hrows IH]; intros acc Hacc; cbn [fold_left map].
  - rewrite np_sum_nil. lra.
  - rewrite IH by (rewrite vzip_length; lia).
    rewrite nth_vzip by lia. rewrite np_sum_cons. simpl. lra.
Qed.

Lemma nth_np_sum_axis0 (d c : nat) (rows : mat R) :
  Forall (fun r => length r = d) rows -> (c < d)%nat ->
  nth c (np_sum_axis0 d rows) 0 = np_sum (map (fun r => nth c r 0) rows).
Proof.
  intros Hrows Hc. unfold np_sum_axis0.
  rewrite (nth_fold_vzip d) by (try apply repeat_length; assumption).
  rewrite nth_repeat. simpl. lra.
Qed.

Lemma square_le_squares (v : vec R) (c : nat) :
  nth c v 0 * nth c v 0 <= np_sum (map (fun x => x * x) v).
Proof.
  revert c. induction v as [|x v IH]; intros [|c]; cbn [nth map]; rewrite ?np_sum_nil, ?np_sum_cons.
  - lra.
  - lra.
  - pose proof (squares_nonneg v) as Hv. simpl in Hv. lra.
  - specialize (IH c). nra.
Qed.

Lemma abs_nth_le_norm (v : vec R) (c : nat) : Rabs (nth c v 0) <= norm v.
Proof.
  rewrite <- sqrt_Rsqr_abs. apply sqrt_le_1_alt. unfold Rsqr. apply square_le_squares.
Qed.

Lemma abs_np_sum (l : vec R) : Rabs (np_sum l) <= np_sum (map Rabs l).
Proof.
  induction l as [|x l IH]; cbn [map]; rewrite ?np_sum_nil, ?np_sum_cons.
  - rewrite Rabs_R0. lra.
  - pose proof (Rabs_triang x (np_sum l)). lra.
Qed.

Lemma np_sum_le {A : Type} (f g : A -> R) (l : list A) :
  (forall x, In x l -> f x <= g x) -> np_sum (map f l) <= np_sum (map g l).
Proof.
  induction l as [|x l IH]; intros Hle; cbn [map]; rewrite ?np_sum_nil, ?np_sum_cons; [lra|].
  pose proof (Hle x (or_introl eq_refl)).
  assert (np_sum (map f l) <= np_sum (map g l)) by (apply IH; intros; apply Hle; now right).
  lra.
Qed.

Lemma np_sum_filter {A : Type} (p : A -> bool) (f : A -> R) (l : list A) :
  np_sum (map f (List.filter p l)) = np_sum (map (fun x => if p x then f x else 0) l).
Proof.
  induction l as [|x l IH]; cbn [List.filter map]; [reflexivity|].
  destruct (p x); cbn [map]; rewrite !np_sum_cons, IH; lra.
Qed.

Lemma displacement_length (n d : nat) (positions : mat R) (i j : nat) :
  shape n d positions -> (i < n)%nat -> (j < n)%nat ->
  length (displacement positions i j) = d.
Proof.
  intros Hpos Hi Hj. unfold displacement. rewrite vzip_length.
  rewrite (shape_row n d positions i), (shape_row n d positions j) by assumption. lia.
Qed.

(** The coordinate [c] of the force on node [i], as one sum over all nodes:
    node [j] contributes [adjacency[i,j] * (p_j − p_i)_c / max(d_j, 1e-6)] when
    it passes the mask and nothing otherwise. *)
Lemma force_coordinate (adj : mat R) (dim : nat) (positions forces : mat R) (i c : nat) :
  shape (num_nodes adj) dim positions ->
  Forall (fun r => length r = num_nodes adj) adj ->
  calculate_forces adj dim positions = Ok forces ->
  (i < num_nodes adj)%nat -> (c < dim)%nat ->
  entry forces i c =
  np_sum (map (fun j => if fltb (/ 1000000) (distance positions i j)
                        then entry adj i j *
                             ((entry positions j c - entry positions i c) /
                              Rmax (distance positions i j) (/ 1000000))
                        else 0)
              (seq 0 (num_nodes adj))).
Proof.
  intros Hpos Hadj Hforces Hi Hc. unfold entry at 1.
  rewrite (calculate_forces_spec adj dim positions Hpos Hadj forces i Hforces Hi).
  unfold force_spec. rewrite nth_np_sum_axis0; [|  |exact Hc].
  - rewrite map_map, np_sum_filter. apply np_sum_map_ext. intros j Hj.
    apply in_seq in Hj. destruct (fltb _ _); [|reflexivity].
    rewrite (nth_map_in _ _ _ 0)
      by (rewrite (displacement_length (num_nodes adj) dim); [exact Hc | exact Hpos | lia | lia]).
    unfold displacement. rewrite nth_vzip; [reflexivity| |].
    + rewrite (shape_row (num_nodes adj) dim); [exact Hc | exact Hpos | lia].
    + rewrite (shape_row (num_nodes adj) dim); [exact Hc | exact Hpos | lia].
  - apply List.Forall_forall. intros r Hr. apply in_map_iff in Hr as (j & <- & Hj).
    apply filter_In in Hj as [Hj _]. apply in_seq in Hj.
    rewrite length_map. apply (displacement_length (num_nodes adj)); [exact Hpos | lia | lia].
Qed.

(** Every coordinate of the force on a node is at most the sum of the
    absolute weights of the node's row: each neighbour pulls along a unit
    vector, whatever the distance. *)
Theorem force_bounded_by_weights
    (adj : mat R) (dim : nat) (positions forces : mat R) (i c : nat) :
  shape (num_nodes adj) dim positions ->
  Forall (fun r => length r = num_nodes adj) adj ->
  calculate_forces adj dim positions = Ok forces ->
  (i < num_nodes adj)%nat -> (c < dim)%nat ->
  Rabs (entry forces i c) <= np_sum (map Rabs (row adj i)).
Proof.
  intros Hpos Hadj Hforces Hi Hc.
  rewrite (force_coordinate adj dim positions forces i c) by assumption.
  eapply Rle_trans; [apply abs_np_sum|]. rewrite map_map.
  assert (Hrow : length (row adj i) = num_nodes adj).
  { rewrite List.Forall_forall in Hadj. apply Hadj, nth_In. exact Hi. }
  rewrite (list_as_map_seq (row adj i) 0) at 1. rewrite Hrow, map_map.
  apply np_sum_le. intros j Hj. apply in_seq in Hj.
  fold (entry adj i j).
  destruct (fltb (/ 1000000) (distance positions i j)) eqn:Hfar.
  - apply fltb_R_iff in Hfar.
    set (M := Rmax (distance positions i j) (/ 1000000)).
    assert (HM : 0 < M) by (unfold M; pose proof (Rmax_r (distance positions i j) (/ 1000000)); lra).
    assert (Hx : Rabs (entry positions j c - entry positions i c) <= M).
    { eapply Rle_trans; [|apply Rmax_l].
      replace (entry positions j c - entry positions i c)
        with (nth c (displacement positions i j) 0).
      - apply abs_nth_le_norm.
      - unfold displacement. rewrite nth_vzip; [reflexivity| |].
        + rewrite (shape_row (num_nodes adj) dim); [exact Hc | exact Hpos | lia].
        + rewrite (shape_row (num_nodes adj) dim); [exact Hc | exact Hpos | lia]. }
    rewrite Rabs_mult. unfold Rdiv. rewrite Rabs_mult, (Rabs_right (/ M)).
    + pose proof (Rabs_pos (entry adj i j)) as Ha.
      pose proof (Rabs_pos (entry positions j c - entry positions i c)) as Hb.
      assert (Hq : Rabs (entry positions j c - entry positions i c) * / M <= 1).
      { apply (Rmult_le_reg_r M); [exact HM|]. rewrite Rmult_assoc, Rinv_l by lra. lra. }
      apply Rle_trans with (Rabs (entry adj i j) * 1).
      * apply Rmult_le_compat_l; [exact Ha | exact Hq].
      * rewrite Rmult_1_r. apply Rle_refl.
    + left. apply Rinv_0_lt_compat, HM.
  - rewrite Rabs_R0. apply Rabs_pos.
Qed.


Lemma force_bounded_by_weights_witness :
  exists forces,
    calculate_forces (pair_network 1) 1 (positions unit_pair) = Ok forces /\
    Rabs (entry forces 0 0) <= np_sum (map Rabs (row (pair_network 1) 0)).
Proof.
  destruct (calculate_forces_returns (pair_network 1) 1 (positions unit_pair) unit_pair_far)
    as [forces Hforces].
  exists forces. split; [exact Hforces|].
  apply (force_bounded_by_weights (pair_network 1) 1 (positions unit_pair) forces 0 0).
  - split; [reflexivity | repeat constructor].
  - repeat constructor.
  - exact Hforces.
  - simpl. lia.
  - lia.
Defined.

Lemma np_sum_add {A : Type} (f g : A -> R) (l : list A) :
  np_sum (map (fun x => f x + g x) l) = np_sum (map f l) + np_sum (map g l).
Proof.
  induction l as [|x l IH]; cbn [map]; rewrite ?np_sum_nil, ?np_sum_cons; [lra|].
  rewrite IH. lra.
Qed.

Lemma np_sum_swap {A B : Type} (f : A -> B -> R) (l1 : list A) (l2 : list B) :
  np_sum (map (fun i => np_sum (map (f i) l2)) l1) =
  np_sum (map (fun j => np_sum (map (fun i => f i j) l1)) l2).
Proof.
  induction l1 as [|x l1 IH]; cbn [map].
  - rewrite np_sum_nil. symmetry. apply np_sum_zeros.
    apply List.Forall_forall. intros y Hy. apply in_map_iff in Hy as (j & <- & _).
    apply np_sum_nil.
  - rewrite np_sum_cons, IH.
    rewrite <- np_sum_add. apply np_sum_map_ext. intros j _. now rewrite np_sum_cons.
Qed.

Lemma np_sum_antisymmetric (g : nat -> nat -> R) (n : nat) :
  (forall i j, (i < n)%nat -> (j < n)%nat -> g i j = - g j i) ->
  np_sum (map (fun i => np_sum (map (fun j => g i j) (seq 0 n))) (seq 0 n)) = 0.
Proof.
  intros Hanti.
  assert (Hneg : np_sum (map (fun i => np_sum (map (fun j => g i j) (seq 0 n))) (seq 0 n)) =
                 -1 * np_sum (map (fun i => np_sum (map (fun j => g j i) (seq 0 n))) (seq 0 n))).
  { rewrite <- np_sum_scale. rewrite map_map. apply np_sum_map_ext. intros i Hi.
    rewrite <- np_sum_scale. rewrite map_map. apply np_sum_map_ext. intros j Hj.
    apply in_seq in Hi, Hj. rewrite (Hanti i j) by lia. lra. }
  rewrite (np_sum_swap (fun i j => g j i)) in Hneg. cbv beta in Hneg. lra.
Qed.

(** What node [j] exerts on node [i] along coordinate [c] is the opposite of
    what [i] exerts on [j], also across the distance mask. *)
Lemma pull_antisymmetric (adj : mat R) (positions : mat R) (c i j : nat) :
  symmetric adj -> (i < num_nodes adj)%nat -> (j < num_nodes adj)%nat ->
  (if fltb (/ 1000000) (distance positions i j)
   then entry adj i j *
        ((entry positions j c - entry positions i c) /
         Rmax (distance positions i j) (/ 1000000))
   else 0) =
  - (if fltb (/ 1000000) (distance positions j i)
     then entry adj j i *
          ((entry positions i c - entry positions j c) /
           Rmax (distance positions j i) (/ 1000000))
     else 0).
Proof.
  intros Hsym Hi Hj.
  assert (Hd : distance positions i j = distance positions j i) by apply norm_sub_sym.
  rewrite Hd, (Hsym i j Hi Hj).
  destruct (fltb (/ 1000000) (distance positions j i)); [|lra].
  unfold Rdiv. lra.
Qed.

Lemma forces_cancel
    (adj : mat R) (dim : nat) (positions forces : mat R) (c : nat) :
  shape (num_nodes adj) dim positions ->
  Forall (fun r => length r = num_nodes adj) adj ->
  symmetric adj ->
  calculate_forces adj dim positions = Ok forces ->
  (c < dim)%nat ->
  np_sum (map (fun i => entry forces i c) (seq 0 (num_nodes adj))) = 0.
Proof.
  intros Hpos Hadj Hsym Hforces Hc.
  rewrite (np_sum_map_ext _
             (fun i => np_sum (map (fun j => if fltb (/ 1000000) (distance positions i j)
                        then entry adj i j *
                             ((entry positions j c - entry positions i c) /
                              Rmax (distance positions i j) (/ 1000000))
                        else 0) (seq 0 (num_nodes adj))))).
  - apply (np_sum_antisymmetric
             (fun i j => if fltb (/ 1000000) (distance positions i j)
                        then entry adj i j *
                             ((entry positions j c - entry positions i c) /
                              Rmax (distance positions i j) (/ 1000000))
                        else 0)).
    intros i j Hi Hj. apply pull_antisymmetric; assumption.
  - intros i Hi. apply in_seq in Hi.
    apply (force_coordinate adj dim positions forces i c); [assumption..|lia|exact Hc].
Qed.

(** For a symmetric adjacency matrix the forces on the nodes cancel
    coordinate by coordinate: the force on node [i] is the sum over the nodes
    [j] of a pull that is [adjacency[i,j] * (p_j − p_i) / max(d, 1e-6)] when
    [j] passes the mask and 0 otherwise; the pull of [j] on [i] is the
    opposite of the pull of [i] on [j]; so the forces sum to zero. *)
Theorem forces_sum_to_zero
    (adj : mat R) (dim : nat) (positions forces : mat R) (c : nat) :
  shape (num_nodes adj) dim positions ->
  Forall (fun r => length r = num_nodes adj) adj ->
  symmetric adj ->
  calculate_forces adj dim positions = Ok forces ->
  (c < dim)%nat ->
  let pull i j :=
    if fltb (/ 1000000) (distance positions i j)
    then entry adj i j *
         ((entry positions j c - entry positions i c) /
          Rmax (distance positions i j) (/ 1000000))
    else 0 in
  (forall i, (i < num_nodes adj)%nat ->
     entry forces i c = np_sum (map (pull i) (seq 0 (num_nodes adj)))) /\
  (forall i j, (i < num_nodes adj)%nat -> (j < num_nodes adj)%nat ->
     pull i j = - pull j i) /\
  np_sum (map (fun i => entry forces i c) (seq 0 (num_nodes adj))) = 0.
Proof.
  intros Hpos Hadj Hsym Hforces Hc pull. split; [|split].
  - intros i Hi.
    apply (force_coordinate adj dim positions forces i c); assumption.
  - intros i j Hi Hj. unfold pull. apply pull_antisymmetric; assumption.
  - apply (forces_cancel adj dim positions forces c); assumption.
Qed.

Lemma forces_sum_to_zero_witness :
  exists forces,
    calculate_forces (pair_network 1) 1 (positions unit_pair) = Ok forces /\
    np_sum (map (fun i => entry forces i 0) (seq 0 2)) = 0.
Proof.
  destruct (calculate_forces_returns (pair_network 1) 1 (positions unit_pair) unit_pair_far)
    as [forces Hforces].
  exists forces. split; [exact Hforces|].
  apply (forces_sum_to_zero (pair_network 1) 1 (positions unit_pair) forces 0).
  - split; [reflexivity | repeat constructor].
  - repeat constructor.
  - apply pair_network_symmetric.
  - exact Hforces.
  - lia.
Defined.

End ForceBounds.

(** ** Moving the whole layout *)

Section Translation.

Local Open Scope R_scope.

Lemma for_each_ext {A S : Type} (xs : list A) (f g : A -> S -> result S) (s : S) :
  (forall x s, In x xs -> f x s = g x s) -> for_each xs f s = for_each xs g s.
Proof.
  revert s. induction xs as [|x xs IH]; intros s Hext; cbn [for_each]; [reflexivity|].
  rewrite (Hext x s) by now left.
  destruct (g x s) as [s'|e]; cbn [bind]; [|reflexivity].
  apply IH. intros y t Hy. apply Hext. now right.
Qed.

Lemma shifted_difference (s u v : vec R) :
  length u = length s -> length v = length s ->
  vzip fsub (vzip fadd u s) (vzip fadd v s) = vzip fsub u v.
Proof.
  unfold vzip. revert u v.
  induction s as [|x s IH]; intros [|a u] [|b v] Hu Hv; simpl in *; try discriminate.
  - reflexivity.
  - rewrite IH by lia. f_equal. lra.
Qed.

Lemma vzip_nil_r (op : R -> R -> R) (u : vec R) : vzip op u [] = [].
Proof. unfold vzip. now destruct u. Qed.

Lemma row_map (f : vec R -> vec R) (a : mat R) (i : nat) :
  row (map f a) i = if (i <? length a)%nat then f (row a i) else [].
Proof.
  unfold row. destruct (Nat.ltb_spec i (length a)) as [Hlt|Hge].
  - apply nth_map_in. exact Hlt.
  - apply nth_overflow. rewrite length_map. exact Hge.
Qed.

Lemma row_length_of (d : nat) (a : mat R) (i : nat) :
  Forall (fun r => length r = d) a -> (i < length a)%nat -> length (row a i) = d.
Proof.
  intros Hall Hi. rewrite List.Forall_forall in Hall. apply Hall, nth_In, Hi.
Qed.

(** Differences of rows are the same before and after the shift. *)
Lemma shifted_rows (s : vec R) (positions : mat R) (i j : nat) :
  Forall (fun r => length r = length s) positions ->
  vzip fsub (row (map (fun p => vzip fadd p s) positions) i)
            (row (map (fun p => vzip fadd p s) positions) j) =
  vzip fsub (row positions i) (row positions j).
Proof.
  intros Hall. rewrite !row_map.
  destruct (Nat.ltb_spec i (length positions)) as [Hi|Hi];
    destruct (Nat.ltb_spec j (length positions)) as [Hj|Hj].
  - apply shifted_difference; apply row_length_of; assumption.
  - assert (Hrj : row positions j = []) by (apply nth_overflow; exact Hj).
    now rewrite Hrj, !vzip_nil_r.
  - assert (Hri : row positions i = []) by (apply nth_overflow; exact Hi).
    now rewrite Hri.
  - assert (Hri : row positions i = []) by (apply nth_overflow; exact Hi).
    now rewrite Hri.
Qed.

(** Forces and potential depend on the positions only through their
    differences: adding one vector to every position changes neither the
    result of [calculate_forces] (forces or exception) nor the potential
    energy. *)
Theorem layout_shift_invariance (adj : mat R) (dim : nat) (positions : mat R) (s : vec R) :
  let shifted := map (fun p => vzip fadd p s) positions in
  Forall (fun r => length r = length s) positions ->
  calculate_forces adj dim shifted = calculate_forces adj dim positions /\
  compute_potential_energy adj shifted = compute_potential_energy adj positions.
Proof.
  cbn zeta. intros Hall. split.
  - unfold calculate_forces.
    replace (map (map (fun _ : R => @fzero R _)) (map (fun p => vzip (@fadd R _) p s) positions))
      with (map (map (fun _ : R => @fzero R _)) positions).
    + apply for_each_ext. intros i forces _. f_equal. unfold force_on.
      replace (map (fun p => vzip (@fsub R _) p (row (map (fun p => vzip (@fadd R _) p s) positions) i))
                 (map (fun p => vzip (@fadd R _) p s) positions))
        with (map (fun p => vzip (@fsub R _) p (row positions i)) positions); [reflexivity|].
      rewrite map_map. apply map_ext_in. intros p Hp.
      apply (In_nth _ _ []) in Hp as (j & Hj & <-).
      pose proof (shifted_rows s positions j i Hall) as Heq.
      rewrite (row_map _ positions j) in Heq.
      destruct (Nat.ltb_spec j (length positions)) as [_|Hge]; [|lia].
      symmetry. exact Heq.
    + rewrite map_map. apply map_ext_in. intros p Hp.
      rewrite List.Forall_forall in Hall. specialize (Hall p Hp).
      apply (nth_ext _ _ 0 0).
      * rewrite !length_map. unfold vzip. rewrite length_map, length_combine. lia.
      * intros c Hc. rewrite length_map in Hc.
        rewrite !(nth_map_in _ _ _ 0 0); [reflexivity| |exact Hc].
        rewrite vzip_length. lia.
  - unfold compute_potential_energy. f_equal. f_equal.
    apply flat_map_ext_in. intros i _. apply map_ext. intros j.
    now rewrite shifted_rows.
Qed.

Lemma layout_shift_invariance_witness :
  calculate_forces (pair_network 1) 1 [[0 + 5]; [1 + 5]] =
  calculate_forces (pair_network 1) 1 [[0]; [1]] /\
  compute_potential_energy (pair_network 1) [[0 + 5]; [1 + 5]] =
  compute_potential_energy (pair_network 1) [[0]; [1]].
Proof.
  apply (layout_shift_invariance (pair_network 1) 1 [[0]; [1]] [5]).
  repeat constructor.
Defined.

End Translation.

(** ** The phase coupling *)

Section Coupling.

Local Open Scope R_scope.

Lemma phase_coupling_nth (adj : mat R) (ph : vec R) (i : nat) :
  (i < num_nodes adj)%nat ->
  nth i (phase_coupling adj ph) 0 =
  np_sum (vzip fmul (row adj i) (map fsin (map (fun p => p - nth i ph 0) ph))).
Proof.
  intros Hi. unfold phase_coupling.
  rewrite (nth_map_in _ _ _ 0%nat) by (now rewrite length_seq).
  now rewrite seq_nth.
Qed.

Lemma weighted_sum_bound (r t : vec R) :
  Forall (fun x => Rabs x <= 1) t ->
  Rabs (np_sum (vzip fmul r t)) <= np_sum (map Rabs r).
Proof.
  intros Ht. revert r. induction Ht as [|x t Hx Ht IH]; intros [|a r].
  - unfold vzip. cbn [combine map]. rewrite np_sum_nil, Rabs_R0. lra.
  - unfold vzip. cbn [combine]. change (map _ (@nil (R * R))) with (@nil R).
    rewrite np_sum_nil, Rabs_R0.
    apply np_sum_nonneg, List.Forall_forall. intros y Hy.
    apply in_map_iff in Hy as (z & <- & _). apply Rabs_pos.
  - unfold vzip. cbn [combine map]. rewrite np_sum_nil, Rabs_R0. lra.
  - unfold vzip. cbn [combine map fst snd]. fold (vzip fmul r t).
    rewrite !np_sum_cons. specialize (IH r).
    pose proof (Rabs_triang (a * x) (np_sum (vzip fmul r t))) as Htri.
    rewrite Rabs_mult in Htri. pose proof (Rabs_pos a). simpl in *. nra.
Qed.

Lemma sines_bounded (v : vec R) : Forall (fun x => Rabs x <= 1) (map fsin v).
Proof.
  apply List.Forall_forall. intros y Hy. apply in_map_iff in Hy as (x & <- & _).
  simpl. apply Rabs_le. pose proof (SIN_bound x). lra.
Qed.

(** The coupling term of node [i] is at most the sum of the absolute
    weights of its row, for any phases; it vanishes when all phases are
    equal, and it does not change when one angle is added to every phase. *)
Theorem phase_coupling_bounds (adj : mat R) (ph : vec R) :
  length ph = num_nodes adj ->
  (forall i, Rabs (nth i (phase_coupling adj ph) 0) <= np_sum (map Rabs (row adj i))) /\
  (forall c, Forall (fun p => p = c) ph ->
     forall i, nth i (phase_coupling adj ph) 0 = 0) /\
  (forall c, phase_coupling adj (map (fun p => p + c) ph) = phase_coupling adj ph).
Proof.
  intros Hlen. split; [|split].
  - intros i. destruct (Nat.lt_ge_cases i (num_nodes adj)) as [Hi|Hi].
    + rewrite phase_coupling_nth by exact Hi. apply weighted_sum_bound, sines_bounded.
    + rewrite nth_overflow by (now rewrite phase_coupling_length).
      unfold row. rewrite nth_overflow by exact Hi. cbn [map].
      rewrite np_sum_nil, Rabs_R0. lra.
  - intros c Hsync i. destruct (Nat.lt_ge_cases i (num_nodes adj)) as [Hi|Hi].
    + rewrite phase_coupling_nth by exact Hi. apply np_sum_zeros.
      apply List.Forall_forall. intros y Hy. unfold vzip in Hy.
      apply in_map_iff in Hy as ([a t] & <- & Hin). apply in_combine_r in Hin.
      rewrite map_map in Hin. apply in_map_iff in Hin as (p & <- & Hp).
      rewrite List.Forall_forall in Hsync.
      assert (Hpi : nth i ph 0 = c) by (apply Hsync, nth_In; lia).
      rewrite Hpi, (Hsync p Hp). cbn [fst snd]. simpl.
      replace (c - c) with 0 by lra. rewrite sin_0. lra.
    + apply nth_overflow. now rewrite phase_coupling_length.
  - intros c. unfold phase_coupling. apply map_ext_in. intros i Hi.
    apply in_seq in Hi. f_equal. f_equal. rewrite !map_map. apply map_ext. intros p.
    rewrite (nth_map_in _ _ _ 0 0) by lia. simpl. f_equal. lra.
Qed.

Lemma phase_coupling_bounds_witness :
  Rabs (nth 0 (phase_coupling (pair_network 1) [1; 2]) 0)
    <= np_sum (map Rabs (row (pair_network 1) 0)) /\
  nth 0 (phase_coupling (pair_network 1) [2; 2]) 0 = 0.
Proof.
  split.
  - destruct (phase_coupling_bounds (pair_network 1) [1; 2] eq_refl) as [Hbound _].
    exact (Hbound 0%nat).
  - destruct (phase_coupling_bounds (pair_network 1) [2; 2] eq_refl) as (_ & Hsync & _).
    apply (Hsync 2). repeat constructor.
Defined.

Lemma vzip_as_seq (op : R -> R -> R) (n : nat) (u v : vec R) :
  length u = n -> length v = n ->
  vzip op u v = map (fun j => op (nth j u 0) (nth j v 0)) (seq 0 n).
Proof.
  intros Hu Hv. apply (nth_ext _ _ 0 0).
  - rewrite vzip_length, length_map, length_seq. lia.
  - intros j Hj. rewrite vzip_length in Hj.
    rewrite nth_vzip by lia.
    rewrite (nth_map_in _ _ _ 0%nat) by (rewrite length_seq; lia).
    rewrite seq_nth by lia. reflexivity.
Qed.

Lemma np_sum_scale_map {A : Type} (k : R) (f : A -> R) (l : list A) :
  np_sum (map (fun x => k * f x) l) = k * np_sum (map f l).
Proof. rewrite <- np_sum_scale, map_map. reflexivity. Qed.

Lemma phase_coupling_sum (adj : mat R) (ph : vec R) :
  Forall (fun r => length r = num_nodes adj) adj ->
  length ph = num_nodes adj ->
  symmetric adj ->
  np_sum (phase_coupling adj ph) = 0.
Proof.
  intros Hadj Hph Hsym. unfold phase_coupling.
  rewrite (np_sum_map_ext _
             (fun i => np_sum (map (fun j => entry adj i j * sin (nth j ph 0 - nth i ph 0))
                                   (seq 0 (num_nodes adj))))).
  - apply (np_sum_antisymmetric (fun i j => entry adj i j * sin (nth j ph 0 - nth i ph 0))).
    intros i j Hi Hj. cbv beta. rewrite (Hsym i j Hi Hj).
    replace (nth j ph 0 - nth i ph 0) with (- (nth i ph 0 - nth j ph 0)) by lra.
    rewrite sin_neg. lra.
  - intros i Hi. apply in_seq in Hi. f_equal.
    rewrite (vzip_as_seq _ (num_nodes adj)).
    + apply map_ext_in. intros j Hj. apply in_seq in Hj.
      rewrite (nth_map_in _ _ _ 0) by (rewrite length_map; lia).
      rewrite (nth_map_in _ _ _ 0) by lia. reflexivity.
    + rewrite List.Forall_forall in Hadj. apply Hadj, nth_In.
      unfold num_nodes in Hi. lia.
    + now rewrite !length_map.
Qed.

(** For a symmetric adjacency matrix the coupling terms of the nodes cancel,
    so the sum of the phase velocities after a step does not depend on [K]
    or on the phases: it is the old sum plus [dt] times
    (the sum of the intrinsic frequencies minus [gamma_theta] times the old sum). *)
Theorem coupling_cancels_in_total
    (adj : mat R) (dt gamma_theta K : R) (freqs ph pv : vec R) :
  Forall (fun r => length r = num_nodes adj) adj ->
  symmetric adj ->
  length ph = num_nodes adj ->
  length pv = num_nodes adj ->
  length freqs = num_nodes adj ->
  np_sum (phase_coupling adj ph) = 0 /\
  np_sum (fst (phase_step adj dt gamma_theta K freqs ph pv)) =
  np_sum pv + (np_sum freqs - gamma_theta * np_sum pv) * dt.
Proof.
  intros Hadj Hsym Hph Hpv Hfr.
  pose proof (phase_coupling_sum adj ph Hadj Hph Hsym) as Hzero.
  split; [exact Hzero|].
  destruct (phase_step_lengths adj dt gamma_theta K freqs ph pv Hph Hpv Hfr) as [Hl _].
  rewrite (list_as_map_seq (fst (phase_step adj dt gamma_theta K freqs ph pv)) 0), Hl.
  rewrite (np_sum_map_ext _
             (fun i => nth i pv 0 +
                       (dt * nth i freqs 0 +
                        (dt * K * nth i (phase_coupling adj ph) 0 +
                         - gamma_theta * dt * nth i pv 0)))).
  - rewrite !np_sum_add, !np_sum_scale_map.
    pose proof (list_as_map_seq pv 0) as Epv. rewrite Hpv in Epv. rewrite <- Epv.
    pose proof (list_as_map_seq freqs 0) as Efr. rewrite Hfr in Efr. rewrite <- Efr.
    pose proof (list_as_map_seq (phase_coupling adj ph) 0) as Ec.
    rewrite phase_coupling_length in Ec. rewrite <- Ec, Hzero. lra.
  - intros i Hi. apply in_seq in Hi.
    destruct (phase_step_nth adj dt gamma_theta K freqs ph pv i Hph Hpv Hfr) as [Hnth _];
      [lia|].
    etransitivity; [exact Hnth|]. simpl. lra.
Qed.

Lemma coupling_cancels_in_total_witness :
  np_sum (phase_coupling (pair_network 1) [1; 2]) = 0 /\
  np_sum (fst (phase_step (pair_network 1) (/ 100) (/ 10) (/ 2) [3; 4] [1; 2] [5; 6])) =
  np_sum [5; 6] + (np_sum [3; 4] - / 10 * np_sum [5; 6]) * / 100.
Proof.
  apply (coupling_cancels_in_total (pair_network 1) (/ 100) (/ 10) (/ 2) [3; 4] [1; 2] [5; 6]).
  - repeat constructor.
  - apply pair_network_symmetric.
  - reflexivity.
  - reflexivity.
  - reflexivity.
Defined.

End Coupling.

(** ** The default damping *)

Section UnitDamping.

Local Open Scope R_scope.

(** With [gamma = 1], the default of the orchestrator, the velocity update
    forgets the old velocity: the new velocity is [force * dt] and the new
    position is [position + force * dt * dt], whatever the velocity was. *)
Theorem unit_damping_forgets_velocity
    (adj : mat R) (dim : nat) (dt gamma_theta K : R) (freqs : vec R)
    (st : sim_state R) (o : step_out R) (forces : mat R) :
  sim_step adj dim dt 1 gamma_theta K freqs st = Ok o ->
  calculate_forces adj dim (positions st) = Ok forces ->
  shape (num_nodes adj) dim (positions st) ->
  shape (num_nodes adj) dim (velocities st) ->
  new_velocities o = mmap (fun a => a * dt) forces /\
  new_positions o = mzip fadd (positions st) (mmap (fun a => a * dt * dt) forces).
Proof.
  intros Hstep Hforces Hpos Hvel.
  destruct (sim_step_shapes _ _ _ _ _ _ _ _ _ Hstep Hpos Hvel) as [Hnv Hnp].
  destruct (calculate_forces_inv _ _ _ _ Hforces Hpos) as [Hf _].
  split.
  - apply (mat_ext (num_nodes adj) dim); [exact Hnv | apply shape_mmap, Hf |].
    intros i c Hi Hc.
    destruct (spatial_step_entry _ _ _ _ _ _ _ _ _ _ i c Hstep Hforces Hpos Hvel Hi Hc)
      as (_ & _ & Hv & _).
    rewrite Hv, (entry_mmap _ (num_nodes adj) dim) by assumption. simpl. lra.
  - apply (mat_ext (num_nodes adj) dim);
      [exact Hnp | apply shape_mzip; [exact Hpos | apply shape_mmap, Hf] |].
    intros i c Hi Hc.
    destruct (spatial_step_entry _ _ _ _ _ _ _ _ _ _ i c Hstep Hforces Hpos Hvel Hi Hc)
      as (_ & _ & Hv & Hp).
    rewrite Hp, Hv.
    rewrite (entry_mzip _ (num_nodes adj) dim) by (try apply shape_mmap; assumption).
    rewrite (entry_mmap _ (num_nodes adj) dim) by assumption. simpl. lra.
Qed.

Lemma unit_damping_forgets_velocity_witness :
  exists o forces,
    sim_step (pair_network 1) 1 (/ 100) 1 (/ 10) (/ 2) [0; 0] moving_pair = Ok o /\
    calculate_forces (pair_network 1) 1 (positions moving_pair) = Ok forces /\
    new_velocities o = mmap (fun a => a * / 100) forces.
Proof.
  destruct (sim_step_returns (pair_network 1) 1 (/ 100) 1 (/ 10) (/ 2) [0; 0] moving_pair
              moving_pair_far) as [o Ho].
  destruct (calculate_forces_returns (pair_network 1) 1 (positions moving_pair) moving_pair_far)
    as [forces Hforces].
  exists o, forces. split; [exact Ho|]. split; [exact Hforces|].
  destruct (unit_damping_forgets_velocity (pair_network 1) 1 (/ 100) (/ 10) (/ 2) [0; 0]
              moving_pair o forces Ho Hforces) as [Hv _].
  - split; [reflexivity | repeat constructor].
  - split; [reflexivity | repeat constructor].
  - exact Hv.
Defined.

End UnitDamping.

(** ** Graphs with no node and with one node *)

Section SmallGraphs.

Local Open Scope R_scope.

(** On a graph with one node the worker cannot make a step: with
    [iterations >= 1] it raises [ValueError] (from [np.min] of an empty array
    in [calculate_forces]) for every seed and every parameter, and with
    [iterations <= 0] it returns the initial snapshot alone. *)
Theorem single_node_run {G : Type} {Rng : NumpyRandom G R}
    (a : R) (dim : nat) (iterations : Z) (tol : R) (seed : Z) (dt gamma gamma_theta K : R) :
  HONE_worker_with_damped_kuramoto [[a]] dim iterations tol seed dt gamma gamma_theta K =
  if (0 <? iterations)%Z then Raise ValueError
  else Ok (initial_histories (fst (draw_initial [[a]] dim (random_seed seed)))).
Proof.
  destruct (Z.ltb_spec 0 iterations) as [Hpos|Hneg].
  - unfold HONE_worker_with_damped_kuramoto, simulate.
    destruct (Z.to_nat iterations) as [|n] eqn:Hn; [lia|].
    destruct (drawn_lengths [[a]] dim (random_seed seed)) as ([Hlen _] & _).
    set (d := fst (draw_initial [[a]] dim (random_seed seed))) in *.
    cbn [simulation_loop]. unfold sim_step.
    change (positions (initial_state [[a]] d)) with (drawn_positions d).
    destruct (drawn_positions d) as [|p [|q rest]]; try discriminate.
    now rewrite single_node_raises_R.
  - apply simulate_no_iterations. exact Hneg.
Qed.

(** On the graph with no node every array is empty: a step computes zero
    energies and zero movement, so for a positive [tol] and
    [iterations >= 1] the worker returns after one step. *)
Theorem empty_graph_run {G : Type} {Rng : NumpyRandom G R}
    (dim : nat) (iterations : Z) (tol : R) (seed : Z) (dt gamma gamma_theta K : R) :
  (0 < iterations)%Z -> 0 < tol ->
  HONE_worker_with_damped_kuramoto [] dim iterations tol seed dt gamma gamma_theta K =
  Ok {| positions_history := [[]; []];
        phase_history := [[]; []];
        potential_energy_history := [0];
        kinetic_energy_history := [0];
        total_energy_history := [0] |}.
Proof.
  intros Hit Htol. unfold HONE_worker_with_damped_kuramoto, simulate.
  destruct (Z.to_nat iterations) as [|n] eqn:Hn; [lia|].
  cbn [simulation_loop]. unfold sim_step, draw_initial, np_random_rand, np_random_uniform,
    np_random_normal. cbn [num_nodes length draw_mat draw_vec fst initial_state
    drawn_positions drawn_phases drawn_frequencies positions velocities phases
    phase_velocities repeat mmap map].
  unfold calculate_forces. cbn [num_nodes length seq for_each map bind].
  unfold phase_step, phase_coupling, movement, compute_potential_energy, mzip, mmap, vzip,
    norm_axis1.
  cbn [num_nodes length seq map combine flat_map total_movement].
  cbn [bind total_movement]. rewrite np_sum_nil, (fltb_R_true 0 tol Htol).
  unfold record_step, initial_histories.
  cbn [positions_history phase_history potential_energy_history kinetic_energy_history
       total_energy_history new_positions new_phases potential_energy kinetic_energy
       total_energy drawn_positions drawn_phases app].
  f_equal. f_equal; f_equal; simpl; lra.
Qed.

Lemma empty_graph_run_witness :
  HONE_worker_with_damped_kuramoto (Rng := counter_random) [] 2 100 (/ 10000) 0
    (/ 100) 1 (/ 10) (/ 2) =
  Ok {| positions_history := [[]; []];
        phase_history := [[]; []];
        potential_energy_history := [0];
        kinetic_energy_history := [0];
        total_energy_history := [0] |}.
Proof.
  apply (empty_graph_run (Rng := counter_random) 2 100 (/ 10000) 0 (/ 100) 1 (/ 10) (/ 2));
    [lia | lra].
Defined.

End SmallGraphs.

(** ** Array sizes, under any interleaving *)

Section Sizes.

Context {F : Type} {Sc : Scalar F} {Tr : Trig F} {G : Type} {Rng : NumpyRandom G F}.
Variable adj_matrix : mat F.
Variable dim : nat.

Local Abbreviation step_pool := (pool_step adj_matrix dim).
Local Abbreviation run := (run_schedule adj_matrix dim).

Lemma step_stage (p : pool F G) (t i k : nat) (th : thread F) :
  threads p !! i = Some th -> stage adj_matrix dim k th -> k <= 4 ->
  exists th',
    threads (step_pool p t) !! i = Some th' /\
    stage adj_matrix dim (if Nat.eqb i t then Nat.min 4 (S k) else k) th'.
Proof.
  intros Hlook Hstage Hk. destruct (Nat.eqb_spec i t) as [->|Hne].
  - pose proof (lookup_lt_Some _ _ _ Hlook) as Hlt.
    destruct th as [ps d]. destruct Hstage as (Hpend & Hpos & Hph & Hfr).
    cbn [pending drawn] in *. unfold pool_step. rewrite Hlook.
    destruct k as [|[|[|[|[|k]]]]]; try lia; cbn [skipn worker_calls] in Hpend; subst ps.
    + eexists. split; [cbn [do_call threads]; apply list_lookup_insert_eq, Hlt|].
      split; [reflexivity|]. cbn [drawn Nat.min]. repeat split; intros; lia.
    + cbn [do_call].
      pose proof (draw_mat_rows random_sample (num_nodes adj_matrix) dim (generator p)) as Hrows.
      fold (np_random_rand (num_nodes adj_matrix) dim (generator p)) in Hrows.
      destruct (np_random_rand (num_nodes adj_matrix) dim (generator p)) as [pos g'].
      eexists. split; [cbn [threads]; apply list_lookup_insert_eq, Hlt|].
      split; [reflexivity|]. cbn [drawn drawn_positions drawn_phases drawn_frequencies Nat.min].
      split; [intros _; exact Hrows|]. split; intros; lia.
    + cbn [do_call].
      pose proof (draw_vec_length
                    (fun g => let (u, g') := random_sample g in
                              (fadd fzero (fmul (fsub (fmul (fadd fone fone) fpi) fzero) u), g'))
                    (num_nodes adj_matrix) (generator p)) as Hlen.
      fold (np_random_uniform fzero (fmul (fadd fone fone) fpi) (num_nodes adj_matrix)
              (generator p)) in Hlen.
      destruct (np_random_uniform fzero (fmul (fadd fone fone) fpi) (num_nodes adj_matrix)
                  (generator p)) as [ph g'].
      eexists. split; [cbn [threads]; apply list_lookup_insert_eq, Hlt|].
      split; [reflexivity|]. cbn [drawn drawn_positions drawn_phases drawn_frequencies Nat.min].
      split; [intros _; apply Hpos; lia|]. split; [intros _; exact Hlen | intros; lia].
    + cbn [do_call].
      pose proof (draw_vec_length
                    (fun g => let (z, g') := standard_normal g in
                              (fadd fzero (fmul fone z), g'))
                    (num_nodes adj_matrix) (generator p)) as Hlen.
      fold (np_random_normal fzero fone (num_nodes adj_matrix) (generator p)) in Hlen.
      destruct (np_random_normal fzero fone (num_nodes adj_matrix) (generator p)) as [fr g'].
      eexists. split; [cbn [threads]; apply list_lookup_insert_eq, Hlt|].
      split; [reflexivity|]. cbn [drawn drawn_positions drawn_phases drawn_frequencies Nat.min].
      split; [intros _; apply Hpos; lia|].
      split; [intros _; apply Hph; lia | intros _; exact Hlen].
    + exists {| pending := []; drawn := d |}. split; [exact Hlook|].
      split; [reflexivity|]. cbn [drawn Nat.min]. auto.
  - exists th. split; [|exact Hstage].
    unfold pool_step. destruct (threads p !! t) as [[[|c rest] d]|]; try exact Hlook.
    destruct (do_call adj_matrix dim (Z.of_nat t) c d (generator p)) as [d' g'].
    cbn [threads]. rewrite list_lookup_insert_ne by auto. exact Hlook.
Qed.

Lemma run_stage (sched : list nat) :
  forall (p : pool F G) (i k : nat) (th : thread F),
    threads p !! i = Some th -> stage adj_matrix dim k th -> k <= 4 ->
    exists th',
      threads (run sched p) !! i = Some th' /\
      stage adj_matrix dim (Nat.min 4 (k + count_occ Nat.eq_dec sched i)) th'.
Proof.
  induction sched as [|t sched IH]; intros p i k th Hlook Hstage Hk.
  - exists th. split; [exact Hlook|]. cbn [count_occ].
    replace (Nat.min 4 (k + 0)) with k by lia. exact Hstage.
  - destruct (step_stage p t i k th Hlook Hstage Hk) as (th1 & Hlook1 & Hstage1).
    change (run (t :: sched) p) with (run sched (step_pool p t)).
    destruct (IH (step_pool p t) i _ th1 Hlook1 Hstage1) as (th' & Hlook' & Hstage').
    { destruct (Nat.eqb i t); lia. }
    exists th'. split; [exact Hlook'|].
    cbn [count_occ]. destruct (Nat.eq_dec t i) as [->|Hne].
    + rewrite Nat.eqb_refl in Hstage'.
      replace (Nat.min 4 (k + S (count_occ Nat.eq_dec sched i)))
        with (Nat.min 4 (Nat.min 4 (S k) + count_occ Nat.eq_dec sched i)) by lia.
      exact Hstage'.
    + destruct (Nat.eqb_spec i t) as [->|_]; [contradiction|]. exact Hstage'.
Qed.

Lemma serial_count (k : nat) :
  forall a i, a <= i < a + k ->
    4 <= count_occ Nat.eq_dec
           (flat_map (fun t => repeat t (length worker_calls)) (seq a k)) i.
Proof.
  induction k as [|k IH]; intros a i Hi; [lia|].
  cbn [seq flat_map]. rewrite count_occ_app.
  destruct (Nat.eq_dec a i) as [->|Hne].
  - cbn [worker_calls length repeat count_occ].
    destruct (Nat.eq_dec i i); [lia | contradiction].
  - specialize (IH (S a) i). lia.
Qed.

(** Whatever the interleaving of the workers' calls into [np.random], every
    worker ends with arrays of the sizes it asked for. *)
Lemma pool_draws_ok (sched : list nat) (n : nat) (g0 : G) (d : draws F) :
  In d (pool_draws adj_matrix dim sched n g0) -> draws_ok adj_matrix dim d.
Proof.
  intros Hin. unfold pool_draws in Hin.
  apply in_map_iff in Hin as (th & <- & Hth).
  apply (In_nth _ _ new_thread) in Hth as (i & Hi & Hnth).
  rewrite run_schedule_length in Hi. cbn [threads] in Hi. rewrite repeat_length in Hi.
  destruct (run_stage (sched ++ serial n)
              {| threads := repeat new_thread n; generator := g0 |} i 0 new_thread)
    as (th' & Hlook & Hstage).
  - cbn [threads]. apply repeat_lookup, Hi.
  - split; [reflexivity|]. repeat split; intros; lia.
  - lia.
  - rewrite (nth_lookup_Some _ _ new_thread _ Hlook) in Hnth. subst th'.
    rewrite count_occ_app in Hstage.
    pose proof (serial_count n 0 i ltac:(lia)) as Hcount. fold (serial n) in Hcount.
    replace (Nat.min 4 (0 + (count_occ Nat.eq_dec sched i +
                             count_occ Nat.eq_dec (serial n) i))) with 4 in Hstage by lia.
    destruct Hstage as (_ & Hpos & Hph & Hfr).
    split; [apply Hpos; lia|]. split; [apply Hph | apply Hfr]; lia.
Qed.


Lemma step_state_ok (dt gamma gamma_theta K : F) (freqs : vec F)
    (st : sim_state F) (o : step_out F) :
  sim_step adj_matrix dim dt gamma gamma_theta K freqs st = Ok o ->
  state_ok adj_matrix dim st ->
  length freqs = num_nodes adj_matrix ->
  state_ok adj_matrix dim (advance o).
Proof.
  intros Hstep (Hpos & Hvel & Hph & Hpv) Hfr.
  destruct (sim_step_shapes _ _ _ _ _ _ _ _ _ Hstep Hpos Hvel) as [Hnv Hnp].
  destruct (sim_step_inv _ _ _ _ _ _ _ _ _ Hstep) as (_ & _ & _ & _ & Hphase & _).
  destruct (phase_step_lengths adj_matrix dt gamma_theta K freqs _ _ Hph Hpv Hfr) as [Hl1 Hl2].
  rewrite <- Hphase in Hl1, Hl2. cbn [fst snd] in Hl1, Hl2.
  unfold state_ok, advance. cbn [positions velocities phases phase_velocities]. auto.
Qed.

Lemma loop_snapshots (tol dt gamma gamma_theta K : F) (freqs : vec F) (n : nat) :
  forall (st : sim_state F) (h h' : histories F),
    simulation_loop adj_matrix dim tol dt gamma gamma_theta K freqs n st h = Ok h' ->
    state_ok adj_matrix dim st ->
    length freqs = num_nodes adj_matrix ->
    snapshots_ok adj_matrix dim h ->
    snapshots_ok adj_matrix dim h'.
Proof.
  induction n as [|n IH]; intros st h h' Hrun Hst Hfr Hsnap; cbn [simulation_loop] in Hrun.
  - inversion Hrun; subst. exact Hsnap.
  - destruct (sim_step adj_matrix dim dt gamma gamma_theta K freqs st) as [o|e] eqn:Hstep;
      [|discriminate].
    cbn [bind] in Hrun.
    pose proof (step_state_ok _ _ _ _ _ _ _ Hstep Hst Hfr) as (Hnp & _ & Hnph & _).
    cbn [advance positions phases] in Hnp, Hnph.
    assert (Hsnap' : snapshots_ok adj_matrix dim (record_step o h)).
    { destruct Hsnap as [Hp Hq]. unfold snapshots_ok, record_step.
      cbn [positions_history phase_history].
      split; apply Forall_app; (split; [assumption|]); constructor; auto. }
    destruct (fltb (total_movement o) tol).
    + inversion Hrun; subst. exact Hsnap'.
    + apply (IH (advance o) (record_step o h) h' Hrun); [|exact Hfr | exact Hsnap'].
      apply (step_state_ok _ _ _ _ _ _ _ Hstep Hst Hfr).
Qed.

(** A run from well-sized draws: its snapshots are well sized, the first
    ones are the draws, and the five lists have matching lengths. *)
Lemma simulate_sizes (iterations : Z) (tol dt gamma gamma_theta K : F)
    (d : draws F) (h : histories F) :
  draws_ok adj_matrix dim d ->
  simulate adj_matrix dim iterations tol dt gamma gamma_theta K d = Ok h ->
  snapshots_ok adj_matrix dim h /\
  nth 0 (positions_history h) [] = drawn_positions d /\
  exists m, m <= Z.to_nat iterations /\
    length (positions_history h) = m + 1 /\
    length (phase_history h) = m + 1 /\
    length (potential_energy_history h) = m /\
    length (kinetic_energy_history h) = m /\
    length (total_energy_history h) = m.
Proof.
  intros (Hpos & Hph & Hfr) Hrun. unfold simulate in Hrun. split; [|split].
  - apply (loop_snapshots _ _ _ _ _ _ _ _ _ _ Hrun); [|exact Hfr|].
    + unfold state_ok, initial_state. cbn [positions velocities phases phase_velocities].
      split; [exact Hpos|]. split; [apply shape_mmap, Hpos|].
      split; [exact Hph | apply repeat_length].
    + unfold snapshots_ok, initial_histories. cbn [positions_history phase_history].
      split; constructor; auto.
  - destruct (loop_steps _ _ _ _ _ _ _ _ _ 0 _ _ _ (initial_recorded adj_matrix d) Hrun)
      as (_ & _ & _ & _ & Hkeep & _).
    now rewrite (Hkeep 0) by lia.
  - destruct (loop_steps _ _ _ _ _ _ _ _ _ 0 _ _ _ (initial_recorded adj_matrix d) Hrun)
      as (m & st' & (Ht & Hk & Hp & Hphl & Hposl & _) & Hle & _).
    exists m. split; [lia|]. auto.
Qed.

End Sizes.

Section EnsembleSizes.

Context {F : Type} {Sc : Scalar F} {Tr : Trig F} {G : Type} {Rng : NumpyRandom G F}.

Lemma binarize_nodes (a : mat F) : num_nodes (binarize a) = num_nodes a.
Proof. unfold num_nodes, binarize, mmap. apply length_map. Qed.

(** A returned ensemble, under any interleaving of the workers: each of the
    five sequences has [ensemble_size] slots; in every slot the position
    snapshots are [N] by [dim] arrays and the phase snapshots have [N]
    entries, [N] being the number of rows of the adjacency matrix; and the
    slot holds one more snapshot than energy entries, at most [iterations] of
    those. *)
Theorem ensemble_sizes
    (sched : list nat) (g0 : G) (is_weighted : bool) (to_numpy_array : mat F)
    (dim : nat) (iterations ensemble_size : Z) (tol dt gamma gamma_theta K : F)
    (r : ensemble F) :
  HONE_kuramoto_ensemble sched g0 is_weighted to_numpy_array dim iterations ensemble_size
    tol dt gamma gamma_theta K = Ok r ->
  let n := Z.to_nat ensemble_size in
  let N := num_nodes to_numpy_array in
  length (ensemble_positions r) = n /\
  length (ensemble_phases r) = n /\
  length (ensemble_potential_energies r) = n /\
  length (ensemble_kinetic_energies r) = n /\
  length (ensemble_total_energies r) = n /\
  forall i, i < n ->
    Forall (shape N dim) (nth i (ensemble_positions r) []) /\
    Forall (fun p => length p = N) (nth i (ensemble_phases r) []) /\
    exists m, m <= Z.to_nat iterations /\
      length (nth i (ensemble_positions r) []) = m + 1 /\
      length (nth i (ensemble_phases r) []) = m + 1 /\
      length (nth i (ensemble_potential_energies r) []) = m /\
      length (nth i (ensemble_kinetic_energies r) []) = m /\
      length (nth i (ensemble_total_energies r) []) = m.
Proof.
  intros Hrun. cbn zeta.
  set (adj := if is_weighted then to_numpy_array else binarize to_numpy_array).
  assert (Hnodes : num_nodes adj = num_nodes to_numpy_array)
    by (unfold adj; destruct is_weighted; [reflexivity | apply binarize_nodes]).
  assert (Hlens :
    length (ensemble_positions r) = Z.to_nat ensemble_size /\
    length (ensemble_phases r) = Z.to_nat ensemble_size /\
    length (ensemble_potential_energies r) = Z.to_nat ensemble_size /\
    length (ensemble_kinetic_energies r) = Z.to_nat ensemble_size /\
    length (ensemble_total_energies r) = Z.to_nat ensemble_size).
  { pose proof Hrun as Hrun'. unfold HONE_kuramoto_ensemble in Hrun'. fold adj in Hrun'.
    destruct (join _) as [rs|e] eqn:Hjoin in Hrun'; [|discriminate].
    cbn [bind] in Hrun'. inversion Hrun'; subst r.
    cbn [ensemble_positions ensemble_phases ensemble_potential_energies
         ensemble_kinetic_energies ensemble_total_energies].
    rewrite !length_map.
    apply join_ok in Hjoin. apply (f_equal (@length _)) in Hjoin.
    rewrite !length_map, pool_draws_length in Hjoin. rewrite <- Hjoin. auto. }
  destruct Hlens as (L1 & L2 & L3 & L4 & L5).
  split; [exact L1|]. split; [exact L2|]. split; [exact L3|]. split; [exact L4|].
  split; [exact L5|].
  intros i Hi.
  destruct (nth_error (pool_draws adj dim sched (Z.to_nat ensemble_size) g0) i) as [d|] eqn:Hd.
  - destruct (ensemble_slots sched g0 is_weighted to_numpy_array dim iterations ensemble_size
                tol dt gamma gamma_theta K r i d Hrun Hd)
      as (h & Hh & Hp & Hph & Hpe & Hke & Hte).
    fold adj in Hh.
    pose proof (pool_draws_ok adj dim sched _ g0 d (nth_error_In _ _ Hd)) as Hok.
    destruct (simulate_sizes adj dim iterations tol dt gamma gamma_theta K d h Hok Hh)
      as ([Hsp Hsq] & _ & m & Hm & M1 & M2 & M3 & M4 & M5).
    rewrite (nth_error_nth _ _ _ Hp), (nth_error_nth _ _ _ Hph), (nth_error_nth _ _ _ Hpe),
      (nth_error_nth _ _ _ Hke), (nth_error_nth _ _ _ Hte).
    rewrite <- Hnodes. split; [exact Hsp|]. split; [exact Hsq|].
    exists m. split; [exact Hm|]. split; [exact M1|]. split; [exact M2|].
    split; [exact M3|]. split; [exact M4 | exact M5].
  - apply nth_error_None in Hd. rewrite pool_draws_length in Hd. lia.
Qed.

End EnsembleSizes.

Lemma ensemble_sizes_witness :
  exists r,
    HONE_kuramoto_ensemble (Rng := counter_random) [0; 1] 5%Z true
      (pair_network 1%R) 1 0 2 (/ 10000)%R (/ 100)%R 1%R (/ 10)%R (/ 2)%R = Ok r /\
    length (ensemble_positions r) = 2.
Proof.
  eexists. split; [reflexivity|].
  destruct (ensemble_sizes (Rng := counter_random) [0; 1] 5%Z true
              (pair_network 1%R) 1 0 2 (/ 10000)%R (/ 100)%R 1%R (/ 10)%R (/ 2)%R _ eq_refl)
    as [Hlen _].
  exact Hlen.
Defined.


Section SingleNodeEnsemble.

Local Open Scope R_scope.

Lemma single_node_simulate (a : R) (dim : nat) (iterations : Z)
    (tol dt gamma gamma_theta K : R) (d : draws R) :
  draws_ok [[a]] dim d -> (0 < iterations)%Z ->
  simulate [[a]] dim iterations tol dt gamma gamma_theta K d = Raise ValueError.
Proof.
  intros ([Hlen _] & _) Hit. unfold simulate.
  destruct (Z.to_nat iterations) as [|n] eqn:Hn; [lia|].
  cbn [simulation_loop]. unfold sim_step.
  change (positions (initial_state [[a]] d)) with (drawn_positions d).
  destruct (drawn_positions d) as [|p [|q rest]]; try discriminate.
  now rewrite single_node_raises_R.
Qed.

(** On a graph with one node the orchestrator raises [ValueError] whenever
    it is asked for at least one realization of at least one step, under
    every interleaving of the workers and for a weighted or an unweighted
    graph. *)
Theorem single_node_ensemble_raises {G : Type} {Rng : NumpyRandom G R}
    (sched : list nat) (g0 : G) (is_weighted : bool) (a : R)
    (dim : nat) (iterations ensemble_size : Z) (tol dt gamma gamma_theta K : R) :
  (0 < iterations)%Z -> (0 < ensemble_size)%Z ->
  HONE_kuramoto_ensemble sched g0 is_weighted [[a]] dim iterations ensemble_size
    tol dt gamma gamma_theta K = Raise ValueError.
Proof.
  intros Hit Hsize.
  destruct (HONE_kuramoto_ensemble sched g0 is_weighted [[a]] dim iterations ensemble_size
              tol dt gamma gamma_theta K) as [r|[]] eqn:Hrun; [|reflexivity].
  exfalso.
  set (adj := if is_weighted then [[a]] else binarize [[a]]).
  assert (Hadj : exists b, adj = [[b]])
    by (unfold adj; destruct is_weighted; eexists; reflexivity).
  destruct Hadj as [b Hb].
  destruct (nth_error (pool_draws adj dim sched (Z.to_nat ensemble_size) g0) 0) as [d|] eqn:Hd.
  - destruct (ensemble_slots sched g0 is_weighted [[a]] dim iterations ensemble_size
                tol dt gamma gamma_theta K r 0 d Hrun Hd) as (h & Hh & _).
    fold adj in Hh.
    pose proof (pool_draws_ok adj dim sched _ g0 d (nth_error_In _ _ Hd)) as Hok.
    rewrite Hb in Hh, Hok.
    rewrite (single_node_simulate b dim iterations tol dt gamma gamma_theta K d Hok Hit) in Hh.
    discriminate.
  - apply nth_error_None in Hd. rewrite pool_draws_length in Hd. lia.
Qed.

Lemma single_node_ensemble_raises_witness :
  HONE_kuramoto_ensemble (Rng := counter_random) [0%nat; 1%nat] 5%Z false
    [[1]] 2 100 2 (/ 10000) (/ 100) 1 (/ 10) (/ 2) = Raise ValueError.
Proof.
  apply (single_node_ensemble_raises (Rng := counter_random) [0%nat; 1%nat] 5%Z false 1
           2 100 2 (/ 10000) (/ 100) 1 (/ 10) (/ 2)); lia.
Defined.

End SingleNodeEnsemble.

(** ** A worker that is not interrupted *)

Section Uninterrupted.

Context {F : Type} {Sc : Scalar F} {Tr : Trig F} {G : Type} {Rng : NumpyRandom G F}.
Variable adj_matrix : mat F.
Variable dim : nat.

Local Abbreviation run := (run_schedule adj_matrix dim).

(** A thread that has made its calls keeps its draws, whatever runs next. *)
Lemma finished_stays (sched : list nat) (t : nat) (d : draws F) :
  forall p : pool F G,
    threads p !! t = Some {| pending := []; drawn := d |} ->
    threads (run sched p) !! t = Some {| pending := []; drawn := d |}.
Proof.
  induction sched as [|t' sched IH]; intros p Hlook; [exact Hlook|].
  change (run (t' :: sched) p) with (run sched (run [t'] p)). apply IH.
  destruct (Nat.eq_dec t' t) as [->|Hne].
  - change (run [t] p) with (pool_step adj_matrix dim p t).
    now rewrite (finished_step adj_matrix dim p t d Hlook).
  - rewrite (run_others adj_matrix dim t [t']) by (repeat constructor; exact Hne).
    exact Hlook.
Qed.

Lemma nth_error_lookup {A : Type} (l : list A) (i : nat) : nth_error l i = l !! i.
Proof. revert i. induction l as [|x l IH]; intros [|i]; simpl; auto. Qed.

(** A worker whose four calls into [np.random] run back to back, before any
    other call of its own, draws the stream of its own seed, whatever the
    other workers do before, after and among themselves. *)
Theorem uninterrupted_worker_draws_own_stream
    (before after : list nat) (t n : nat) (g0 : G) :
  t < n ->
  Forall (fun t' => t' <> t) before ->
  nth_error (pool_draws adj_matrix dim
               (before ++ repeat t (length worker_calls) ++ after) n g0) t =
  Some (fst (draw_initial adj_matrix dim (random_seed (Z.of_nat t)))).
Proof.
  intros Ht Hbefore. unfold pool_draws.
  rewrite <- !app_assoc, !run_app.
  set (p0 := {| threads := repeat new_thread n; generator := g0 |}).
  assert (Hnew : threads (run before p0) !! t = Some new_thread).
  { rewrite (run_others adj_matrix dim t before Hbefore). cbn [p0 threads].
    apply repeat_lookup, Ht. }
  destruct (run before p0) as [ths g] eqn:Hp1. cbn [threads] in Hnew.
  rewrite (thread_block adj_matrix dim t ths g Hnew).
  rewrite nth_error_map, nth_error_lookup.
  rewrite (finished_stays (serial n) t
             (fst (draw_initial adj_matrix dim (random_seed (Z.of_nat t))))).
  - reflexivity.
  - apply finished_stays. cbn [threads].
    apply list_lookup_insert_eq. apply (lookup_lt_Some _ _ _ Hnew).
Qed.

End Uninterrupted.

Lemma uninterrupted_worker_draws_own_stream_witness :
  nth_error (pool_draws (Rng := counter_random) (pair_network 1%R) 1
               ([1] ++ repeat 0 (length worker_calls) ++ [1; 1; 1]) 2 7%Z) 0 =
  Some (fst (draw_initial (Rng := counter_random) (pair_network 1%R) 1
               (random_seed (NumpyRandom := counter_random) (Z.of_nat 0)))).
Proof.
  apply (uninterrupted_worker_draws_own_stream (Rng := counter_random)
           (pair_network 1%R) 1 [1] [1; 1; 1] 0 2 7%Z).
  - lia.
  - repeat constructor. lia.
Defined.

(** ** Where the initial layout lies *)

Section InitialRanges.

Local Open Scope R_scope.

Lemma draw_vec_Forall {G : Type} (P : R -> Prop) (draw : G -> R * G) (n : nat) :
  (forall g, P (fst (draw g))) ->
  forall g, Forall P (fst (draw_vec draw n g)).
Proof.
  intros Hdraw. induction n as [|n IH]; intros g; cbn [draw_vec]; [constructor|].
  specialize (Hdraw g). destruct (draw g) as [x g1]. specialize (IH g1).
  destruct (draw_vec draw n g1) as [xs g2]. cbn [fst] in *. constructor; assumption.
Qed.

Lemma draw_mat_Forall {G : Type} (P : R -> Prop) (draw : G -> R * G) (rows cols : nat) :
  (forall g, P (fst (draw g))) ->
  forall g, Forall (Forall P) (fst (draw_mat draw rows cols g)).
Proof.
  intros Hdraw. induction rows as [|rows IH]; intros g; cbn [draw_mat]; [constructor|].
  pose proof (draw_vec_Forall P draw cols Hdraw g) as Hrow.
  destruct (draw_vec draw cols g) as [r g1]. specialize (IH g1).
  destruct (draw_mat draw rows cols g1) as [rs g2]. cbn [fst] in *. constructor; assumption.
Qed.

(** If the generator's uniform draws lie in [0,1), as [np.random]'s do, the
    initial positions lie in the unit cube and the initial phases in
    [0, 2*pi), from whatever state the generator starts. *)
Theorem initial_layout_ranges {G : Type} {Rng : NumpyRandom G R}
    (adj : mat R) (dim : nat) (g : G) :
  (forall g', 0 <= fst (random_sample g') < 1) ->
  let d := fst (draw_initial adj dim g) in
  Forall (Forall (fun x => 0 <= x < 1)) (drawn_positions d) /\
  Forall (fun p => 0 <= p < 2 * PI) (drawn_phases d).
Proof.
  intros Hunit. cbn zeta. unfold draw_initial.
  pose proof (draw_mat_Forall (fun x => 0 <= x < 1) random_sample (num_nodes adj) dim Hunit g)
    as Hpos.
  fold (np_random_rand (num_nodes adj) dim g) in Hpos.
  destruct (np_random_rand (num_nodes adj) dim g) as [pos g1].
  pose proof (draw_vec_Forall (fun p => 0 <= p < 2 * PI)
                (fun g => let (u, g') := random_sample g in
                          (fadd fzero (fmul (fsub (fmul (fadd fone fone) fpi) fzero) u), g'))
                (num_nodes adj)) as Hph.
  assert (Hangle : forall g' : G,
            (fun p => 0 <= p < 2 * PI)
              (fst (let (u, g'') := random_sample g' in
                    (fadd fzero (fmul (fsub (fmul (fadd fone fone) fpi) fzero) u), g'')))).
  { intros g'. specialize (Hunit g'). destruct (random_sample g') as [u g''].
    cbn [fst] in *. simpl. pose proof PI_RGT_0 as Hpi.
    assert (0 <= PI * u) by (apply Rmult_le_pos; lra).
    assert (PI * u < PI) by nra.
    lra. }
  specialize (Hph Hangle g1). unfold np_random_uniform.
  destruct (draw_vec _ (num_nodes adj) g1) as [ph g2].
  destruct (np_random_normal fzero fone (num_nodes adj) g2) as [fr g3].
  cbn [fst drawn_positions drawn_phases] in *. split; assumption.
Qed.

Lemma initial_layout_ranges_witness :
  Forall (Forall (fun x => 0 <= x < 1))
    (drawn_positions (fst (draw_initial (Rng := cyclic_random) (pair_network 1) 1 7%Z))).
Proof.
  destruct (initial_layout_ranges (Rng := cyclic_random) (pair_network 1) 1 7%Z) as [Hpos _].
  - intros g'. cbn [random_sample cyclic_random fst].
    pose proof (Z.mod_pos_bound g' 8 ltac:(lia)) as [Hlo Hhi].
    apply IZR_le in Hlo. apply IZR_lt in Hhi. lra.
  - exact Hpos.
Defined.

End InitialRanges.

(** ** The centroid of the layout *)

Section Centroid.

Local Open Scope R_scope.

Variable adj : mat R.
Variable dim : nat.
Hypothesis adj_square : Forall (fun r => length r = num_nodes adj) adj.
Hypothesis adj_symmetric : symmetric adj.

(** The sum of column [c] of an array with one row per node. *)
Local Abbreviation column_sum a c :=
  (np_sum (map (fun i => entry a i c) (seq 0 (num_nodes adj)))).

(** One step: the total velocity is damped by [1 - gamma] and nothing else,
    and the column sums of the positions move by [dt] times the total
    velocity. *)
Lemma step_momentum (dt gamma gamma_theta K : R) (freqs : vec R)
    (st : sim_state R) (o : step_out R) (c : nat) :
  sim_step adj dim dt gamma gamma_theta K freqs st = Ok o ->
  shape (num_nodes adj) dim (positions st) ->
  shape (num_nodes adj) dim (velocities st) ->
  (c < dim)%nat ->
  column_sum (new_velocities o) c = (1 - gamma) * column_sum (velocities st) c /\
  column_sum (new_positions o) c =
    column_sum (positions st) c + dt * column_sum (new_velocities o) c.
Proof.
  intros Hstep Hpos Hvel Hc.
  destruct (sim_step_inv _ _ _ _ _ _ _ _ _ Hstep) as (forces & Hforces & _).
  pose proof (forces_cancel adj dim (positions st) forces c Hpos adj_square adj_symmetric
                Hforces Hc) as Hzero.
  split.
  - rewrite (np_sum_map_ext _
               (fun i => (1 - gamma) * entry (velocities st) i c + dt * entry forces i c)).
    + rewrite np_sum_add, !np_sum_scale_map, Hzero. lra.
    + intros i Hi. apply in_seq in Hi.
      destruct (spatial_step_entry _ _ _ _ _ _ _ _ _ _ i c Hstep Hforces Hpos Hvel) as
        (_ & _ & Hv & _); [lia | exact Hc |].
      rewrite Hv. simpl. lra.
  - rewrite (np_sum_map_ext (fun i => entry (new_positions o) i c)
               (fun i => entry (positions st) i c + dt * entry (new_velocities o) i c)).
    + rewrite np_sum_add, np_sum_scale_map. reflexivity.
    + intros i Hi. apply in_seq in Hi.
      destruct (spatial_step_entry _ _ _ _ _ _ _ _ _ _ i c Hstep Hforces Hpos Hvel) as
        (_ & _ & _ & Hp); [lia | exact Hc |].
      rewrite Hp. simpl. lra.
Qed.

Lemma loop_centroid (tol dt gamma gamma_theta K : R) (freqs : vec R)
    (total : nat -> R) (n : nat) :
  forall (st : sim_state R) (h h' : histories R),
    simulation_loop adj dim tol dt gamma gamma_theta K freqs n st h = Ok h' ->
    state_ok adj dim st ->
    length freqs = num_nodes adj ->
    (forall c, (c < dim)%nat -> column_sum (velocities st) c = 0) ->
    (forall c, (c < dim)%nat -> column_sum (positions st) c = total c) ->
    Forall (fun p => forall c, (c < dim)%nat -> column_sum p c = total c)
           (positions_history h) ->
    Forall (fun p => forall c, (c < dim)%nat -> column_sum p c = total c)
           (positions_history h').
Proof.
  induction n as [|n IH]; intros st h h' Hrun Hst Hfr Hv Hp Hall;
    cbn [simulation_loop] in Hrun.
  - inversion Hrun; subst. exact Hall.
  - destruct (sim_step adj dim dt gamma gamma_theta K freqs st) as [o|e] eqn:Hstep;
      [|discriminate].
    cbn [bind] in Hrun.
    pose proof Hst as (Hpos & Hvel & _).
    assert (Hv' : forall c, (c < dim)%nat -> column_sum (new_velocities o) c = 0).
    { intros c Hc. destruct (step_momentum _ _ _ _ _ _ _ c Hstep Hpos Hvel Hc) as [Hnv _].
      rewrite Hnv, (Hv c Hc). lra. }
    assert (Hp' : forall c, (c < dim)%nat -> column_sum (new_positions o) c = total c).
    { intros c Hc. destruct (step_momentum _ _ _ _ _ _ _ c Hstep Hpos Hvel Hc) as [_ Hnp].
      rewrite Hnp, (Hv' c Hc), (Hp c Hc). lra. }
    assert (Hall' : Forall (fun p => forall c, (c < dim)%nat -> column_sum p c = total c)
                      (positions_history (record_step o h))).
    { unfold record_step. cbn [positions_history]. apply Forall_app. split; [exact Hall|].
      constructor; [exact Hp' | constructor]. }
    destruct (fltb (total_movement o) tol).
    + inversion Hrun; subst. exact Hall'.
    + apply (IH (advance o) (record_step o h) h' Hrun); try assumption.
      apply (step_state_ok adj dim _ _ _ _ _ _ _ Hstep Hst Hfr).
Qed.

(** For a symmetric adjacency matrix the layout keeps its centroid: in
    every snapshot of a run, each coordinate summed over the nodes is what it
    was in the initial draw.  (The velocities start at zero and the forces
    cancel, so the total velocity stays zero.) *)
Theorem centroid_is_kept {G : Type} {Rng : NumpyRandom G R}
    (iterations : Z) (tol : R) (seed : Z) (dt gamma gamma_theta K : R)
    (h : histories R) (p : mat R) (c : nat) :
  HONE_worker_with_damped_kuramoto adj dim iterations tol seed dt gamma gamma_theta K = Ok h ->
  In p (positions_history h) ->
  (c < dim)%nat ->
  column_sum p c =
  column_sum (drawn_positions (fst (draw_initial adj dim (random_seed seed)))) c.
Proof.
  intros Hrun Hin Hc. unfold HONE_worker_with_damped_kuramoto, simulate in Hrun.
  destruct (initial_state_shapes adj dim (random_seed seed)) as (Hpos & Hvel & Hph & Hpv).
  destruct (drawn_lengths adj dim (random_seed seed)) as (_ & _ & Hfr).
  set (d := fst (draw_initial adj dim (random_seed seed))) in *.
  assert (Hall : Forall (fun p => forall c, (c < dim)%nat ->
                          column_sum p c = column_sum (drawn_positions d) c)
                   (positions_history h)).
  2: { rewrite List.Forall_forall in Hall. apply Hall; [exact Hin | exact Hc]. }
  apply (loop_centroid tol dt gamma gamma_theta K (drawn_frequencies d)
           (fun c => column_sum (drawn_positions d) c) _ _ _ _ Hrun).
  - split; [exact Hpos|]. split; [exact Hvel|]. split; [exact Hph | exact Hpv].
  - exact Hfr.
  - intros c' Hc'. apply np_sum_zeros. apply List.Forall_forall. intros x Hx.
    apply in_map_iff in Hx as (i & <- & Hi). apply in_seq in Hi.
    unfold initial_state. cbn [velocities].
    rewrite (entry_mmap _ (num_nodes adj) dim); [reflexivity | exact Hpos | lia | exact Hc'].
  - reflexivity.
  - unfold initial_histories. cbn [positions_history]. constructor; [|constructor].
    reflexivity.
Qed.

End Centroid.

Lemma centroid_is_kept_witness :
  exists h,
    HONE_worker_with_damped_kuramoto (Rng := counter_random)
      (pair_network 1%R) 1 1 0%R 0 (/ 100)%R 1%R (/ 10)%R (/ 2)%R = Ok h /\
    forall p, In p (positions_history h) ->
      np_sum (map (fun i => entry p i 0) (seq 0 2)) =
      np_sum (map (fun i => entry [[0 / 8]; [1 / 8]]%R i 0) (seq 0 2)).
Proof.
  destruct (counter_pair_returns 1 0) as [h Hh].
  exists h. split; [exact Hh|]. intros p Hp.
  exact (centroid_is_kept (Rng := counter_random) (pair_network 1%R) 1
           ltac:(repeat constructor) (pair_network_symmetric 1%R)
           1 0%R 0 (/ 100)%R 1%R (/ 10)%R (/ 2)%R h p 0 Hh Hp ltac:(lia)).
Defined.

(** ** Self-loops *)

Section SelfLoops.

Local Open Scope R_scope.

Variables adj adj' : mat R.
Variable dim : nat.
Hypothesis adj_square : Forall (fun r => length r = num_nodes adj) adj.
Hypothesis adj'_square : Forall (fun r => length r = num_nodes adj) adj'.
Hypothesis same_nodes : num_nodes adj' = num_nodes adj.
Hypothesis same_edges : forall i j, i <> j -> entry adj' i j = entry adj i j.

Lemma select_agree (mask : list bool) :
  forall u v : vec R,
    length u = length v ->
    (forall j, nth j mask false = true -> nth j u 0 = nth j v 0) ->
    select mask u = select mask v.
Proof.
  induction mask as [|m mask IH]; intros [|x u] [|y v] Hlen Hsame; simpl in *;
    try discriminate; try reflexivity.
  assert (Htail : select mask u = select mask v).
  { apply IH; [lia|]. intros j Hj. apply (Hsame (S j)). exact Hj. }
  destruct m; [|exact Htail].
  rewrite Htail. f_equal. apply (Hsame 0%nat). reflexivity.
Qed.

Lemma rows_same_length (i : nat) : length (row adj' i) = length (row adj i).
Proof.
  destruct (Nat.lt_ge_cases i (num_nodes adj)) as [Hi|Hi].
  - rewrite (row_length_of (num_nodes adj) adj' i), (row_length_of (num_nodes adj) adj i);
      [reflexivity | exact adj_square | exact Hi | exact adj'_square |].
    fold (num_nodes adj'). rewrite same_nodes. exact Hi.
  - unfold row. rewrite !nth_overflow; [reflexivity | exact Hi |].
    fold (num_nodes adj'). rewrite same_nodes. exact Hi.
Qed.

(** Node [i] does not pass its own mask. *)
Lemma own_mask (positions : mat R) (i : nat) :
  (i < length positions)%nat ->
  nth i (map (fun d => fltb ftiny d)
           (norm_axis1 (map (fun p => vzip fsub p (row positions i)) positions))) false = false.
Proof.
  intros Hi. unfold norm_axis1. rewrite !map_map.
  rewrite (nth_map_in _ _ _ []) by exact Hi.
  fold (row positions i). rewrite norm_sub_self. apply fltb_R_false. simpl. lra.
Qed.

Lemma force_on_same (positions : mat R) (i : nat) :
  (i < length positions)%nat ->
  force_on adj' dim positions i = force_on adj dim positions i.
Proof.
  intros Hi. unfold force_on. cbv zeta.
  rewrite (select_agree _ (row adj' i) (row adj i)); [reflexivity | apply rows_same_length |].
  intros j Hj. destruct (Nat.eq_dec j i) as [->|Hne].
  - rewrite own_mask in Hj by exact Hi. discriminate.
  - apply same_edges. auto.
Qed.

Lemma calculate_forces_same (positions : mat R) :
  length positions = num_nodes adj ->
  calculate_forces adj' dim positions = calculate_forces adj dim positions.
Proof.
  intros Hlen. unfold calculate_forces. rewrite same_nodes.
  apply for_each_ext. intros i forces Hi. apply in_seq in Hi.
  rewrite force_on_same by lia. reflexivity.
Qed.

Lemma phase_coupling_same (ph : vec R) :
  phase_coupling adj' ph = phase_coupling adj ph.
Proof.
  unfold phase_coupling. rewrite same_nodes. apply map_ext. intros i. f_equal.
  apply (nth_ext _ _ 0 0).
  - rewrite !vzip_length, rows_same_length. reflexivity.
  - intros j Hj. rewrite vzip_length in Hj.
    rewrite !nth_vzip by (rewrite <- ?rows_same_length; lia).
    destruct (Nat.eq_dec j i) as [->|Hne].
    + rewrite !length_map in Hj. rewrite (nth_map_in _ _ _ 0) by (rewrite length_map; lia).
      rewrite (nth_map_in _ _ _ 0) by lia. simpl.
      replace (nth i ph 0 - nth i ph 0) with 0 by lra. rewrite sin_0. lra.
    + f_equal. apply same_edges. auto.
Qed.

Lemma potential_same (positions : mat R) :
  compute_potential_energy adj' positions = compute_potential_energy adj positions.
Proof.
  unfold compute_potential_energy. rewrite same_nodes. f_equal. f_equal.
  apply flat_map_ext_in. intros i _. apply map_ext_in. intros j Hj. apply in_seq in Hj.
  cbv zeta. f_equal. apply same_edges. lia.
Qed.

Lemma sim_step_same (dt gamma gamma_theta K : R) (freqs : vec R) (st : sim_state R) :
  length (positions st) = num_nodes adj ->
  sim_step adj' dim dt gamma gamma_theta K freqs st =
  sim_step adj dim dt gamma gamma_theta K freqs st.
Proof.
  intros Hlen. unfold sim_step. rewrite calculate_forces_same by exact Hlen.
  destruct (calculate_forces adj dim (positions st)) as [forces|e]; [|reflexivity].
  cbn [bind]. unfold phase_step. rewrite phase_coupling_same.
  cbv zeta. now rewrite potential_same.
Qed.

Lemma loop_same (tol dt gamma gamma_theta K : R) (freqs : vec R) (n : nat) :
  forall (st : sim_state R) (h : histories R),
    state_ok adj dim st ->
    length freqs = num_nodes adj ->
    simulation_loop adj' dim tol dt gamma gamma_theta K freqs n st h =
    simulation_loop adj dim tol dt gamma gamma_theta K freqs n st h.
Proof.
  induction n as [|n IH]; intros st h Hst Hfr; cbn [simulation_loop]; [reflexivity|].
  rewrite sim_step_same by (destruct Hst as [[Hlen _] _]; exact Hlen).
  destruct (sim_step adj dim dt gamma gamma_theta K freqs st) as [o|e] eqn:Hstep;
    [|reflexivity].
  cbn [bind]. destruct (fltb (total_movement o) tol); [reflexivity|].
  apply IH; [|exact Hfr]. apply (step_state_ok adj dim _ _ _ _ _ _ _ Hstep Hst Hfr).
Qed.

(** The diagonal of the adjacency matrix has no effect: two square matrices
    of one size that agree off the diagonal give the same forces, phase
    coupling and potential, and the worker returns the same histories (or
    raises alike) for both.  A node never passes its own distance mask, the
    sine of its own phase difference is 0, and the potential sums over
    [j < i]. *)
Theorem self_loops_are_ignored {G : Type} {Rng : NumpyRandom G R}
    (iterations : Z) (tol : R) (seed : Z) (dt gamma gamma_theta K : R) :
  (forall positions, length positions = num_nodes adj ->
     calculate_forces adj' dim positions = calculate_forces adj dim positions) /\
  (forall ph, phase_coupling adj' ph = phase_coupling adj ph) /\
  (forall positions,
     compute_potential_energy adj' positions = compute_potential_energy adj positions) /\
  HONE_worker_with_damped_kuramoto adj' dim iterations tol seed dt gamma gamma_theta K =
  HONE_worker_with_damped_kuramoto adj dim iterations tol seed dt gamma gamma_theta K.
Proof.
  split; [exact calculate_forces_same|]. split; [exact phase_coupling_same|].
  split; [exact potential_same|].
  unfold HONE_worker_with_damped_kuramoto, simulate.
  assert (Hdraw : draw_initial adj' dim (random_seed seed) =
                  draw_initial adj dim (random_seed seed))
    by (unfold draw_initial; now rewrite same_nodes).
  rewrite Hdraw.
  destruct (initial_state_shapes adj dim (random_seed seed)) as (Hpos & Hvel & Hph & Hpv).
  destruct (drawn_lengths adj dim (random_seed seed)) as (_ & _ & Hfr).
  assert (Hinit : initial_state adj' (fst (draw_initial adj dim (random_seed seed))) =
                  initial_state adj (fst (draw_initial adj dim (random_seed seed))))
    by (unfold initial_state; now rewrite same_nodes).
  rewrite Hinit. apply loop_same; [|exact Hfr].
  split; [exact Hpos|]. split; [exact Hvel|]. split; [exact Hph | exact Hpv].
Qed.

End SelfLoops.

Lemma self_loops_are_ignored_witness :
  HONE_worker_with_damped_kuramoto (Rng := counter_random)
    [[5; 1]; [1; 7]]%R 1 100 (/ 10000)%R 0 (/ 100)%R 1%R (/ 10)%R (/ 2)%R =
  HONE_worker_with_damped_kuramoto (Rng := counter_random)
    (pair_network 1%R) 1 100 (/ 10000)%R 0 (/ 100)%R 1%R (/ 10)%R (/ 2)%R.
Proof.
  assert (Hedges : forall i j, i <> j ->
            entry [[5; 1]; [1; 7]]%R i j = entry (pair_network 1%R) i j).
  { intros [|[|i]] [|[|j]] Hne; try reflexivity;
      try (exfalso; apply Hne; reflexivity); destruct j; reflexivity. }
  destruct (@self_loops_are_ignored (pair_network 1%R) [[5; 1]; [1; 7]]%R 1
              ltac:(repeat constructor) ltac:(repeat constructor) eq_refl Hedges
              Z counter_random 100%Z (/ 10000)%R 0%Z (/ 100)%R 1%R (/ 10)%R (/ 2)%R)
    as (_ & _ & _ & Hrun).
  exact Hrun.
Defined.
